(** * ChronusQ: the DIIS extrapolation engine and the SCF option equivalences

    A shallow embedding of
    - [DIIS<T>::extrapolate] (include/extrapolate.hpp), and
    - [CQSCFOptions] (src/cxxapi/input/scfopts.cxx),
    with the properties of the specification stated and proved over it.

    The scalar type [T] of the [DIIS<T>] template is an interface (class
    [Scalar]); everything that only moves data around is proved for every
    implementation of it, IEEE binary64 included.  Statements about the
    values the linear solve produces are proved over exact scalars (class
    [ExactScalar]: a field), with the rationals and the Gaussian rationals
    as the real and the complex instance; the binary64 instance runs the
    same definitions and shows where rounding and overflow depart from
    them.  The call is embedded a second time over raw memory
    ([extrapolate_at]), where what it may write can be stated. *)

From Stdlib Require Import String.
From Stdlib Require Import List Arith Lia Bool ZArith Permutation.
From Stdlib Require Import QArith Qabs Qcanon Field Ring Lra Psatz Floats.
Import ListNotations.

Close Scope Qc_scope.
Close Scope Q_scope.
Open Scope nat_scope.

Set Implicit Arguments.

(** ** Scalars: the template parameter [T] *)

(** What [extrapolate], [InnerProd] and the dense solver use of [T].
    [Tconj] is the identity of a real type; [is_zero] is the test [x == 0];
    [abs_ltb x y] is the comparison [|x| < |y|] of the pivot search;
    [Tsfmin] is the safe minimum of the type, the least magnitude whose
    reciprocal does not overflow (zero where nothing overflows). *)
Class Scalar (T : Type) : Type := {
  Tzero : T;
  Tone : T;
  Tadd : T -> T -> T;
  Tmul : T -> T -> T;
  Tsub : T -> T -> T;
  Topp : T -> T;
  Tdiv : T -> T -> T;
  Tinv : T -> T;
  Tconj : T -> T;
  is_zero : T -> bool;
  abs_ltb : T -> T -> bool;
  Tsfmin : T
}.

(** Exact arithmetic: the operations form a field, the zero test decides
    equality with zero, zero has the least magnitude, and conjugation is
    an involutive ring morphism. *)
Class ExactScalar (T : Type) `{Scalar T} : Prop := {
  scalar_field :
    field_theory Tzero Tone Tadd Tmul Tsub Topp Tdiv Tinv (@eq T);
  is_zero_spec : forall x : T, is_zero x = true <-> x = Tzero;
  abs_ltb_zero_r : forall x : T, abs_ltb x Tzero = false;
  abs_ltb_zero_l : forall x : T, x <> Tzero -> abs_ltb Tzero x = true;
  conj_add : forall x y : T, Tconj (Tadd x y) = Tadd (Tconj x) (Tconj y);
  conj_mul : forall x y : T, Tconj (Tmul x y) = Tmul (Tconj x) (Tconj y);
  conj_zero : Tconj Tzero = Tzero;
  conj_invol : forall x : T, Tconj (Tconj x) = x
}.

(** A real exact scalar type: conjugation does nothing and there is an
    order for which squares and sums of non-negatives are non-negative. *)
Class RealScalar (T : Type) `{Scalar T} : Type := {
  Tle : T -> T -> Prop;
  conj_real : forall x : T, Tconj x = x;
  Tle_zero : Tle Tzero Tzero;
  Tle_square : forall x : T, Tle Tzero (Tmul x x);
  Tle_add : forall x y : T, Tle Tzero x -> Tle Tzero y -> Tle Tzero (Tadd x y)
}.

Arguments ExactScalar T {_}.
Arguments RealScalar T {_}.

Declare Scope scalar_scope.
Delimit Scope scalar_scope with T.
Infix "+" := Tadd : scalar_scope.
Infix "*" := Tmul : scalar_scope.
Infix "-" := Tsub : scalar_scope.
Infix "/" := Tdiv : scalar_scope.
Notation "- x" := (Topp x) : scalar_scope.

(** ** Vectors and counted loops *)

(** [l[i] = v] on a [std::vector]; the index is in range wherever the
    history is valid (out of range the C++ is undefined, and [vset] leaves
    the vector as it is). *)
Fixpoint vset {A : Type} (l : list A) (i : nat) (v : A) : list A :=
  match l, i with
  | [], _ => []
  | _ :: t, O => v :: t
  | h :: t, S i' => h :: vset t i' v
  end.

(** [for (i = 0; i < n; i++) s = body i s]. *)
Fixpoint for_loop {St : Type} (n : nat) (body : nat -> St -> St) (s : St)
    : St :=
  match n with
  | O => s
  | S n' => body n' (for_loop n' body s)
  end.

(** [std::fill_n(&l[0], n, v)]. *)
Fixpoint fill_n {A : Type} (l : list A) (n : nat) (v : A) : list A :=
  match n, l with
  | O, _ => l
  | S _, [] => []
  | S n', _ :: t => v :: fill_n t n' v
  end.

(** Left-to-right accumulation from zero. *)
Definition Tsum {T : Type} `{Scalar T} (l : list T) : T :=
  fold_left Tadd l Tzero.

Section Engine.

Context {T : Type} `{Scalar T}.

(** ** The inner-product primitive *)

(** Modelled from the spec: [InnerProd<T>] belongs to the linear algebra
    layer of the repository (cqlinalg), whose definition is not among the
    files embedded here.  Section 4.1: the sum over [k = 0..n-1] of
    [conj(x_k) * y_k], accumulated left to right, each buffer walked with
    its own stride. *)
Fixpoint InnerProd_from (n : nat) (x : list T) (ix incx : nat)
    (y : list T) (iy incy : nat) (acc : T) : T :=
  match n with
  | O => acc
  | S n' =>
      InnerProd_from n' x (ix + incx) incx y (iy + incy) incy
        (acc + Tconj (nth ix x Tzero) * nth iy y Tzero)%T
  end.

Definition InnerProd (n : nat) (x : list T) (incx : nat)
    (y : list T) (incy : nat) : T :=
  InnerProd_from n x 0 incx y 0 incy Tzero.

(** The sum the specification writes, term by term. *)
Definition dot_terms (n : nat) (x y : list T) : list T :=
  map (fun k => (Tconj (nth k x Tzero) * nth k y Tzero)%T) (seq 0 n).

(** ** The engine and the caller's memory *)

(** A [T*] of the history names a buffer of the caller. *)
Definition ptr := nat.

(** The caller-owned buffers, by name. *)
Definition Memory := list (list T).

Definition deref (m : Memory) (p : ptr) : list T := nth p m [].

Record DIIS : Type := mkDIIS {
  nExtrap : nat;
  nMat : nat;
  OSize : nat;
  coeffs : list T;
  errorMetric : list (list ptr)
}.

(** The constructor: the fields are copied and [coeffs] is resized to
    [nExtrap + 1] value-initialised entries. *)
Definition DIIS_new (nExtrap nMat OSize : nat)
    (errorMetric : list (list ptr)) : DIIS :=
  mkDIIS nExtrap nMat OSize (repeat Tzero (nExtrap + 1)) errorMetric.

Definition INT_MAX : Z := 2147483647.

(** A valid call: [coeffs] has the length the constructor gave it, the
    history has [nExtrap] slots of [nMat] buffers of [OSize] elements, all
    of them in the caller's memory, and [N * N] fits the [int] it is
    computed in. *)
Definition valid_slot (m : Memory) (d : DIIS) (slot : list ptr) : bool :=
  (length slot =? nMat d) &&
  forallb (fun p => (p <? length m) && (length (deref m p) =? OSize d)) slot.

Definition valid_history (m : Memory) (d : DIIS) : bool :=
  (length (coeffs d) =? nExtrap d + 1) &&
  (Z.of_nat (nExtrap d + 1) * Z.of_nat (nExtrap d + 1) <=? INT_MAX)%Z &&
  (length (errorMetric d) =? nExtrap d) &&
  forallb (valid_slot m d) (errorMetric d).

(** [errorMetric[k][i]], dereferenced. *)
Definition metric (m : Memory) (d : DIIS) (k i : nat) : list T :=
  deref m (nth i (nth k (errorMetric d) []) 0).

(** The term line 106 adds to [B[k+j*N]]. *)
Definition pair_product (m : Memory) (d : DIIS) (i j k : nat) : T :=
  InnerProd (OSize d) (metric m d k i) 1 (metric m d j i) 1.

(** The sum over the tracked matrices that the specification gives for
    [B[k][j]]: the inner products of slot [k] with slot [j], added up from
    zero in the order of [i]. *)
Definition gram_entry (m : Memory) (d : DIIS) (k j : nat) : T :=
  Tsum (map (fun i => InnerProd (OSize d) (metric m d k i) 1
                        (metric m d j i) 1)
            (seq 0 (nMat d))).

(** ** Assembly of the bordered matrix (lines 100 to 124) *)

(** Lines 103 to 109. *)
Definition accumulate (m : Memory) (d : DIIS) (N : nat) (B : list T)
    : list T :=
  for_loop (nMat d) (fun i B =>
    for_loop (nExtrap d) (fun j B =>
      for_loop (S j) (fun k B =>
        vset B (k + j * N)
          (nth (k + j * N) B Tzero + pair_product m d i j k)%T) B) B) B.

(** Lines 110 to 114. *)
Definition mirror (n N : nat) (B : list T) : list T :=
  for_loop n (fun j B =>
    for_loop j (fun k B =>
      vset B (j + k * N) (nth (k + j * N) B Tzero)) B) B.

(** Lines 115 to 118. *)
Definition border (n N : nat) (B : list T) : list T :=
  for_loop n (fun l B =>
    vset (vset B (n + l * N) (- Tone)%T) (l + n * N) (- Tone)%T) B.

(** Lines 96 to 119: the matrix handed to the solver, column-major with
    leading dimension [N], so that the specification's [B[r][c]] is
    [B[r + c*N]]. *)
Definition assemble_B (m : Memory) (d : DIIS) : list T :=
  let N := nExtrap d + 1 in
  let B := repeat Tzero (N * N) in
  let B := accumulate m d N B in
  let B := mirror (nExtrap d) N B in
  let B := border (nExtrap d) N B in
  vset B (nExtrap d + nExtrap d * N) Tzero.

(** Lines 123 and 124: the right-hand side, written into [coeffs]. *)
Definition init_rhs (d : DIIS) : list T :=
  let N := nExtrap d + 1 in
  vset (fill_n (coeffs d) N Tzero) (nExtrap d) (- Tone)%T.

(** Entry [(r, c)] of a column-major matrix of leading dimension [N]. *)
Definition entry (N : nat) (B : list T) (r c : nat) : T :=
  nth (r + c * N) B Tzero.

(** ** The dense solver *)

(** One equation of the system: the coefficients still to eliminate and
    the right-hand side. *)
Definition Row : Type := (list T * T)%type.

Fixpoint dot (a x : list T) : T :=
  match a, x with
  | ai :: a', xi :: x' => (ai * xi + dot a' x')%T
  | _, _ => Tzero
  end.

(** The pivot search of the BLAS ([IxAMAX]): the first index whose entry
    has the largest magnitude. *)
Fixpoint iamax_from (best : nat) (vbest : T) (i : nat) (xs : list T)
    : nat :=
  match xs with
  | [] => best
  | x :: xs' =>
      if abs_ltb vbest x then iamax_from i x (S i) xs'
      else iamax_from best vbest (S i) xs'
  end.

Definition iamax (xs : list T) : nat :=
  match xs with
  | [] => 0
  | x :: xs' => iamax_from 0 x 1 xs'
  end.

(** The row interchange: rows [0] and [p] change places. *)
Definition swap_first {A : Type} (l : list A) (p : nat) : list A :=
  match l, p with
  | h :: t, S p' => nth p' t h :: vset t p' h
  | _, _ => l
  end.

Fixpoint row_sub (a : list T) (f : T) (p : list T) : list T :=
  match a, p with
  | ai :: a', pi :: p' => (ai - f * pi)%T :: row_sub a' f p'
  | _, _ => []
  end.

(** The multiplier of a row: its leading entry scaled by the reciprocal
    of the pivot, as [xGETF2] scales the column below the pivot; a pivot
    smaller than the safe minimum divides instead. *)
Definition scale_by_pivot (piv a : T) : T :=
  if abs_ltb piv Tsfmin then (a / piv)%T else (Tone / piv * a)%T.

(** A row below the pivot row loses its leading entry. *)
Definition eliminate (prow : Row) (piv : T) (r : Row) : Row :=
  let f := scale_by_pivot piv (hd Tzero (fst r)) in
  (row_sub (tl (fst r)) f (tl (fst prow)), (snd r - f * snd prow)%T).

(** The numerator of one unknown in the back substitution of [xTRSM]: the
    unknowns already found are taken off the right-hand side one after
    the other, the last one first. *)
Fixpoint back_sub (b : T) (u xs : list T) : T :=
  match u, xs with
  | ui :: u', xi :: xs' => (back_sub b u' xs' - xi * ui)%T
  | _, _ => b
  end.

Inductive SolveResult : Type :=
| Singular (info : Z)
| Solved (x : list T).

(** Elimination with partial pivoting on the [n] columns left, followed
    by back substitution, the operations in the order of the reference
    routines.  [col] counts the columns already eliminated; the first
    pivot that is exactly zero stops the solve, and its one-based column
    is the status. *)
Fixpoint lu_solve (n : nat) (col : Z) (rows : list Row) : SolveResult :=
  match n with
  | O => Solved []
  | S n' =>
      let p := iamax (map (fun r => hd Tzero (fst r)) rows) in
      let rows' := swap_first rows p in
      let prow := hd ([], Tzero) rows' in
      let piv := hd Tzero (fst prow) in
      if is_zero piv then Singular (col + 1)
      else
        match lu_solve n' (col + 1) (map (eliminate prow piv) (tl rows')) with
        | Singular i => Singular i
        | Solved xs =>
            Solved ((back_sub (snd prow) (tl (fst prow)) xs / piv)%T :: xs)
        end
  end.

(** Rows of a square system: as many rows as unknowns, each as wide. *)
Definition square (n : nat) (rows : list Row) : Prop :=
  length rows = n /\ forall r, In r rows -> length (fst r) = n.

(** Row [i] of the column-major [A], with entry [i] of [b]. *)
Definition row_of (N : nat) (A b : list T) (i : nat) : Row :=
  (map (fun j => entry N A i j) (seq 0 N), nth i b Tzero).

Definition rows_of (N : nat) (A b : list T) : list Row :=
  map (row_of N A b) (seq 0 N).

(** Modelled from the spec: the dense solver ([dgesv_] and [zgesv_] of
    LAPACK, called with one right-hand side and leading dimensions [N]) is
    an external library.  Section 4.2, steps 6 and 7, and section 6: solve
    [A x = b] with partial pivoting, overwrite [b] with [x], and report a
    status that is zero on success and non-zero when the matrix is
    singular; as in LAPACK the status is then the column of the zero pivot
    and [b] is left as it was.  The result is the new [b] and [INFO]. *)
Definition gesv (N : nat) (A b : list T) : list T * Z :=
  match lu_solve N 0 (rows_of N A b) with
  | Solved x => (x ++ skipn N b, 0%Z)
  | Singular i => (b, i)
  end.

(** Row [i] of [A] times [x]. *)
Definition row_dot (N : nat) (A : list T) (i : nat) (x : list T) : T :=
  dot (map (fun j => entry N A i j) (seq 0 N)) x.

(** [A] is singular: some non-zero vector is sent to zero. *)
Definition singular (N : nat) (A : list T) : Prop :=
  exists y, length y = N /\ y <> repeat Tzero N /\
            forall i, i < N -> row_dot N A i y = Tzero.

(** ** [DIIS<T>::extrapolate] *)

Definition set_coeffs (d : DIIS) (c : list T) : DIIS :=
  mkDIIS (nExtrap d) (nMat d) (OSize d) c (errorMetric d).

(** The call takes the caller's memory and the engine and gives the
    returned flag with the memory and the engine after the call. *)
Definition extrapolate (m : Memory) (d : DIIS) : bool * (Memory * DIIS) :=
  let N := nExtrap d + 1 in
  let B := assemble_B m d in
  let rhs := init_rhs d in
  let '(x, INFO) := gesv N B rhs in
  let InvFail := negb (INFO =? 0)%Z in
  (negb InvFail, (m, set_coeffs d x)).

End Engine.

Arguments DIIS T : clear implicits.
Arguments Memory T : clear implicits.
Arguments Row T : clear implicits.
Arguments SolveResult T : clear implicits.
Arguments scale_by_pivot : simpl never.

(** ** Instances of the scalar interface *)

(** The exact reals of the model: canonical rationals. *)
#[export] Instance Qc_Scalar : Scalar Qc := {|
  Tzero := Q2Qc 0;
  Tone := Q2Qc 1;
  Tadd := Qcplus;
  Tmul := Qcmult;
  Tsub := Qcminus;
  Topp := Qcopp;
  Tdiv := Qcdiv;
  Tinv := Qcinv;
  Tconj := fun x => x;
  is_zero := fun x => (Qnum (this x) =? 0)%Z;
  abs_ltb := fun x y =>
    match Qcompare (Qabs (this x)) (Qabs (this y)) with
    | Lt => true
    | _ => false
    end;
  Tsfmin := Q2Qc 0
|}.

(** [double]: IEEE binary64. *)
#[export] Instance double_Scalar : Scalar float := {|
  Tzero := 0%float;
  Tone := 1%float;
  Tadd := PrimFloat.add;
  Tmul := PrimFloat.mul;
  Tsub := PrimFloat.sub;
  Topp := PrimFloat.opp;
  Tdiv := PrimFloat.div;
  Tinv := fun x => PrimFloat.div 1%float x;
  Tconj := fun x => x;
  is_zero := fun x => PrimFloat.eqb x 0%float;
  abs_ltb := fun x y => PrimFloat.ltb (PrimFloat.abs x) (PrimFloat.abs y);
  Tsfmin := 0x1p-1022%float
|}.

(** The exact complex numbers of the model: Gaussian rationals. *)
Record QcC : Type := mkC { re : Qc; im : Qc }.

Definition C_add (x y : QcC) : QcC :=
  mkC (Qcplus (re x) (re y)) (Qcplus (im x) (im y)).
Definition C_opp (x : QcC) : QcC := mkC (Qcopp (re x)) (Qcopp (im x)).
Definition C_sub (x y : QcC) : QcC :=
  mkC (Qcminus (re x) (re y)) (Qcminus (im x) (im y)).
Definition C_mul (x y : QcC) : QcC :=
  mkC (Qcminus (Qcmult (re x) (re y)) (Qcmult (im x) (im y)))
      (Qcplus (Qcmult (re x) (im y)) (Qcmult (im x) (re y))).
Definition C_norm2 (x : QcC) : Qc :=
  Qcplus (Qcmult (re x) (re x)) (Qcmult (im x) (im x)).
Definition C_inv (x : QcC) : QcC :=
  mkC (Qcdiv (re x) (C_norm2 x)) (Qcdiv (Qcopp (im x)) (C_norm2 x)).
Definition C_div (x y : QcC) : QcC := C_mul x (C_inv y).
Definition C_conj (x : QcC) : QcC := mkC (re x) (Qcopp (im x)).
(** [|re| + |im|], the magnitude the complex pivot search compares. *)
Definition C_abs1 (x : QcC) : Q :=
  Qplus (Qabs (this (re x))) (Qabs (this (im x))).

#[export] Instance QcC_Scalar : Scalar QcC := {|
  Tzero := mkC (Q2Qc 0) (Q2Qc 0);
  Tone := mkC (Q2Qc 1) (Q2Qc 0);
  Tadd := C_add;
  Tmul := C_mul;
  Tsub := C_sub;
  Topp := C_opp;
  Tdiv := C_div;
  Tinv := C_inv;
  Tconj := C_conj;
  is_zero := fun x =>
    (Qnum (this (re x)) =? 0)%Z && (Qnum (this (im x)) =? 0)%Z;
  abs_ltb := fun x y =>
    match Qcompare (C_abs1 x) (C_abs1 y) with
    | Lt => true
    | _ => false
    end;
  Tsfmin := mkC (Q2Qc 0) (Q2Qc 0)
|}.

(** ** The scenarios of the specification *)

Definition qz (z : Z) : Qc := Q2Qc (inject_Z z).

Definition half : Qc := Q2Qc (1 # 2).

(** [nExtrap = 2], [nMat = 1], [OSize = 2]: two slots, the buffers [0]
    and [1] of the memory. *)
Definition two_slots {T : Type} `{Scalar T} : DIIS T :=
  DIIS_new 2 1 2 [[0]; [1]].

(** [e0 = [1,0]], [e1 = [0,1]]. *)
Definition orthonormal : Memory Qc := [[qz 1; qz 0]; [qz 0; qz 1]].

Definition orthonormal_double : Memory float :=
  [[1%float; 0%float]; [0%float; 1%float]].

(** [e0 = [1,0]], [e1 = [2,0]]. *)
Definition parallel : Memory Qc := [[qz 1; qz 0]; [qz 2; qz 0]].

Definition parallel_double : Memory float :=
  [[1%float; 0%float]; [2%float; 0%float]].

(** Two slots on one and the same buffer. *)
Definition same_slot : DIIS Qc := DIIS_new 2 1 2 [[0]; [0]].

(** A complex history of three slots: slots [0] and [2] are the buffer
    [[1, 0]], slot [1] is [[i, 1]]. *)
Definition ci (a b : Z) : QcC := mkC (qz a) (qz b).

Definition complex_memory : Memory QcC :=
  [[ci 1 0; ci 0 0]; [ci 0 1; ci 1 0]].

Definition complex_history : DIIS QcC := DIIS_new 3 1 2 [[0]; [1]; [0]].

(** One slot, [nMat = 1], [OSize = 2], on buffer [0]. *)
Definition one_slot : DIIS Qc := DIIS_new 1 1 2 [[0]].

(** ** The SCF options: [CQSCFOptions] *)

(** The initial guesses the function names; [OtherGuess] stands for the
    enumerators it does not. *)
Inductive SCF_GUESS : Type :=
| CORE
| SAD
| RANDOM
| OtherGuess (tag : nat).

(** The only DIIS algorithm the function names is [NONE]; [Algorithm]
    stands for the others. *)
Inductive DIIS_ALG : Type :=
| NONE
| Algorithm (tag : nat).

Definition DIIS_ALG_eqb (a b : DIIS_ALG) : bool :=
  match a, b with
  | NONE, NONE => true
  | Algorithm s, Algorithm t => Nat.eqb s t
  | _, _ => false
  end.

Inductive EMFieldTyp : Type :=
| Electric
| Magnetic.

(** [cart_t]: three doubles. *)
Definition cart_t : Type := (float * float * float)%type.

(** The fields of [scfControls] that the function reads or writes. *)
Record SCFControls : Type := mkSCFControls {
  eneConvTol : float;
  denConvTol : float;
  maxSCFIter : N;
  doIncFock : bool;
  nIncFock : N;
  guess : SCF_GUESS;
  doExtrap : bool;
  diisAlg : DIIS_ALG;
  nKeep : N;
  doDamp : bool;
  dampStartParam : float;
  dampError : float
}.

Definition set_eneConvTol (v : float) (c : SCFControls) : SCFControls :=
  mkSCFControls
    v (denConvTol c) (maxSCFIter c) (doIncFock c) (nIncFock c) (guess c)
    (doExtrap c) (diisAlg c) (nKeep c) (doDamp c) (dampStartParam c)
    (dampError c).

Definition set_denConvTol (v : float) (c : SCFControls) : SCFControls :=
  mkSCFControls
    (eneConvTol c) v (maxSCFIter c) (doIncFock c) (nIncFock c) (guess c)
    (doExtrap c) (diisAlg c) (nKeep c) (doDamp c) (dampStartParam c)
    (dampError c).

Definition set_maxSCFIter (v : N) (c : SCFControls) : SCFControls :=
  mkSCFControls
    (eneConvTol c) (denConvTol c) v (doIncFock c) (nIncFock c) (guess c)
    (doExtrap c) (diisAlg c) (nKeep c) (doDamp c) (dampStartParam c)
    (dampError c).

Definition set_doIncFock (v : bool) (c : SCFControls) : SCFControls :=
  mkSCFControls
    (eneConvTol c) (denConvTol c) (maxSCFIter c) v (nIncFock c) (guess c)
    (doExtrap c) (diisAlg c) (nKeep c) (doDamp c) (dampStartParam c)
    (dampError c).

Definition set_nIncFock (v : N) (c : SCFControls) : SCFControls :=
  mkSCFControls
    (eneConvTol c) (denConvTol c) (maxSCFIter c) (doIncFock c) v (guess c)
    (doExtrap c) (diisAlg c) (nKeep c) (doDamp c) (dampStartParam c)
    (dampError c).

Definition set_guess (v : SCF_GUESS) (c : SCFControls) : SCFControls :=
  mkSCFControls
    (eneConvTol c) (denConvTol c) (maxSCFIter c) (doIncFock c) (nIncFock c)
    v (doExtrap c) (diisAlg c) (nKeep c) (doDamp c) (dampStartParam c)
    (dampError c).

Definition set_doExtrap (v : bool) (c : SCFControls) : SCFControls :=
  mkSCFControls
    (eneConvTol c) (denConvTol c) (maxSCFIter c) (doIncFock c) (nIncFock c)
    (guess c) v (diisAlg c) (nKeep c) (doDamp c) (dampStartParam c)
    (dampError c).

Definition set_diisAlg (v : DIIS_ALG) (c : SCFControls) : SCFControls :=
  mkSCFControls
    (eneConvTol c) (denConvTol c) (maxSCFIter c) (doIncFock c) (nIncFock c)
    (guess c) (doExtrap c) v (nKeep c) (doDamp c) (dampStartParam c)
    (dampError c).

Definition set_nKeep (v : N) (c : SCFControls) : SCFControls :=
  mkSCFControls
    (eneConvTol c) (denConvTol c) (maxSCFIter c) (doIncFock c) (nIncFock c)
    (guess c) (doExtrap c) (diisAlg c) v (doDamp c) (dampStartParam c)
    (dampError c).

Definition set_doDamp (v : bool) (c : SCFControls) : SCFControls :=
  mkSCFControls
    (eneConvTol c) (denConvTol c) (maxSCFIter c) (doIncFock c) (nIncFock c)
    (guess c) (doExtrap c) (diisAlg c) (nKeep c) v (dampStartParam c)
    (dampError c).

Definition set_dampStartParam (v : float) (c : SCFControls) : SCFControls :=
  mkSCFControls
    (eneConvTol c) (denConvTol c) (maxSCFIter c) (doIncFock c) (nIncFock c)
    (guess c) (doExtrap c) (diisAlg c) (nKeep c) (doDamp c) v (dampError c).

Definition set_dampError (v : float) (c : SCFControls) : SCFControls :=
  mkSCFControls
    (eneConvTol c) (denConvTol c) (maxSCFIter c) (doIncFock c) (nIncFock c)
    (guess c) (doExtrap c) (diisAlg c) (nKeep c) (doDamp c)
    (dampStartParam c) v.

Record SingleSlaterBase : Type := mkSingleSlaterBase {
  scfControls : SCFControls
}.

(** [EMPerturbation]: the fields added so far. *)
Definition EMPerturbation : Type := list (EMFieldTyp * cart_t).

Definition addField (t : EMFieldTyp) (f : cart_t) (pert : EMPerturbation)
    : EMPerturbation :=
  pert ++ [(t, f)].

(** [CQInputFile], as the function uses it: whether a section is there,
    and [getData<T>] for the four types asked for; [None] is a call that
    throws (no such key, or a value that does not convert). *)
Record CQInputFile : Type := mkCQInputFile {
  containsSection : string -> bool;
  getData_double : string -> option float;
  getData_size_t : string -> option N;
  getData_bool : string -> option bool;
  getData_string : string -> option string
}.

(** How a call ends: it returns, [CErr] ends the program, or an
    exception leaves the function. *)
Inductive Outcome (A : Type) : Type :=
| Returns (a : A)
| Terminates (msg : string)
| Throws.

Arguments Returns {A} a.
Arguments Terminates {A} msg.
Arguments Throws {A}.

(** The macro [OPTOPT] is defined in a header that is not among the files
    embedded here; it is taken to run its statement and to swallow
    whatever the statement throws: a [getData] that throws assigns
    nothing. *)
Definition OPTOPT {A : Type} (r : option A)
    (assign : A -> SCFControls -> SCFControls) (c : SCFControls)
    : SCFControls :=
  match r with
  | Some v => assign v c
  | None => c
  end.

(** Lines 60 to 69. *)
Definition assign_guess (guessString : string) (c : SCFControls)
    : SCFControls :=
  if String.eqb guessString "CORE" then set_guess CORE c
  else if String.eqb guessString "SAD" then set_guess SAD c
  else if String.eqb guessString "RANDOM" then set_guess RANDOM c
  else c.

(** Lines 81 to 85. *)
Definition assign_DIIS (doDIIS : bool) (c : SCFControls) : SCFControls :=
  if negb doDIIS then set_diisAlg NONE c else c.

(** Lines 37 to 105: the optional keywords, in the order of the source. *)
Definition parse_keywords (input : CQInputFile) (c : SCFControls)
    : SCFControls :=
  let c := OPTOPT (getData_double input "SCF.ENETOL") set_eneConvTol c in
  let c := OPTOPT (getData_double input "SCF.DENTOL") set_denConvTol c in
  let c := OPTOPT (getData_size_t input "SCF.MAXITER") set_maxSCFIter c in
  let c := OPTOPT (getData_bool input "SCF.INCFOCK") set_doIncFock c in
  let c := OPTOPT (getData_size_t input "SCF.NINCFOCK") set_nIncFock c in
  let c := OPTOPT (getData_string input "SCF.GUESS") assign_guess c in
  let c := OPTOPT (getData_bool input "SCF.EXTRAP") set_doExtrap c in
  let c := OPTOPT (getData_bool input "SCF.DIIS") assign_DIIS c in
  let c := OPTOPT (getData_size_t input "SCF.NKEEP") set_nKeep c in
  let c := OPTOPT (getData_bool input "SCF.DAMP") set_doDamp c in
  let c :=
    OPTOPT (getData_double input "SCF.DAMPPARAM") set_dampStartParam c in
  OPTOPT (getData_double input "SCF.DAMPERROR") set_dampError c.

(** Lines 148 to 160: the equivalences between the options. *)
Definition equivalences (c : SCFControls) : SCFControls :=
  let c :=
    if PrimFloat.eqb (dampStartParam c) 0%float
    then set_doDamp false c else c in
  if negb (doDamp c) && DIIS_ALG_eqb (diisAlg c) NONE
  then set_doExtrap false c else c.

Section Options.

(** [split] and [std::stod] are defined elsewhere: the tokens of a
    string, and the double a token reads as ([None] when [stod]
    throws). *)
Variable split : string -> list string.
Variable stod : string -> option float.

(** Lines 109 to 141: the lambda [handleField]. *)
Definition handleField (input : CQInputFile) (pert : EMPerturbation)
    : Outcome EMPerturbation :=
  let fieldStr :=
    match getData_string input "SCF.FIELD" with
    | Some s => s
    | None => EmptyString
    end in
  if String.eqb fieldStr EmptyString then Returns pert
  else
    let tokens := split fieldStr in
    if length tokens <? 4 then
      Terminates (fieldStr ++ "is not a valid SCF Field specification")
    else
      let fieldTypeStr := nth 0 tokens EmptyString in
      if String.eqb fieldTypeStr "ELECTRIC" then
        if length tokens =? 4 then
          match stod (nth 1 tokens EmptyString) with
          | None => Throws
          | Some x =>
              match stod (nth 2 tokens EmptyString) with
              | None => Throws
              | Some y =>
                  match stod (nth 3 tokens EmptyString) with
                  | None => Throws
                  | Some z => Returns (addField Electric (x, y, z) pert)
                  end
              end
          end
        else Terminates "Non Dipole fields NYI"
      else if String.eqb fieldTypeStr "MAGNETIC" then
        Terminates "Magnetic Fields NYI"
      else Terminates (fieldTypeStr ++ "not a valid Field type").

(** [CQSCFOptions(out, input, ss, pert)]; nothing is written to [out]. *)
Definition CQSCFOptions (input : CQInputFile) (ss : SingleSlaterBase)
    (pert : EMPerturbation)
    : Outcome (SingleSlaterBase * EMPerturbation) :=
  if negb (containsSection input "SCF") then Returns (ss, pert)
  else
    let c := parse_keywords input (scfControls ss) in
    match handleField input pert with
    | Returns pert' =>
        Returns (mkSingleSlaterBase (equivalences c), pert')
    | Terminates msg => Terminates msg
    | Throws => Throws
    end.

End Options.

(** An input file without any section, and one with an empty [SCF]
    section. *)
Definition empty_input : CQInputFile :=
  mkCQInputFile (fun _ => false) (fun _ => None) (fun _ => None)
    (fun _ => None) (fun _ => None).

Definition bare_SCF_input : CQInputFile :=
  mkCQInputFile (fun s => String.eqb s "SCF") (fun _ => None)
    (fun _ => None) (fun _ => None) (fun _ => None).

(** An [SCF] section that asks for damping and extrapolation, turns
    DIIS off and sets the damping parameter to zero. *)
Definition contrary_input : CQInputFile :=
  mkCQInputFile (fun s => String.eqb s "SCF")
    (fun k => if String.eqb k "SCF.DAMPPARAM" then Some 0%float else None)
    (fun _ => None)
    (fun k =>
       if String.eqb k "SCF.DAMP" then Some true
       else if String.eqb k "SCF.EXTRAP" then Some true
       else if String.eqb k "SCF.DIIS" then Some false
       else None)
    (fun _ => None).

(** Controls as a caller may hand them over: damping and extrapolation
    on, a DIIS algorithm chosen, a damping parameter of one half. *)
Definition usual_controls : SingleSlaterBase :=
  mkSingleSlaterBase
    (mkSCFControls 1%float 1%float 128%N false 20%N SAD true
       (Algorithm 0) 10%N true 0.5%float 1%float).

(** Controls with damping on and a damping parameter of zero. *)
Definition zero_damping : SingleSlaterBase :=
  mkSingleSlaterBase
    (mkSCFControls 1%float 1%float 128%N false 20%N SAD true
       (Algorithm 0) 10%N true 0%float 1%float).

(** ** Repeated calls *)

(** The caller's memory and the engine after [k] calls of [extrapolate]
    in a row. *)
Fixpoint calls {T : Type} `{Scalar T} (k : nat)
    (s : Memory T * DIIS T) : Memory T * DIIS T :=
  match k with
  | O => s
  | S k' => snd (extrapolate (fst (calls k' s)) (snd (calls k' s)))
  end.

(** ** Rescaled solutions *)

(** A solution of the bordered system with its last entry, the
    multiplier, scaled by [t]: the weights stay. *)
Definition rescale {T : Type} `{Scalar T} (n : nat) (t : T) (x : list T)
    : list T :=
  firstn n x ++ [(t * nth n x Tzero)%T].

(** ** Histories and inputs for the further properties *)

(** No slot at all, and two slots with no tracked matrix. *)
Definition no_slots : DIIS Qc := DIIS_new 0 1 2 [].

Definition no_matrices : DIIS Qc := DIIS_new 2 0 2 [[]; []].

(** The orthonormal buffers, doubled. *)
Definition doubled : Memory Qc := [[qz 2; qz 0]; [qz 0; qz 2]].

(** The value a keyword leaves in its field: the one read, or the old one
    when [getData] throws. *)
Definition from_input {A : Type} (r : option A) (old : A) : A :=
  match r with
  | Some v => v
  | None => old
  end.

(** An [SCF] section with an electric field of three components. *)
Definition field_input : CQInputFile :=
  mkCQInputFile (fun s => String.eqb s "SCF") (fun _ => None)
    (fun _ => None) (fun _ => None)
    (fun k => if String.eqb k "SCF.FIELD" then Some "ELECTRIC 0 0 1"%string
              else None).

(** A tokenizer and a number reader good enough for [field_input]. *)
Definition four_tokens (s : string) : list string :=
  ["ELECTRIC"%string; "0"%string; "0"%string; "1"%string].

Definition read_digit (s : string) : option float :=
  if String.eqb s "0" then Some 0%float
  else if String.eqb s "1" then Some 1%float
  else None.

(** The controls [CQSCFOptions] leaves for [contrary_input] and for
    [field_input], from [usual_controls]. *)
Definition contrary_result : SingleSlaterBase :=
  mkSingleSlaterBase
    (equivalences (parse_keywords contrary_input
                     (scfControls usual_controls))).

Definition field_result : SingleSlaterBase :=
  mkSingleSlaterBase
    (equivalences (parse_keywords field_input (scfControls usual_controls))).

(** A tokenizer that reads a magnetic field. *)
Definition magnetic_tokens (s : string) : list string :=
  ["MAGNETIC"%string; "0"%string; "0"%string; "1"%string].

(** ** Histories in binary64 *)

(** Two slots of one element each: [nExtrap = 2], [nMat = 1],
    [OSize = 1]. *)
Definition two_scalars : DIIS float := DIIS_new 2 1 1 [[0]; [1]].

(** [e0 = [3]] and [e1 = [3 + 2^-47]]: two metrics that differ in their
    last bits. *)
Definition nearly_equal : Memory float :=
  [[3%float]; [(3 + 0x1p-47)%float]].

(** Two buffers with the same contents, [e0 = e1 = [7,0]]. *)
Definition identical_double : Memory float :=
  [[7%float; 0%float]; [7%float; 0%float]].

(** One slot, [nMat = 1], [OSize = 2], on buffer [0]. *)
Definition one_slot_double : DIIS float := DIIS_new 1 1 2 [[0]].

(** [e0 = [2^600, 0]]: its squared norm is beyond the largest double. *)
Definition huge_metric : Memory float := [[0x1p+600%float; 0%float]].

(** [e0 = [7,0]]. *)
Definition seven : Memory float := [[7%float; 0%float]].

(** A sum within a small relative tolerance of its target; the bound,
    [2^-26], is a little more than the [1e-8] the specification names for
    double precision. *)
Definition tolerance : float := 0x1p-26%float.

Definition within_tolerance (x target : float) : bool :=
  PrimFloat.leb (PrimFloat.abs (x - target))
                (tolerance * PrimFloat.abs target).

(** ** The call on raw memory *)

(** The address space the [T*] of the call point into: one cell of type
    [T] at each address. *)
Definition addr := nat.

Definition Heap (T : Type) : Type := addr -> T.

(** The engine as it lies in memory.  [coeffs] is a vector: what the
    engine holds is the address of its storage, [&coeffs[0]], a block of
    [nExtrap + 1] cells; the history holds the pointers the caller
    gave. *)
Record DIIS_at : Type := mkDIIS_at {
  nExtrap_at : nat;
  nMat_at : nat;
  OSize_at : nat;
  coeffs_at : addr;
  errorMetric_at : list (list addr)
}.

(** [errorMetric[k][i]], a pointer. *)
Definition slot_at (e : DIIS_at) (k i : nat) : addr :=
  nth i (nth k (errorMetric_at e) []) 0.

(** The block of [len] cells at [base]. *)
Definition in_block (base len : nat) (a : addr) : bool :=
  (base <=? a) && (a <? base + len).

(** The cells a call may write when the allocator places the local [B]
    at [B]: the block of [B] and the storage of [coeffs]. *)
Definition written (e : DIIS_at) (B : addr) (a : addr) : bool :=
  let N := nExtrap_at e + 1 in
  in_block B (N * N) a || in_block (coeffs_at e) N a.

(** Two blocks with no cell in common. *)
Definition apart (a n b m : nat) : bool := (a + n <=? b) || (b + m <=? a).

(** The layout of a well-formed call: the block of [B] is fresh, that
    is, apart from the storage of [coeffs] and from every buffer of the
    history. *)
Definition fresh_block (e : DIIS_at) (B : addr) : bool :=
  let N := nExtrap_at e + 1 in
  apart B (N * N) (coeffs_at e) N &&
  forallb (fun k =>
    forallb (fun i => apart (slot_at e k i) (OSize_at e) B (N * N))
            (seq 0 (nMat_at e)))
    (seq 0 (nExtrap_at e)).

Section RawMemory.

Context {T : Type} `{Scalar T}.

(** [*a = v]. *)
Definition poke (h : Heap T) (a : addr) (v : T) : Heap T :=
  fun x => if x =? a then v else h x.

(** The cells [a], [a + 1], ... take the elements of [l]. *)
Fixpoint poke_range (h : Heap T) (a : addr) (l : list T) : Heap T :=
  match l with
  | [] => h
  | v :: l' => poke_range (poke h a v) (S a) l'
  end.

(** The [n] cells from [a] on. *)
Definition peek_range (h : Heap T) (a : addr) (n : nat) : list T :=
  map (fun i => h (a + i)) (seq 0 n).

(** Modelled from the spec: [InnerProd<T>] on the pointers it is given.
    Section 4.1: it reads [n] elements through each pointer, with its
    stride, and has no side effect. *)
Fixpoint InnerProd_at_from (h : Heap T) (n : nat) (x : addr) (ix incx : nat)
    (y : addr) (iy incy : nat) (acc : T) : T :=
  match n with
  | O => acc
  | S n' =>
      InnerProd_at_from h n' x (ix + incx) incx y (iy + incy) incy
        (acc + Tconj (h (x + ix)%nat) * h (y + iy)%nat)%T
  end.

Definition InnerProd_at (h : Heap T) (n : nat) (x : addr) (incx : nat)
    (y : addr) (incy : nat) : T :=
  InnerProd_at_from h n x 0 incx y 0 incy Tzero.

(** Modelled from the spec: the dense solver on the pointers it is given.
    Section 4.2, step 6: the system is solved in place, the [N] cells of
    the right-hand side taking the solution.  The factors LAPACK leaves
    in the matrix are not computed: the matrix is the local [B], whose
    cells are dead when the call returns.  The pivot indices go to a
    vector of [int], which is not part of this address space. *)
Definition gesv_at (h : Heap T) (N : nat) (A b : addr) : Heap T * Z :=
  let '(x, INFO) := gesv N (peek_range h A (N * N)) (peek_range h b N) in
  (poke_range h b x, INFO).

(** Lines 103 to 109, on the block at [B]. *)
Definition accumulate_at (e : DIIS_at) (N : nat) (B : addr) (h : Heap T)
    : Heap T :=
  for_loop (nMat_at e) (fun i h =>
    for_loop (nExtrap_at e) (fun j h =>
      for_loop (S j) (fun k h =>
        poke h (B + (k + j * N))
          (h (B + (k + j * N))%nat
           + InnerProd_at h (OSize_at e) (slot_at e k i) 1 (slot_at e j i) 1)%T)
        h) h) h.

(** Lines 110 to 114. *)
Definition mirror_at (n N : nat) (B : addr) (h : Heap T) : Heap T :=
  for_loop n (fun j h =>
    for_loop j (fun k h =>
      poke h (B + (j + k * N)) (h (B + (k + j * N)))) h) h.

(** Lines 115 to 118. *)
Definition border_at (n N : nat) (B : addr) (h : Heap T) : Heap T :=
  for_loop n (fun l h =>
    poke (poke h (B + (n + l * N)) (- Tone)%T) (B + (l + n * N)) (- Tone)%T)
    h.

(** Lines 100 to 119: the local [B], value-initialised in the block the
    allocator gives it at [B], then filled. *)
Definition assemble_at (e : DIIS_at) (B : addr) (h : Heap T) : Heap T :=
  let N := nExtrap_at e + 1 in
  let h := poke_range h B (repeat Tzero (N * N)) in
  let h := accumulate_at e N B h in
  let h := mirror_at (nExtrap_at e) N B h in
  let h := border_at (nExtrap_at e) N B h in
  poke h (B + (nExtrap_at e + nExtrap_at e * N)) Tzero.

(** Lines 123 and 124, through [&coeffs[0]]. *)
Definition init_rhs_at (e : DIIS_at) (h : Heap T) : Heap T :=
  let N := nExtrap_at e + 1 in
  poke (poke_range h (coeffs_at e) (repeat Tzero N))
       (coeffs_at e + nExtrap_at e) (- Tone)%T.

(** [DIIS<T>::extrapolate] on raw memory.  [B] is the address the
    allocator gives to the local vector [B]; the call returns the flag
    with the memory and the engine it leaves. *)
Definition extrapolate_at (h : Heap T) (e : DIIS_at) (B : addr)
    : bool * (Heap T * DIIS_at) :=
  let N := nExtrap_at e + 1 in
  let h := assemble_at e B h in
  let h := init_rhs_at e h in
  let '(h, INFO) := gesv_at h N B (coeffs_at e) in
  let InvFail := negb (INFO =? 0)%Z in
  (negb InvFail, (h, e)).

(** [h'] differs from [h] at most on the cells of [W]. *)
Definition same_outside (W : addr -> bool) (h h' : Heap T) : Prop :=
  forall a, W a = false -> h' a = h a.

(** In [h'] the block of [n] cells at [a] holds the list [L], and outside
    that block [h'] is [h]. *)
Definition block_holds (h : Heap T) (a n : nat) (h' : Heap T) (L : list T)
    : Prop :=
  peek_range h' a n = L /\ same_outside (in_block a n) h h'.

End RawMemory.

(** The orthonormal scenario in memory: [e0] at addresses [0] and [1],
    [e1] at [2] and [3], the storage of [coeffs] at [10], and [B] placed
    at [20]. *)
Definition orthonormal_heap : Heap Qc :=
  fun a => nth a [qz 1; qz 0; qz 0; qz 1] (qz 0).

Definition orthonormal_at : DIIS_at := mkDIIS_at 2 1 2 10 [[0]; [2]].

(** A history whose first pointer is the storage of [coeffs] itself. *)
Definition aliased_at : DIIS_at := mkDIIS_at 2 1 2 0 [[0]; [2]].

(** * Properties *)

(** ** Vectors and loops *)

Lemma length_vset {A : Type} (l : list A) (i : nat) (v : A) :
  length (vset l i v) = length l.
Proof.
  revert i; induction l as [|h t IH]; intros [|i]; simpl; auto.
Qed.

Lemma nth_vset_eq {A : Type} (l : list A) (i : nat) (v d : A) :
  i < length l -> nth i (vset l i v) d = v.
Proof.
  revert i; induction l as [|h t IH]; intros [|i] Hi; simpl in *;
    try lia; auto.
  apply IH; lia.
Qed.

Lemma nth_vset_ne {A : Type} (l : list A) (i j : nat) (v d : A) :
  i <> j -> nth j (vset l i v) d = nth j l d.
Proof.
  revert i j; induction l as [|h t IH]; intros [|i] [|j] Hij; simpl;
    try congruence; auto.
Qed.

Lemma length_fill_n {A : Type} (l : list A) (n : nat) (v : A) :
  length (fill_n l n v) = length l.
Proof.
  revert l; induction n as [|n IH]; intros [|h t]; simpl; auto.
Qed.

Lemma fill_n_all {A : Type} (l : list A) (v : A) :
  fill_n l (length l) v = repeat v (length l).
Proof.
  induction l as [|h t IH]; simpl; congruence.
Qed.

(** Distinct cells of a column-major matrix have distinct offsets. *)
Lemma offset_inj (N r c r' c' : nat) :
  r < N -> r' < N -> r + c * N = r' + c' * N -> r = r' /\ c = c'.
Proof.
  intros Hr Hr' E.
  assert (c = c') by nia.
  subst; lia.
Qed.

Lemma offset_lt (N r c : nat) : r < N -> c < N -> r + c * N < N * N.
Proof. nia. Qed.

Lemma for_loop_fold {St : Type} (n : nat) (f : nat -> St -> St) (s : St) :
  for_loop n f s = fold_left (fun acc i => f i acc) (seq 0 n) s.
Proof.
  induction n as [|n IH]; [reflexivity|].
  rewrite seq_S, fold_left_app; simpl. now rewrite IH.
Qed.

(** ** Assembly: what each loop nest leaves in [B] *)

Section AssemblyFacts.

Context {T : Type} `{Scalar T}.

Variable N : nat.

(** Reading cell [(r, c)] after a write to cell [(r', c')]. *)
Lemma entry_vset_same (B : list T) (r c : nat) (v : T) :
  r < N -> c < N -> length B = N * N ->
  entry N (vset B (r + c * N) v) r c = v.
Proof.
  intros Hr Hc HB. unfold entry. apply nth_vset_eq.
  rewrite HB. now apply offset_lt.
Qed.

Lemma entry_vset_other (B : list T) (r c r' c' : nat) (v : T) :
  r < N -> r' < N -> r <> r' \/ c <> c' ->
  entry N (vset B (r' + c' * N) v) r c = entry N B r c.
Proof.
  intros Hr Hr' Hne. unfold entry. apply nth_vset_ne.
  intro E. apply offset_inj in E; lia.
Qed.

(** The innermost loop of lines 105 to 107, for one column [j]. *)
Lemma accumulate_column (g : nat -> T) (j m : nat) (B : list T) :
  m <= N -> j < N -> length B = N * N ->
  let B' := for_loop m (fun k B =>
              vset B (k + j * N) (nth (k + j * N) B Tzero + g k)%T) B in
  length B' = N * N /\
  (forall r, r < m -> entry N B' r j = (entry N B r j + g r)%T) /\
  (forall r c, r < N -> c <> j \/ m <= r -> entry N B' r c = entry N B r c).
Proof.
  intros Hm Hj HB. induction m as [|m IH]; simpl.
  - repeat split; auto. intros; lia.
  - destruct IH as (IH1 & IH2 & IH3); [lia|].
    set (B1 := for_loop m _ B) in *.
    repeat split.
    + now rewrite length_vset.
    + intros r Hr. destruct (Nat.eq_dec r m) as [->|Hne].
      * rewrite entry_vset_same by (auto; lia).
        change (nth (m + j * N) B1 Tzero) with (entry N B1 m j).
        rewrite IH3 by (auto; lia). reflexivity.
      * rewrite entry_vset_other by lia. apply IH2; lia.
    + intros r c Hr Hc.
      rewrite entry_vset_other by lia. apply IH3; lia.
Qed.

(** Lines 104 to 108 for one tracked matrix: the upper triangle of the
    first [J] columns gains [g c r], everything else stays. *)
Lemma accumulate_matrix (g : nat -> nat -> T) (J : nat) (B : list T) :
  J < N -> length B = N * N ->
  let B' := for_loop J (fun j B =>
              for_loop (S j) (fun k B =>
                vset B (k + j * N)
                  (nth (k + j * N) B Tzero + g j k)%T) B) B in
  length B' = N * N /\
  (forall r c, c < J -> r <= c ->
     entry N B' r c = (entry N B r c + g c r)%T) /\
  (forall r c, r < N -> J <= c \/ c < r ->
     entry N B' r c = entry N B r c).
Proof.
  intros HJ HB. induction J as [|J IH]; simpl.
  - repeat split; auto. intros; lia.
  - destruct IH as (IH1 & IH2 & IH3); [lia|].
    set (B1 := for_loop J _ B) in *.
    destruct (accumulate_column (g J) (j := J) (m := S J) B1)
      as (C1 & C2 & C3); try lia.
    simpl in C1, C2, C3.
    repeat split.
    + exact C1.
    + intros r c Hc Hr. destruct (Nat.eq_dec c J) as [->|Hne].
      * rewrite C2 by lia. rewrite IH3 by lia. reflexivity.
      * rewrite C3 by lia. apply IH2; lia.
    + intros r c Hr Hc. rewrite C3 by lia. apply IH3; lia.
Qed.

(** The inner loop of lines 111 to 113, for one row [j]. *)
Lemma mirror_row (j m : nat) (B : list T) :
  m <= j -> j < N -> length B = N * N ->
  let B' := for_loop m (fun k B =>
              vset B (j + k * N) (nth (k + j * N) B Tzero)) B in
  length B' = N * N /\
  (forall c, c < m -> entry N B' j c = entry N B c j) /\
  (forall r c, r < N -> r <> j \/ m <= c -> entry N B' r c = entry N B r c).
Proof.
  intros Hm Hj HB. induction m as [|m IH]; simpl.
  - repeat split; auto. intros; lia.
  - destruct IH as (IH1 & IH2 & IH3); [lia|].
    set (B1 := for_loop m _ B) in *.
    repeat split.
    + now rewrite length_vset.
    + intros c Hc. destruct (Nat.eq_dec c m) as [->|Hne].
      * rewrite entry_vset_same by (auto; lia).
        change (nth (m + j * N) B1 Tzero) with (entry N B1 m j).
        apply IH3; lia.
      * rewrite entry_vset_other by lia. apply IH2; lia.
    + intros r c Hr Hc.
      rewrite entry_vset_other by lia. apply IH3; lia.
Qed.

(** Lines 110 to 114: the strict lower triangle of the first [J] rows
    becomes a copy of the upper one, everything else stays. *)
Lemma mirror_spec (J : nat) (B : list T) :
  J < N -> length B = N * N ->
  length (mirror J N B) = N * N /\
  (forall r c, c < r -> r < J ->
     entry N (mirror J N B) r c = entry N B c r) /\
  (forall r c, r < N -> r <= c \/ J <= r ->
     entry N (mirror J N B) r c = entry N B r c).
Proof.
  intros HJ HB. unfold mirror. induction J as [|J IH]; simpl.
  - repeat split; auto. intros; lia.
  - destruct IH as (IH1 & IH2 & IH3); [lia|].
    set (B1 := for_loop J _ B) in *.
    destruct (mirror_row (j := J) (m := J) B1) as (C1 & C2 & C3); try lia.
    simpl in C1, C2, C3.
    repeat split.
    + exact C1.
    + intros r c Hc Hr. destruct (Nat.eq_dec r J) as [->|Hne].
      * rewrite C2 by lia. apply IH3; lia.
      * rewrite C3 by lia. apply IH2; lia.
    + intros r c Hr Hc. rewrite C3 by lia. apply IH3; lia.
Qed.

(** Lines 115 to 118, run for [l < L]: row and column [n] of the first
    [L] cells become [-1], everything else stays. *)
Lemma border_loop (n L : nat) (B : list T) :
  L <= n -> n < N -> length B = N * N ->
  let B' := for_loop L (fun l B =>
              vset (vset B (n + l * N) (- Tone)%T)
                   (l + n * N) (- Tone)%T) B in
  length B' = N * N /\
  (forall l, l < L ->
     entry N B' n l = (- Tone)%T /\ entry N B' l n = (- Tone)%T) /\
  (forall r c, r < N ->
     (r <> n /\ c <> n) \/ (r = n /\ L <= c) \/ (c = n /\ L <= r) ->
     entry N B' r c = entry N B r c).
Proof.
  intros HL Hn HB. induction L as [|L IH]; simpl.
  - repeat split; auto; intros; lia.
  - destruct IH as (IH1 & IH2 & IH3); [lia|].
    set (B1 := for_loop L _ B) in *.
    repeat split.
    + now rewrite !length_vset.
    + destruct (Nat.eq_dec l L) as [->|Hne].
      * rewrite entry_vset_other by lia.
        apply entry_vset_same; auto; lia.
      * rewrite !entry_vset_other by lia. apply IH2; lia.
    + destruct (Nat.eq_dec l L) as [->|Hne].
      * apply entry_vset_same; auto; try lia.
        now rewrite length_vset.
      * rewrite !entry_vset_other by lia. apply IH2; lia.
    + intros r c Hr Hc.
      rewrite !entry_vset_other by lia. apply IH3; lia.
Qed.

End AssemblyFacts.

Section AssemblyResult.

Context {T : Type} `{Scalar T}.

Lemma Tsum_for_loop (f : nat -> T) (n : nat) :
  Tsum (map f (seq 0 n)) = for_loop n (fun i acc => (acc + f i)%T) Tzero.
Proof.
  unfold Tsum. rewrite for_loop_fold.
  generalize (seq 0 n) (@Tzero T _).
  intros l; induction l as [|a l IH]; intros z; simpl; auto.
Qed.

(** Lines 103 to 109, all tracked matrices. *)
Lemma accumulate_spec (m : Memory T) (d : DIIS T) (B : list T) :
  let n := nExtrap d in
  let N := n + 1 in
  length B = N * N ->
  length (accumulate m d N B) = N * N /\
  (forall r c, c < n -> r <= c ->
     entry N (accumulate m d N B) r c =
     for_loop (nMat d) (fun i acc => (acc + pair_product m d i c r)%T)
       (entry N B r c)) /\
  (forall r c, r < N -> n <= c \/ c < r ->
     entry N (accumulate m d N B) r c = entry N B r c).
Proof.
  intros n N HB. unfold accumulate.
  induction (nMat d) as [|I IH]; simpl.
  - repeat split; auto.
  - destruct IH as (IH1 & IH2 & IH3).
    set (B1 := for_loop I _ B) in *.
    destruct (accumulate_matrix (N := N) (pair_product m d I) (J := n) B1)
      as (C1 & C2 & C3); try (subst N; lia); auto.
    simpl in C1, C2, C3. fold n.
    repeat split.
    + exact C1.
    + intros r c Hc Hr. rewrite C2 by lia. now rewrite IH2 by lia.
    + intros r c Hr Hc. rewrite C3 by lia. apply IH3; lia.
Qed.

(** Lines 96 to 119: every cell of the matrix handed to the solver. *)
Lemma assemble_B_spec (m : Memory T) (d : DIIS T) :
  let n := nExtrap d in
  let N := n + 1 in
  let B := assemble_B m d in
  length B = N * N /\
  (forall k j, k <= j -> j < n -> entry N B k j = gram_entry m d k j) /\
  (forall k j, k < j -> j < n -> entry N B j k = entry N B k j) /\
  (forall l, l < n ->
     entry N B n l = (- Tone)%T /\ entry N B l n = (- Tone)%T) /\
  entry N B n n = Tzero.
Proof.
  intros n N B.
  set (B0 := repeat (@Tzero T _) (N * N)).
  assert (H0 : length B0 = N * N) by apply repeat_length.
  assert (Z0 : forall r c, entry N B0 r c = Tzero).
  { intros r c. unfold entry, B0.
    destruct (Nat.lt_ge_cases (r + c * N) (N * N)) as [Hlt|Hge].
    - now rewrite nth_repeat_lt.
    - apply nth_overflow. now rewrite repeat_length. }
  destruct (accumulate_spec m d B0 H0) as (A1 & A2 & A3).
  fold n N in A1, A2, A3.
  set (B1 := accumulate m d N B0) in *.
  destruct (mirror_spec (N := N) (J := n) B1) as (M1 & M2 & M3);
    try (subst N; lia); auto.
  set (B2 := mirror n N B1) in *.
  destruct (border_loop (N := N) (n := n) (L := n) B2)
    as (R1 & R2 & R3); try (subst N; lia); auto.
  simpl in R1, R2, R3. fold (border n N B2) in R1, R2, R3.
  set (B3 := border n N B2) in *.
  assert (EB : B = vset B3 (n + n * N) Tzero) by reflexivity.
  assert (Hn : n < N) by (subst N; lia).
  assert (G : forall k j, k <= j -> j < n ->
              entry N B k j = gram_entry m d k j).
  { intros k j Hk Hj. rewrite EB.
    rewrite entry_vset_other by lia.
    rewrite R3 by lia. rewrite M3 by lia. rewrite A2 by lia.
    rewrite Z0. unfold gram_entry. rewrite Tsum_for_loop. reflexivity. }
  repeat split.
  - rewrite EB, length_vset. exact R1.
  - exact G.
  - intros k j Hk Hj. rewrite (G k j) by lia. rewrite EB.
    rewrite entry_vset_other by lia.
    rewrite R3 by lia. rewrite M2 by lia. rewrite A2 by lia.
    rewrite Z0. unfold gram_entry. rewrite Tsum_for_loop. reflexivity.
  - rewrite EB. rewrite entry_vset_other by lia. now apply R2.
  - rewrite EB. rewrite entry_vset_other by lia. now apply R2.
  - rewrite EB. apply entry_vset_same; auto.
Qed.

(** Lines 123 and 124 on a vector of the constructor's length. *)
Lemma init_rhs_spec (d : DIIS T) :
  length (coeffs d) = nExtrap d + 1 ->
  init_rhs d = repeat Tzero (nExtrap d) ++ [(- Tone)%T].
Proof.
  intros HL. unfold init_rhs. rewrite <- HL, fill_n_all, HL.
  replace (nExtrap d + 1) with (S (nExtrap d)) by lia.
  generalize (nExtrap d) as n. induction n as [|n IH]; simpl; auto.
  f_equal. exact IH.
Qed.

End AssemblyResult.

(** ** The dense solver over exact scalars *)

Lemma swap_first_perm {A : Type} (l : list A) (p : nat) :
  p < length l -> Permutation (swap_first l p) l.
Proof.
  destruct l as [|h t]; [reflexivity|].
  destruct p as [|p]; [reflexivity|]. simpl. intros Hp.
  assert (Hp' : p < length t) by lia. clear Hp.
  revert p Hp'. induction t as [|a t IH]; intros p Hp; simpl in *; [lia|].
  destruct p as [|p].
  - apply perm_swap.
  - apply Permutation_trans with (a :: nth p t h :: vset t p h).
    + apply perm_swap.
    + apply Permutation_trans with (a :: h :: t).
      * apply perm_skip. apply IH. lia.
      * apply perm_swap.
Qed.

Lemma swap_first_hd {A : Type} (l : list A) (p : nat) (d : A) :
  p < length l -> hd d (swap_first l p) = nth p l d.
Proof.
  destruct l as [|h t]; simpl; [lia|].
  destruct p as [|p]; simpl; auto.
  intros Hp. apply nth_indep. lia.
Qed.

Section SolverFacts.

Context {T : Type} `{ExactScalar T}.

Add Field Tfield : scalar_field.

Lemma is_zero_false (x : T) : is_zero x = false -> x <> Tzero.
Proof.
  intros Hz Hx. apply is_zero_spec in Hx. congruence.
Qed.

Lemma Tone_neq_zero : (@Tone T _) <> Tzero.
Proof. exact (F_1_neq_0 scalar_field). Qed.

(** The pivot search finds a non-zero entry whenever there is one. *)
Lemma iamax_from_spec (xs full : list T) (best : nat) (vbest : T) (i : nat) :
  best < i ->
  nth best full Tzero = vbest ->
  (forall k, k < length xs -> nth (i + k) full Tzero = nth k xs Tzero) ->
  let r := iamax_from best vbest i xs in
  r < i + length xs /\
  (nth r full Tzero = Tzero ->
   vbest = Tzero /\ forall k, k < length xs -> nth k xs Tzero = Tzero).
Proof.
  revert best vbest i. induction xs as [|x xs IH]; intros best vbest i Hb Hv Hx.
  - simpl. split; [lia|]. intros E. split; [congruence|]. simpl; intros; lia.
  - simpl. destruct (abs_ltb vbest x) eqn:Hlt.
    + destruct (IH i x (S i)) as (I1 & I2); try lia.
      * specialize (Hx 0). rewrite Nat.add_0_r in Hx. apply Hx. simpl; lia.
      * intros k Hk. replace (S i + k) with (i + S k) by lia.
        apply (Hx (S k)). simpl; lia.
      * split; [simpl; lia|]. intros E. destruct (I2 E) as (Ex & _).
        rewrite Ex, abs_ltb_zero_r in Hlt. discriminate.
    + destruct (IH best vbest (S i)) as (I1 & I2); try lia; auto.
      * intros k Hk. replace (S i + k) with (i + S k) by lia.
        apply (Hx (S k)). simpl; lia.
      * split; [simpl; lia|]. intros E. destruct (I2 E) as (Ev & Exs).
        split; auto. intros [|k] Hk; simpl in *.
        -- destruct (is_zero x) eqn:Hz; [now apply is_zero_spec|].
           apply is_zero_false in Hz.
           rewrite Ev, abs_ltb_zero_l in Hlt by auto. discriminate.
        -- apply Exs. lia.
Qed.

Lemma iamax_spec (xs : list T) :
  xs <> [] ->
  iamax xs < length xs /\
  (nth (iamax xs) xs Tzero = Tzero -> forall x, In x xs -> x = Tzero).
Proof.
  destruct xs as [|x xs]; [congruence|]. intros _. unfold iamax.
  destruct (iamax_from_spec xs (x :: xs) (best := 0) (vbest := x) (i := 1))
    as (I1 & I2); auto.
  split; [simpl; lia|].
  intros E y [<-|Hy].
  - now apply I2.
  - destruct (In_nth _ _ Tzero Hy) as (k & Hk & <-). now apply I2.
Qed.

Lemma dot_nil_r (a : list T) : dot a [] = Tzero.
Proof. destruct a; reflexivity. Qed.

Lemma dot_zeros (a : list T) (n : nat) : dot a (repeat Tzero n) = Tzero.
Proof.
  revert n; induction a as [|ai a IH]; intros [|n]; simpl; auto.
  rewrite IH. ring.
Qed.

Lemma length_row_sub (a p : list T) (f : T) :
  length a = length p -> length (row_sub a f p) = length a.
Proof.
  revert p; induction a as [|ai a IH]; intros [|pi p] E; simpl in *;
    try lia. f_equal. apply IH. lia.
Qed.

Lemma dot_row_sub (a p x : list T) (f : T) :
  length a = length p ->
  dot (row_sub a f p) x = (dot a x - f * dot p x)%T.
Proof.
  revert p x; induction a as [|ai a IH]; intros [|pi p] x E; simpl in *;
    try lia.
  - ring.
  - destruct x as [|xi x]; [ring|]. rewrite IH by lia. ring.
Qed.

(** One step of [lu_solve], spelled out. *)
Lemma lu_solve_S (n : nat) (col : Z) (rows : list (Row T)) :
  lu_solve (S n) col rows =
  let rows' :=
    swap_first rows (iamax (map (fun r => hd Tzero (fst r)) rows)) in
  let prow := hd ([], Tzero) rows' in
  let piv := hd Tzero (fst prow) in
  if is_zero piv then Singular (col + 1)
  else
    match lu_solve n (col + 1) (map (eliminate prow piv) (tl rows')) with
    | Singular i => Singular i
    | Solved xs =>
        Solved ((back_sub (snd prow) (tl (fst prow)) xs / piv)%T :: xs)
    end.
Proof. reflexivity. Qed.

(** In exact arithmetic the multiplier is the quotient, whichever way it
    is formed. *)
Lemma scale_by_pivot_exact (piv a : T) :
  piv <> Tzero -> scale_by_pivot piv a = (a / piv)%T.
Proof.
  intros Hpiv. unfold scale_by_pivot.
  destruct (abs_ltb piv Tsfmin); [reflexivity|]. field. exact Hpiv.
Qed.

(** In exact arithmetic the order of the subtractions does not matter. *)
Lemma back_sub_dot (b : T) (u xs : list T) :
  back_sub b u xs = (b - dot u xs)%T.
Proof.
  revert xs; induction u as [|ui u IH]; intros [|xi xs]; simpl;
    try ring.
  rewrite IH. ring.
Qed.

(** What the pivoting step does to a square system of [S n] unknowns: the
    rows are permuted, the first one is the pivot row, and the rows
    below it, once eliminated, form a square system of [n] unknowns. *)
Lemma pivot_step (n : nat) (rows : list (Row T)) :
  square (S n) rows ->
  let p := iamax (map (fun r => hd Tzero (fst r)) rows) in
  exists piv pt pb rest,
    swap_first rows p = (piv :: pt, pb) :: rest /\
    Permutation ((piv :: pt, pb) :: rest) rows /\
    length pt = n /\
    (piv = Tzero -> forall r, In r rows -> hd Tzero (fst r) = Tzero) /\
    square n (map (eliminate (piv :: pt, pb) piv) rest).
Proof.
  intros (HL & HW). cbv zeta.
  set (heads := map (fun r : Row T => hd Tzero (fst r)) rows).
  set (p := iamax heads).
  assert (Hne : heads <> []).
  { subst heads. destruct rows; simpl in *; [lia | congruence]. }
  destruct (iamax_spec Hne) as (Hp & Hz). fold p in Hp, Hz.
  assert (Hp' : p < length rows).
  { unfold heads in Hp. now rewrite length_map in Hp. }
  clear Hp. rename Hp' into Hp.
  pose proof (swap_first_perm rows Hp) as HP.
  pose proof (swap_first_hd rows ([], Tzero) Hp) as Hhd.
  destruct (swap_first rows p) as [|[pa pb] rest] eqn:ES.
  { apply Permutation_length in HP. simpl in HP. lia. }
  assert (Hpa : length pa = S n).
  { apply (HW (pa, pb)). eapply Permutation_in; [exact HP|]. now left. }
  destruct pa as [|piv pt]; simpl in Hpa; [lia|].
  exists piv, pt, pb, rest. repeat split; auto.
  - intros Epiv r Hr. apply Hz.
    + simpl in Hhd. unfold heads.
      change (@Tzero T _)
        with ((fun r : Row T => hd Tzero (fst r)) ([], Tzero)) at 2.
      rewrite map_nth, <- Hhd. exact Epiv.
    + unfold heads. apply in_map_iff. now exists r.
  - rewrite length_map. apply Permutation_length in HP. simpl in HP. lia.
  - intros r Hr. apply in_map_iff in Hr. destruct Hr as ([a b] & <- & Hab).
    assert (Ha : length a = S n).
    { apply (HW (a, b)). eapply Permutation_in; [exact HP|]. now right. }
    destruct a as [|a0 a]; simpl in Ha; [lia|]. simpl.
    rewrite length_row_sub; lia.
Qed.

Lemma lu_solve_info (n : nat) :
  forall col rows i, lu_solve n col rows = Singular i -> (col < i)%Z.
Proof.
  induction n as [|n IH]; intros col rows i E.
  - discriminate.
  - rewrite lu_solve_S in E. cbv zeta in E.
    destruct (is_zero _).
    + injection E as <-. lia.
    + destruct (lu_solve n _ _) as [i'|] eqn:E'; [|discriminate].
      injection E as <-. apply IH in E'. lia.
Qed.

Ltac pivot_cases Hsq E :=
  let piv := fresh "piv" in
  let pt := fresh "pt" in
  let pb := fresh "pb" in
  let rest := fresh "rest" in
  let ES := fresh "ES" in
  let HP := fresh "HP" in
  let Hpt := fresh "Hpt" in
  let Hz := fresh "Hz" in
  let Hsq' := fresh "Hsq'" in
  rewrite lu_solve_S in E;
  destruct (pivot_step Hsq)
    as (piv & pt & pb & rest & ES & HP & Hpt & Hz & Hsq');
  cbv zeta in E; rewrite ES in E;
  simpl hd in E; simpl tl in E; simpl fst in E; simpl snd in E.

(** A row of the permuted system that is not the pivot row. *)
Lemma rest_row (n : nat) (rows rest : list (Row T)) (prow r : Row T) :
  square (S n) rows -> Permutation (prow :: rest) rows -> In r rest ->
  exists a0 a b, r = (a0 :: a, b) /\ length a = n.
Proof.
  intros (_ & HW) HP Hr. destruct r as [a b].
  assert (Ha : length a = S n).
  { apply (HW (a, b)). eapply Permutation_in; [exact HP|]. now right. }
  destruct a as [|a0 a]; simpl in Ha; [lia|].
  exists a0, a, b. split; auto.
Qed.

(** Soundness: a returned solution satisfies every equation. *)
Lemma lu_solve_sound (n : nat) :
  forall col rows x,
    square n rows -> lu_solve n col rows = Solved x ->
    length x = n /\ forall r, In r rows -> dot (fst r) x = snd r.
Proof.
  induction n as [|n IH]; intros col rows x Hsq E.
  - simpl in E. injection E as <-. split; auto.
    destruct Hsq as (HL & _). destruct rows; [|discriminate]. intros r [].
  - pivot_cases Hsq E.
    destruct (is_zero piv) eqn:Hpiv; [discriminate|].
    apply is_zero_false in Hpiv.
    destruct (lu_solve n _ _) as [|xs] eqn:E'; [discriminate|].
    injection E as <-.
    destruct (IH _ _ _ Hsq' E') as (Lx & Sx).
    split; [simpl; lia|].
    intros r Hr. apply (Permutation_in _ (Permutation_sym HP)) in Hr.
    destruct Hr as [<-|Hr].
    + simpl. rewrite back_sub_dot. field. exact Hpiv.
    + destruct (rest_row r Hsq HP Hr) as (a0 & a & b & -> & Ha).
      specialize (Sx _ (in_map (eliminate (piv :: pt, pb) piv) _ _ Hr)).
      simpl in Sx. rewrite scale_by_pivot_exact in Sx by exact Hpiv.
      rewrite dot_row_sub in Sx by lia. simpl. rewrite back_sub_dot.
      replace (dot a xs)
        with ((dot a xs - a0 / piv * dot pt xs) + a0 / piv * dot pt xs)%T
        by (field; exact Hpiv).
      rewrite Sx. field. exact Hpiv.
Qed.

(** Uniqueness: when the solve succeeds the system has no other
    solution. *)
Lemma lu_solve_unique (n : nat) :
  forall col rows x y,
    square n rows -> lu_solve n col rows = Solved x ->
    length y = n -> (forall r, In r rows -> dot (fst r) y = snd r) ->
    y = x.
Proof.
  induction n as [|n IH]; intros col rows x y Hsq E Ly Hy.
  - simpl in E. injection E as <-. now destruct y.
  - pivot_cases Hsq E.
    destruct (is_zero piv) eqn:Hpiv; [discriminate|].
    apply is_zero_false in Hpiv.
    destruct (lu_solve n _ _) as [|xs] eqn:E'; [discriminate|].
    injection E as <-.
    destruct y as [|y0 ys]; simpl in Ly; [lia|].
    assert (Hp : (piv * y0 + dot pt ys)%T = pb).
    { apply (Hy (piv :: pt, pb)).
      eapply Permutation_in; [exact HP|]. now left. }
    assert (Eys : ys = xs).
    { apply (IH _ _ _ _ Hsq' E'); [lia|].
      intros r' Hr'. apply in_map_iff in Hr'.
      destruct Hr' as (r & <- & Hr).
      destruct (rest_row r Hsq HP Hr) as (a0 & a & b & -> & Ha).
      assert (Hr0 : (a0 * y0 + dot a ys)%T = b).
      { apply (Hy (a0 :: a, b)).
        eapply Permutation_in; [exact HP|]. now right. }
      simpl. rewrite scale_by_pivot_exact by exact Hpiv.
      rewrite dot_row_sub by lia.
      rewrite <- Hr0, <- Hp. field. exact Hpiv. }
    subst ys. f_equal. rewrite back_sub_dot, <- Hp. field. exact Hpiv.
Qed.

(** Completeness: the solve only fails on a singular system, one whose
    homogeneous equations have a non-zero solution. *)
Lemma lu_solve_singular (n : nat) :
  forall col rows i,
    square n rows -> lu_solve n col rows = Singular i ->
    exists y, length y = n /\ y <> repeat Tzero n /\
              forall r, In r rows -> dot (fst r) y = Tzero.
Proof.
  induction n as [|n IH]; intros col rows i Hsq E.
  - discriminate.
  - pose proof Hsq as (_ & HW).
    pivot_cases Hsq E.
    destruct (is_zero piv) eqn:Hpiv.
    + apply is_zero_spec in Hpiv.
      exists (Tone :: repeat Tzero n). repeat split.
      * simpl. now rewrite repeat_length.
      * simpl. intros F. injection F as F. now apply Tone_neq_zero.
      * intros [a b] Hr. pose proof (HW _ Hr) as Ha. simpl in Ha.
        destruct a as [|a0 a]; simpl in Ha; [lia|].
        pose proof (Hz Hpiv _ Hr) as Ea. simpl in Ea. subst a0.
        simpl. rewrite dot_zeros. ring.
    + apply is_zero_false in Hpiv.
      destruct (lu_solve n _ _) as [i'|] eqn:E'; [|discriminate].
      destruct (IH _ _ _ Hsq' E') as (ys & Lys & Nys & Kys).
      exists ((- (dot pt ys) / piv)%T :: ys). repeat split.
      * simpl; lia.
      * simpl. intros F. injection F as _ F. contradiction.
      * intros r Hr. apply (Permutation_in _ (Permutation_sym HP)) in Hr.
        destruct Hr as [<-|Hr].
        -- simpl. field. exact Hpiv.
        -- destruct (rest_row r Hsq HP Hr) as (a0 & a & b & -> & Ha).
           specialize
             (Kys _ (in_map (eliminate (piv :: pt, pb) piv) _ _ Hr)).
           simpl in Kys. rewrite scale_by_pivot_exact in Kys by exact Hpiv.
           rewrite dot_row_sub in Kys by lia. simpl.
           replace (dot a ys)
             with ((dot a ys - a0 / piv * dot pt ys)
                   + a0 / piv * dot pt ys)%T
             by (field; exact Hpiv).
           rewrite Kys. field. exact Hpiv.
Qed.

End SolverFacts.

(** ** The solver on the column-major matrix *)

Section GesvFacts.

Context {T : Type} `{ExactScalar T}.

Add Field Tfield' : scalar_field.

Lemma square_rows_of (N : nat) (A b : list T) : square N (rows_of N A b).
Proof.
  unfold square, rows_of. split.
  - now rewrite length_map, length_seq.
  - intros r Hr. apply in_map_iff in Hr. destruct Hr as (i & <- & _).
    simpl. now rewrite length_map, length_seq.
Qed.

Lemma In_rows_of (N : nat) (A b : list T) (i : nat) :
  i < N -> In (row_of N A b i) (rows_of N A b).
Proof.
  intros Hi. unfold rows_of. apply in_map. apply in_seq. lia.
Qed.

Lemma rows_of_inv (N : nat) (A b : list T) (r : Row T) :
  In r (rows_of N A b) -> exists i, i < N /\ r = row_of N A b i.
Proof.
  intros Hr. apply in_map_iff in Hr. destruct Hr as (i & <- & Hi).
  apply in_seq in Hi. exists i. split; [lia|reflexivity].
Qed.

Lemma gesv_cases (N : nat) (A b : list T) :
  (exists x, lu_solve N 0 (rows_of N A b) = Solved x /\
             gesv N A b = (x ++ skipn N b, 0%Z)) \/
  (exists i, lu_solve N 0 (rows_of N A b) = Singular i /\
             gesv N A b = (b, i) /\ i <> 0%Z).
Proof.
  unfold gesv. destruct (lu_solve N 0 (rows_of N A b)) as [i|x] eqn:E.
  - right. exists i. repeat split. apply lu_solve_info in E. lia.
  - left. exists x. split; reflexivity.
Qed.

(** On success the result solves the system. *)
Lemma gesv_sound (N : nat) (A b x : list T) :
  length b = N -> gesv N A b = (x, 0%Z) ->
  length x = N /\ forall i, i < N -> row_dot N A i x = nth i b Tzero.
Proof.
  intros Hb E.
  destruct (gesv_cases N A b) as [(x0 & E0 & E1)|(i & _ & E1 & Hi)];
    rewrite E1 in E; [|congruence].
  injection E as <-.
  rewrite skipn_all2, app_nil_r by lia.
  destruct (lu_solve_sound _ (square_rows_of N A b) E0) as (Lx & Sx).
  split; auto. intros i Hi.
  apply (Sx (row_of N A b i)). now apply In_rows_of.
Qed.

(** On success the system has no other solution. *)
Lemma gesv_unique (N : nat) (A b x y : list T) :
  length b = N -> gesv N A b = (x, 0%Z) ->
  length y = N -> (forall i, i < N -> row_dot N A i y = nth i b Tzero) ->
  y = x.
Proof.
  intros Hb E Ly Hy.
  destruct (gesv_cases N A b) as [(x0 & E0 & E1)|(i & _ & E1 & Hi)];
    rewrite E1 in E; [|congruence].
  injection E as <-.
  rewrite skipn_all2, app_nil_r by lia.
  apply (lu_solve_unique _ _ (square_rows_of N A b) E0 Ly).
  intros r Hr. apply rows_of_inv in Hr. destruct Hr as (i & Hi & ->).
  simpl. now apply Hy.
Qed.

(** A failure leaves the right-hand side alone and means that the
    matrix is singular. *)
Lemma gesv_failure (N : nat) (A b : list T) :
  snd (gesv N A b) <> 0%Z ->
  fst (gesv N A b) = b /\ singular N A.
Proof.
  intros E.
  destruct (gesv_cases N A b) as [(x0 & E0 & E1)|(i & E0 & E1 & Hi)];
    rewrite E1 in *; simpl in *; [congruence|].
  split; auto.
  destruct (lu_solve_singular _ (square_rows_of N A b) E0)
    as (y & Ly & Ny & Ky).
  exists y. repeat split; auto.
  intros k Hk. apply (Ky (row_of N A b k)). now apply In_rows_of.
Qed.

Lemma dot_comm (a x : list T) : dot a x = dot x a.
Proof.
  revert x; induction a as [|ai a IH]; intros [|xi x]; simpl; auto.
  rewrite IH. ring.
Qed.

Lemma row_sub_fixed (x y : list T) :
  length x = length y -> row_sub x (- Tone)%T y = x ->
  y = repeat Tzero (length y).
Proof.
  revert y; induction x as [|xi x IH]; intros [|yi y] L E; simpl in *;
    try lia; auto.
  injection E as E0 E1. f_equal.
  - transitivity ((xi - - Tone * yi) - xi)%T; [ring|].
    rewrite E0. ring.
  - apply IH; auto.
Qed.

(** A singular matrix makes the solve fail. *)
Lemma gesv_singular (N : nat) (A b : list T) :
  length b = N -> singular N A -> snd (gesv N A b) <> 0%Z.
Proof.
  intros Hb (y & Ly & Ny & Ky) E.
  destruct (gesv N A b) as [x info] eqn:Eg. simpl in E. subst info.
  destruct (@gesv_sound N A b x Hb Eg) as (Lx & Sx).
  assert (Exy : row_sub x (- Tone)%T y = x).
  { apply (@gesv_unique N A b x _ Hb Eg).
    - rewrite length_row_sub; lia.
    - intros i Hi. unfold row_dot in *.
      rewrite dot_comm, dot_row_sub by lia.
      rewrite (dot_comm x), (dot_comm y), Sx, Ky by auto. ring. }
  apply row_sub_fixed in Exy; [|lia].
  rewrite Ly in Exy. contradiction.
Qed.

End GesvFacts.

(** ** The instances are exact *)

Lemma this_Qcmult (x y : Qc) : (this (x * y)%Qc == this x * this y)%Q.
Proof. apply Qred_correct. Qed.

Lemma this_Qcplus (x y : Qc) : (this (x + y)%Qc == this x + this y)%Q.
Proof. apply Qred_correct. Qed.

Lemma Qc_square_nonneg (x : Qc) : (Q2Qc 0 <= x * x)%Qc.
Proof.
  unfold Qcle. rewrite this_Qcmult. change (this (Q2Qc 0)) with 0%Q. nra.
Qed.

Lemma Qc_sum_squares (a b : Qc) : (a * a + b * b)%Qc = Q2Qc 0 -> a = Q2Qc 0.
Proof.
  intros E. apply Qc_is_canon. change (this (Q2Qc 0)) with 0%Q.
  apply (f_equal this) in E.
  assert (E' : (this a * this a + this b * this b == 0)%Q).
  { rewrite <- !this_Qcmult, <- this_Qcplus, E. reflexivity. }
  nra.
Qed.

Lemma Qc_zero_num (x : Qc) : (Qnum (this x) =? 0)%Z = true <-> x = Q2Qc 0.
Proof.
  split.
  - intros E. apply Z.eqb_eq in E. apply Qc_is_canon.
    unfold Qeq. rewrite E. reflexivity.
  - intros ->. reflexivity.
Qed.

Lemma Qc_nonzero_this (x : Qc) : x <> Q2Qc 0 -> ~ (this x == 0)%Q.
Proof. intros Hx E. apply Hx. now apply Qc_is_canon. Qed.

Lemma Qabs_not_below_zero (x : Q) : (Qabs x ?= 0)%Q <> Lt.
Proof. apply Qge_alt. apply Qabs_nonneg. Qed.

Lemma Qabs_above_zero (x : Q) : ~ (x == 0)%Q -> (0 ?= Qabs x)%Q = Lt.
Proof.
  intros Hx. apply (proj1 (Qlt_alt _ _)).
  apply Qabs_case; intros H0; apply Qle_lt_or_eq in H0 as [H0|H0].
  - exact H0.
  - exfalso. apply Hx. symmetry. exact H0.
  - cbv beta. lra.
  - exfalso. apply Hx. exact H0.
Qed.

#[export] Instance Qc_Exact : ExactScalar Qc.
Proof.
  constructor; try reflexivity.
  - exact Qcft.
  - exact Qc_zero_num.
  - intros x.
    change (match (Qabs (this x) ?= 0)%Q with Lt => true | _ => false end
            = false).
    pose proof (Qabs_not_below_zero (this x)) as Hc.
    destruct (Qabs (this x) ?= 0)%Q; congruence.
  - intros x Hx.
    change (match (0 ?= Qabs (this x))%Q with Lt => true | _ => false end
            = true).
    now rewrite (Qabs_above_zero (Qc_nonzero_this Hx)).
Qed.

#[export] Instance Qc_Real : RealScalar Qc := {|
  Tle := Qcle;
  conj_real := fun x => eq_refl;
  Tle_zero := Qcle_refl (Q2Qc 0);
  Tle_square := Qc_square_nonneg;
  Tle_add := fun x y Hx Hy => Qcplus_le_compat _ _ _ _ Hx Hy
|}.

Ltac C_ring :=
  intros;
  repeat match goal with x : QcC |- _ => destruct x end;
  cbn; unfold C_add, C_mul, C_sub, C_opp, C_conj; simpl; f_equal; ring.

Lemma C_field :
  field_theory (mkC (Q2Qc 0) (Q2Qc 0)) (mkC (Q2Qc 1) (Q2Qc 0))
    C_add C_mul C_sub C_opp C_div C_inv eq.
Proof.
  constructor.
  - constructor; try solve [C_ring].
  - intros E. injection E as E. now apply Q_apart_0_1.
  - reflexivity.
  - intros [a b] Hp.
    assert (Hn : C_norm2 (mkC a b) <> Q2Qc 0).
    { unfold C_norm2; simpl. intros E. apply Hp.
      pose proof (Qc_sum_squares E) as ->.
      rewrite Qcplus_comm in E.
      pose proof (Qc_sum_squares E) as ->.
      reflexivity. }
    unfold C_mul, C_inv. simpl. unfold C_norm2 in *; simpl in *.
    f_equal; field; exact Hn.
Qed.

Lemma C_zero_test (x : QcC) :
  (Qnum (this (re x)) =? 0)%Z && (Qnum (this (im x)) =? 0)%Z = true <->
  x = mkC (Q2Qc 0) (Q2Qc 0).
Proof.
  destruct x as [a b]; simpl. rewrite andb_true_iff, !Qc_zero_num.
  split.
  - intros (-> & ->). reflexivity.
  - intros E. injection E as -> ->. split; reflexivity.
Qed.

Lemma C_abs1_zero : C_abs1 (mkC (Q2Qc 0) (Q2Qc 0)) = 0%Q.
Proof. reflexivity. Qed.

Lemma C_abs1_not_below_zero (x : QcC) : (C_abs1 x ?= 0)%Q <> Lt.
Proof.
  apply Qge_alt. unfold C_abs1.
  pose proof (Qabs_nonneg (this (re x))).
  pose proof (Qabs_nonneg (this (im x))). lra.
Qed.

Lemma C_abs1_above_zero (x : QcC) :
  x <> mkC (Q2Qc 0) (Q2Qc 0) -> (0 ?= C_abs1 x)%Q = Lt.
Proof.
  intros Hx. apply (proj1 (Qlt_alt _ _)). unfold C_abs1.
  pose proof (Qabs_nonneg (this (re x))) as Ha.
  pose proof (Qabs_nonneg (this (im x))) as Hb.
  destruct x as [a b]; simpl in *.
  destruct (Qc_eq_dec a (Q2Qc 0)) as [->|Na].
  - destruct (Qc_eq_dec b (Q2Qc 0)) as [->|Nb]; [congruence|].
    apply Qc_nonzero_this, Qabs_above_zero in Nb.
    apply Qlt_alt in Nb. lra.
  - apply Qc_nonzero_this, Qabs_above_zero in Na.
    apply Qlt_alt in Na. lra.
Qed.

#[export] Instance QcC_Exact : ExactScalar QcC.
Proof.
  constructor.
  - exact C_field.
  - exact C_zero_test.
  - intros x.
    change (match (C_abs1 x ?= 0)%Q with Lt => true | _ => false end
            = false).
    pose proof (C_abs1_not_below_zero x) as Hc.
    destruct (C_abs1 x ?= 0)%Q; congruence.
  - intros x Hx.
    change (match (0 ?= C_abs1 x)%Q with Lt => true | _ => false end
            = true).
    now rewrite (C_abs1_above_zero Hx).
  - C_ring.
  - C_ring.
  - cbn. unfold C_conj; simpl. f_equal; ring.
  - C_ring.
Qed.

(** ** [extrapolate]: what holds for every scalar type *)

Lemma for_loop_ext {St : Type} (n : nat) (f g : nat -> St -> St) (s : St) :
  (forall i s', i < n -> f i s' = g i s') ->
  for_loop n f s = for_loop n g s.
Proof.
  induction n as [|n IH]; intros E; simpl; auto.
  rewrite IH by (intros; apply E; lia). apply E. lia.
Qed.

Section ExtrapolateFacts.

Context {T : Type} `{Scalar T}.

(** The call, without the local names. *)
Lemma extrapolate_eq (m : Memory T) (d : DIIS T) :
  let g := gesv (nExtrap d + 1) (assemble_B m d) (init_rhs d) in
  extrapolate m d = ((snd g =? 0)%Z, (m, set_coeffs d (fst g))).
Proof.
  unfold extrapolate. cbv zeta.
  destruct (gesv _ _ _) as [x info]. simpl.
  now rewrite negb_involutive.
Qed.

Lemma valid_history_length (m : Memory T) (d : DIIS T) :
  valid_history m d = true -> length (coeffs d) = nExtrap d + 1.
Proof.
  unfold valid_history. rewrite !andb_true_iff.
  intros (((HL & _) & _) & _). now apply Nat.eqb_eq.
Qed.

(** The solution has as many entries as there are unknowns. *)
Lemma lu_solve_length (n : nat) :
  forall col (rows : list (Row T)) x,
    lu_solve n col rows = Solved x -> length x = n.
Proof.
  induction n as [|n IH]; intros col rows x E; simpl in E.
  - now injection E as <-.
  - destruct (is_zero _); [discriminate|].
    destruct (lu_solve n _ _) as [|xs] eqn:E'; [discriminate|].
    injection E as <-. simpl. f_equal. eapply IH. exact E'.
Qed.

Lemma gesv_length (N : nat) (A b : list T) :
  length b = N -> length (fst (gesv N A b)) = N.
Proof.
  intros Hb. unfold gesv.
  destruct (lu_solve N 0 (rows_of N A b)) as [i|x] eqn:E; simpl; auto.
  rewrite length_app, (lu_solve_length _ _ _ E), skipn_all2; simpl; lia.
Qed.

(** [coeffs] keeps the length the constructor gave it. *)
Lemma extrapolate_length (m : Memory T) (d : DIIS T) :
  length (coeffs d) = nExtrap d + 1 ->
  length (coeffs (snd (snd (extrapolate m d)))) = nExtrap d + 1.
Proof.
  intros HL. rewrite extrapolate_eq. simpl.
  apply gesv_length. rewrite init_rhs_spec by auto.
  rewrite length_app, repeat_length. simpl. lia.
Qed.

(** The matrix depends on the history only through the sizes and the
    contents of the buffers. *)
Lemma assemble_B_ext (m1 m2 : Memory T) (d1 d2 : DIIS T) :
  nExtrap d1 = nExtrap d2 -> nMat d1 = nMat d2 -> OSize d1 = OSize d2 ->
  (forall k i, k < nExtrap d1 -> i < nMat d1 ->
     metric m1 d1 k i = metric m2 d2 k i) ->
  assemble_B m1 d1 = assemble_B m2 d2.
Proof.
  intros En Em Eo Ec. unfold assemble_B. cbv zeta.
  rewrite <- En. do 3 f_equal. unfold accumulate.
  rewrite <- En, <- Em.
  apply for_loop_ext; intros i B Hi.
  apply for_loop_ext; intros j B' Hj.
  apply for_loop_ext; intros k B'' Hk.
  unfold pair_product. rewrite <- Eo, !Ec by lia. reflexivity.
Qed.

End ExtrapolateFacts.

Lemma DIIS_new_coeffs_length {T : Type} `{Scalar T} (n nM oS : nat)
    (eM : list (list ptr)) :
  length (coeffs (DIIS_new n nM oS eM)) = nExtrap (DIIS_new n nM oS eM) + 1.
Proof. apply repeat_length. Qed.

(** C2. For every history, [extrapolate] hands the solver the bordered
    matrix of the specification, of dimension [N = nExtrap + 1] and stored
    column-major: for [k <= j < nExtrap] the cell [B[k][j]] is the sum over
    the tracked matrices [i] of [InnerProd(errorMetric[k][i],
    errorMetric[j][i])]; the border cells [B[nExtrap][l]] and
    [B[l][nExtrap]] are [-1]; the corner is [0]; and, the vector [coeffs]
    having the length the constructor gave it, the right-hand side is zero
    except for its last entry, [-1]. *)
Theorem extrapolate_builds_bordered_system :
  forall (T : Type) (ops : Scalar T) (m : Memory T) (d : DIIS T),
    length (coeffs d) = nExtrap d + 1 ->
    let n := nExtrap d in
    let N := n + 1 in
    let B := assemble_B m d in
    let rhs := init_rhs d in
    extrapolate m d =
      ((snd (gesv N B rhs) =? 0)%Z, (m, set_coeffs d (fst (gesv N B rhs)))) /\
    length B = N * N /\
    (forall k j, k <= j -> j < n ->
       entry N B k j =
       Tsum (map (fun i => InnerProd (OSize d) (metric m d k i) 1
                             (metric m d j i) 1)
                 (seq 0 (nMat d)))) /\
    (forall l, l < n ->
       entry N B n l = (- Tone)%T /\ entry N B l n = (- Tone)%T) /\
    entry N B n n = Tzero /\
    length rhs = N /\
    (forall l, l < n -> nth l rhs Tzero = Tzero) /\
    nth n rhs Tzero = (- Tone)%T.
Proof.
  intros T ops m d HL n N B rhs.
  destruct (assemble_B_spec m d) as (B1 & B2 & _ & B4 & B5).
  assert (Er : rhs = repeat Tzero n ++ [(- Tone)%T])
    by (apply init_rhs_spec; exact HL).
  split; [apply extrapolate_eq|].
  repeat split; auto; try (apply B4; assumption).
  - rewrite Er, length_app, repeat_length. simpl. subst N. lia.
  - intros l Hl. rewrite Er, app_nth1 by (rewrite repeat_length; lia).
    apply nth_repeat.
  - rewrite Er, app_nth2 by (rewrite repeat_length; lia).
    rewrite repeat_length, Nat.sub_diag. reflexivity.
Qed.

Lemma extrapolate_builds_bordered_system_witness :
  length (coeffs (two_slots (T := float))) = 2 + 1 /\
  entry 3 (assemble_B orthonormal_double two_slots) 2 1 = (- Tone)%T /\
  nth 2 (init_rhs (two_slots (T := float))) Tzero = (- Tone)%T.
Proof.
  assert (HL : length (coeffs (two_slots (T := float))) = 2 + 1)
    by reflexivity.
  split; [exact HL|].
  pose proof (@extrapolate_builds_bordered_system float double_Scalar
                orthonormal_double two_slots HL) as P.
  cbv zeta in P.
  destruct P as (_ & _ & _ & Hb & _ & _ & _ & Hr).
  split; [exact (proj1 (Hb 1 ltac:(simpl; lia))) | exact Hr].
Defined.

(** C4. For every history the Gram sub-block of the assembled matrix is
    symmetric cell by cell, [B[j][k] = B[k][j]] for [j, k < nExtrap], with
    no conjugation, whatever the scalar type. *)
Theorem gram_block_symmetric :
  forall (T : Type) (ops : Scalar T) (m : Memory T) (d : DIIS T) (j k : nat),
    j < nExtrap d -> k < nExtrap d ->
    entry (nExtrap d + 1) (assemble_B m d) j k =
    entry (nExtrap d + 1) (assemble_B m d) k j.
Proof.
  intros T ops m d j k Hj Hk.
  destruct (assemble_B_spec m d) as (_ & _ & B3 & _).
  destruct (Nat.lt_trichotomy j k) as [Hlt|[->|Hgt]].
  - symmetry. now apply B3.
  - reflexivity.
  - now apply B3.
Qed.

Lemma gram_block_symmetric_witness :
  1 < nExtrap complex_history /\
  0 < nExtrap complex_history /\
  entry 4 (assemble_B complex_memory complex_history) 1 0 =
  entry 4 (assemble_B complex_memory complex_history) 0 1.
Proof.
  assert (H1 : 1 < nExtrap complex_history) by (simpl; lia).
  assert (H0 : 0 < nExtrap complex_history) by (simpl; lia).
  split; [exact H1|]. split; [exact H0|].
  exact (@gram_block_symmetric QcC QcC_Scalar complex_memory
           complex_history 1 0 H1 H0).
Defined.

(** On a complex history the block is symmetric and not Hermitian: the
    product of slot [0] with slot [1] is [i], and so is the cell below
    the diagonal, not its conjugate. *)
Lemma gram_block_not_hermitian :
  let B := assemble_B complex_memory complex_history in
  entry 4 B 1 0 = entry 4 B 0 1 /\
  re (entry 4 B 0 1) = qz 0 /\ im (entry 4 B 0 1) = qz 1 /\
  Tconj (entry 4 B 0 1) <> entry 4 B 1 0.
Proof.
  cbv zeta. split; [|split; [|split]].
  - destruct (assemble_B_spec complex_memory complex_history)
      as (_ & _ & B3 & _).
    exact (B3 0 1 ltac:(lia) ltac:(simpl; lia)).
  - apply Qc_is_canon. vm_compute. reflexivity.
  - apply Qc_is_canon. vm_compute. reflexivity.
  - intros E. apply (f_equal (fun z => this (im z))) in E.
    vm_compute in E. discriminate.
Qed.

(** C9. The call is a function of the sizes and of the contents of the
    history: two engines that agree on [nExtrap], [nMat], [OSize] and on
    what every history buffer holds return the same flag and leave the
    same [coeffs], whatever [coeffs] held before. *)
Theorem extrapolate_deterministic :
  forall (T : Type) (ops : Scalar T) (m1 m2 : Memory T) (d1 d2 : DIIS T),
    nExtrap d1 = nExtrap d2 ->
    nMat d1 = nMat d2 ->
    OSize d1 = OSize d2 ->
    (forall k i, k < nExtrap d1 -> i < nMat d1 ->
       metric m1 d1 k i = metric m2 d2 k i) ->
    length (coeffs d1) = nExtrap d1 + 1 ->
    length (coeffs d2) = nExtrap d2 + 1 ->
    fst (extrapolate m1 d1) = fst (extrapolate m2 d2) /\
    coeffs (snd (snd (extrapolate m1 d1))) =
    coeffs (snd (snd (extrapolate m2 d2))).
Proof.
  intros T ops m1 m2 d1 d2 En Em Eo Ec L1 L2.
  rewrite !extrapolate_eq. simpl.
  rewrite (assemble_B_ext m1 m2 d1 d2 En Em Eo Ec).
  rewrite (init_rhs_spec d1 L1), (init_rhs_spec d2 L2), En.
  split; reflexivity.
Qed.

(** A second run, from the engine the first run left, is such a pair. *)
Lemma extrapolate_deterministic_witness :
  let d' := snd (snd (extrapolate orthonormal two_slots)) in
  fst (extrapolate orthonormal two_slots) = fst (extrapolate orthonormal d')
  /\
  coeffs (snd (snd (extrapolate orthonormal two_slots))) =
  coeffs (snd (snd (extrapolate orthonormal d'))).
Proof.
  cbv zeta.
  apply (@extrapolate_deterministic Qc Qc_Scalar orthonormal orthonormal
           two_slots (snd (snd (extrapolate orthonormal two_slots)))).
  - reflexivity.
  - reflexivity.
  - reflexivity.
  - intros k i _ _. reflexivity.
  - reflexivity.
  - vm_compute. reflexivity.
Defined.

(** ** [extrapolate] over exact scalars *)

Section ExactFacts.

Context {T : Type} `{ExactScalar T}.

Add Field Tfield'' : scalar_field.

Lemma fold_left_Tadd (l : list T) (a : T) :
  fold_left Tadd l a = (a + fold_left Tadd l Tzero)%T.
Proof.
  revert a; induction l as [|x l IH]; intros a; simpl.
  - ring.
  - rewrite (IH (a + x)%T), (IH (Tzero + x)%T). ring.
Qed.

Lemma Tsum_cons (x : T) (l : list T) : Tsum (x :: l) = (x + Tsum l)%T.
Proof.
  unfold Tsum. simpl. rewrite fold_left_Tadd. ring.
Qed.

(** The constraint row times a vector: minus the sum of the weights. *)
Lemma dot_border (n : nat) :
  forall (f : nat -> T) (x : list T),
    length x = n + 1 ->
    (forall j, j < n -> f j = (- Tone)%T) -> f n = Tzero ->
    dot (map f (seq 0 (n + 1))) x = (- Tsum (firstn n x))%T.
Proof.
  induction n as [|n IH]; intros f x Lx Hf Hn.
  - destruct x as [|x0 [|x1 x]]; simpl in Lx; try lia.
    simpl. rewrite Hn. unfold Tsum. simpl. ring.
  - destruct x as [|x0 x]; simpl in Lx; [lia|].
    change (seq 0 (S n + 1)) with (0 :: seq 1 (n + 1)).
    rewrite <- seq_shift, map_cons, map_map.
    simpl dot. simpl firstn. rewrite Tsum_cons.
    rewrite (IH (fun j => f (S j)) x) by (auto; intros; apply Hf; lia).
    rewrite (Hf 0) by lia. ring.
Qed.

Lemma nth_map_seq (f : nat -> T) (N p : nat) (dflt : T) :
  p < N -> nth p (map f (seq 0 N)) dflt = f p.
Proof.
  intros Hp. rewrite (nth_indep _ dflt (f 0)) by
    (now rewrite length_map, length_seq).
  rewrite map_nth, seq_nth by lia. reflexivity.
Qed.

Lemma dot_zeros_l (a : list T) (n : nat) : dot (repeat Tzero n) a = Tzero.
Proof. rewrite dot_comm. apply dot_zeros. Qed.

(** The unit vector [e_p] picks entry [p]. *)
Lemma dot_unit (n : nat) :
  forall p a, p < n ->
    dot (vset (repeat Tzero n) p Tone) a = nth p a Tzero.
Proof.
  induction n as [|n IH]; intros p a Hp; [lia|].
  destruct a as [|a0 a].
  - rewrite dot_nil_r. now destruct p.
  - destruct p as [|p]; simpl.
    + rewrite dot_zeros_l. ring.
    + rewrite IH by lia. ring.
Qed.

Lemma nth_row_sub (a b : list T) (f : T) (k : nat) :
  length a = length b -> k < length a ->
  nth k (row_sub a f b) Tzero = (nth k a Tzero - f * nth k b Tzero)%T.
Proof.
  revert b k; induction a as [|ai a IH]; intros [|bi b] k L Hk;
    simpl in *; try lia.
  destruct k as [|k]; auto. apply IH; lia.
Qed.

(** Two equal columns make the matrix singular. *)
Lemma equal_columns_singular (N : nat) (A : list T) (p q : nat) :
  p < q -> q < N ->
  (forall i, i < N -> entry N A i p = entry N A i q) ->
  singular N A.
Proof.
  intros Hpq Hq Hcol.
  set (ep := vset (repeat (@Tzero T _) N) p Tone).
  set (eq := vset (repeat (@Tzero T _) N) q Tone).
  assert (Lp : length ep = N) by
    (unfold ep; now rewrite length_vset, repeat_length).
  assert (Lq : length eq = N) by
    (unfold eq; now rewrite length_vset, repeat_length).
  exists (row_sub ep Tone eq). repeat split.
  - rewrite length_row_sub; lia.
  - intros E. apply (f_equal (fun l => nth p l Tzero)) in E.
    rewrite nth_row_sub, nth_repeat in E by lia.
    unfold ep, eq in E.
    rewrite nth_vset_eq in E by (rewrite repeat_length; lia).
    rewrite nth_vset_ne, nth_repeat in E by lia.
    apply Tone_neq_zero. rewrite <- E. ring.
  - intros i Hi. unfold row_dot.
    rewrite dot_comm, dot_row_sub by lia.
    unfold ep, eq. rewrite !dot_unit by lia.
    rewrite !nth_map_seq by lia. rewrite (Hcol i Hi). ring.
Qed.

(** The call succeeds exactly when the solver reports status zero. *)
Lemma extrapolate_true (m : Memory T) (d : DIIS T) :
  fst (extrapolate m d) = true ->
  gesv (nExtrap d + 1) (assemble_B m d) (init_rhs d) =
  (coeffs (snd (snd (extrapolate m d))), 0%Z).
Proof.
  rewrite extrapolate_eq. simpl. intros E. apply Z.eqb_eq in E.
  destruct (gesv _ _ _) as [x info]. simpl in *. now subst.
Qed.

Lemma length_init_rhs (d : DIIS T) :
  length (coeffs d) = nExtrap d + 1 -> length (init_rhs d) = nExtrap d + 1.
Proof.
  intros HL. rewrite init_rhs_spec by auto.
  rewrite length_app, repeat_length. simpl. lia.
Qed.

Lemma nth_init_rhs_last (d : DIIS T) :
  length (coeffs d) = nExtrap d + 1 ->
  nth (nExtrap d) (init_rhs d) Tzero = (- Tone)%T.
Proof.
  intros HL. rewrite init_rhs_spec by auto.
  rewrite app_nth2 by (rewrite repeat_length; lia).
  rewrite repeat_length, Nat.sub_diag. reflexivity.
Qed.

(** On success the weights add up to one: the constraint row. *)
Lemma extrapolate_weights (m : Memory T) (d : DIIS T) :
  length (coeffs d) = nExtrap d + 1 ->
  fst (extrapolate m d) = true ->
  let c := coeffs (snd (snd (extrapolate m d))) in
  length c = nExtrap d + 1 /\ Tsum (firstn (nExtrap d) c) = Tone.
Proof.
  intros HL Ok c. apply extrapolate_true in Ok. fold c in Ok.
  destruct (@gesv_sound _ _ _ _ _ _ c (length_init_rhs d HL) Ok)
    as (Lc & Sc).
  split; auto.
  specialize (Sc (nExtrap d) ltac:(lia)).
  rewrite nth_init_rhs_last in Sc by auto.
  unfold row_dot in Sc.
  destruct (assemble_B_spec m d) as (_ & _ & _ & B4 & B5).
  rewrite dot_border in Sc; auto.
  - transitivity (- - Tsum (firstn (nExtrap d) c))%T; [ring|].
    rewrite Sc. ring.
  - intros j Hj. now apply B4.
Qed.

(** The call fails exactly on a singular matrix, and then leaves the
    right-hand side in [coeffs]. *)
Lemma extrapolate_false_iff (m : Memory T) (d : DIIS T) :
  length (coeffs d) = nExtrap d + 1 ->
  (fst (extrapolate m d) = false <->
   singular (nExtrap d + 1) (assemble_B m d)).
Proof.
  intros HL. rewrite extrapolate_eq. simpl. rewrite Z.eqb_neq. split.
  - intros E. now apply gesv_failure in E.
  - intros Hs. apply gesv_singular; auto. now apply length_init_rhs.
Qed.

Lemma extrapolate_failure (m : Memory T) (d : DIIS T) :
  fst (extrapolate m d) = false ->
  extrapolate m d = (false, (m, set_coeffs d (init_rhs d))).
Proof.
  rewrite extrapolate_eq. simpl. intros E. rewrite E.
  apply Z.eqb_neq in E. apply gesv_failure in E.
  destruct E as (-> & _). reflexivity.
Qed.

End ExactFacts.

(** ** The inner product *)

Section InnerProdFacts.

Context {T : Type} {ops : Scalar T}.

(** The strided walk with unit strides adds the terms
    [conj(x_k) * y_k] in the order of [k]. *)
Lemma InnerProd_from_unit (n : nat) :
  forall (x y : list T) (i : nat) (acc : T),
    InnerProd_from n x i 1 y i 1 acc =
    fold_left Tadd
      (map (fun k => (Tconj (nth k x Tzero) * nth k y Tzero)%T) (seq i n))
      acc.
Proof.
  induction n as [|n IH]; intros x y i acc; simpl; auto.
  rewrite Nat.add_1_r. apply IH.
Qed.

Lemma InnerProd_terms (n : nat) (x y : list T) :
  InnerProd n x 1 y 1 = Tsum (dot_terms n x y).
Proof. apply InnerProd_from_unit. Qed.

Section RealCase.

Context {R : RealScalar T}.

Lemma InnerProd_from_nonneg (n : nat) :
  forall (x : list T) (i : nat) (acc : T),
    Tle Tzero acc -> Tle Tzero (InnerProd_from n x i 1 x i 1 acc).
Proof.
  induction n as [|n IH]; intros x i acc Hacc; simpl; auto.
  apply IH. apply Tle_add; auto. rewrite conj_real. apply Tle_square.
Qed.

Lemma InnerProd_real_terms (n : nat) (x y : list T) :
  InnerProd n x 1 y 1 =
  Tsum (map (fun k => (nth k x Tzero * nth k y Tzero)%T) (seq 0 n)).
Proof.
  rewrite InnerProd_terms. unfold dot_terms. f_equal.
  apply map_ext. intros k. now rewrite conj_real.
Qed.

End RealCase.

Section ExactCase.

Context {E : ExactScalar T}.

Add Field Tfield3 : scalar_field.

Lemma InnerProd_from_conj (n : nat) :
  forall (x y : list T) (i : nat) (acc : T),
    InnerProd_from n x i 1 y i 1 acc =
    Tconj (InnerProd_from n y i 1 x i 1 (Tconj acc)).
Proof.
  induction n as [|n IH]; intros x y i acc; simpl.
  - now rewrite conj_invol.
  - rewrite IH. do 2 f_equal.
    rewrite conj_add, conj_mul, conj_invol. ring.
Qed.

Lemma InnerProd_conj_sym (n : nat) (x y : list T) :
  InnerProd n x 1 y 1 = Tconj (InnerProd n y 1 x 1).
Proof.
  unfold InnerProd. rewrite InnerProd_from_conj. now rewrite conj_zero.
Qed.

(** Over a real type the inner product is symmetric, and so is the sum
    the Gram cells hold. *)
Lemma InnerProd_sym {R : RealScalar T} (n : nat) (x y : list T) :
  InnerProd n x 1 y 1 = InnerProd n y 1 x 1.
Proof.
  rewrite (InnerProd_conj_sym n x y). apply conj_real.
Qed.

Lemma gram_entry_sym {R : RealScalar T} (m : Memory T) (d : DIIS T)
    (a b : nat) :
  gram_entry m d a b = gram_entry m d b a.
Proof.
  unfold gram_entry. f_equal. apply map_ext. intros i.
  apply InnerProd_sym.
Qed.

Lemma gram_entry_same_slot (m : Memory T) (d : DIIS T) (a p q : nat) :
  (forall i, i < nMat d -> metric m d p i = metric m d q i) ->
  gram_entry m d a p = gram_entry m d a q.
Proof.
  intros Hpq. unfold gram_entry. f_equal. apply map_ext_in.
  intros i Hi. apply in_seq in Hi. rewrite Hpq by lia. reflexivity.
Qed.

(** Over a real type every cell of the Gram block is the sum the
    specification gives, below the diagonal too. *)
Lemma gram_block_real {R : RealScalar T} (m : Memory T) (d : DIIS T)
    (r c : nat) :
  r < nExtrap d -> c < nExtrap d ->
  entry (nExtrap d + 1) (assemble_B m d) r c = gram_entry m d r c.
Proof.
  intros Hr Hc.
  destruct (assemble_B_spec m d) as (_ & B2 & B3 & _).
  destruct (Nat.le_gt_cases r c) as [Hle|Hgt].
  - now apply B2.
  - rewrite B3 by lia. rewrite B2 by lia. apply gram_entry_sym.
Qed.

Lemma gram_entry_same_slot_l (m : Memory T) (d : DIIS T) (a p q : nat) :
  (forall i, i < nMat d -> metric m d p i = metric m d q i) ->
  gram_entry m d p a = gram_entry m d q a.
Proof.
  intros Hpq. unfold gram_entry. f_equal. apply map_ext_in.
  intros i Hi. apply in_seq in Hi. rewrite Hpq by lia. reflexivity.
Qed.

(** Two neighbouring slots with the same contents make the bordered
    matrix singular, over any exact scalar type: no row lies between the
    two columns, so the plain copy of the mirror does not matter. *)
Lemma adjacent_slots_singular (m : Memory T) (d : DIIS T) (p : nat) :
  p + 1 < nExtrap d ->
  (forall i, i < nMat d -> metric m d p i = metric m d (p + 1) i) ->
  singular (nExtrap d + 1) (assemble_B m d).
Proof.
  intros Hq Hsame.
  apply (@equal_columns_singular _ _ _ _ _ p (p + 1)); try lia.
  intros i Hi.
  destruct (assemble_B_spec m d) as (_ & B2 & B3 & B4 & _).
  destruct (Nat.eq_dec i (nExtrap d)) as [->|Hne].
  - destruct (B4 p) as (-> & _); [lia|].
    destruct (B4 (p + 1)) as (-> & _); [lia|]. reflexivity.
  - destruct (Nat.le_gt_cases i p) as [Hle|Hgt].
    + rewrite !B2 by lia. now apply gram_entry_same_slot.
    + rewrite (B3 p i) by lia. rewrite (B2 p i) by lia.
      destruct (Nat.eq_dec i (p + 1)) as [->|Hne'].
      * rewrite B2 by lia. now apply gram_entry_same_slot_l.
      * rewrite (B3 (p + 1) i) by lia. rewrite (B2 (p + 1) i) by lia.
        now apply gram_entry_same_slot_l.
Qed.

(** Two slots with the same contents make the bordered matrix of a real
    history singular. *)
Lemma identical_slots_singular {R : RealScalar T} (m : Memory T)
    (d : DIIS T) (p q : nat) :
  p < q -> q < nExtrap d ->
  (forall i, i < nMat d -> metric m d p i = metric m d q i) ->
  singular (nExtrap d + 1) (assemble_B m d).
Proof.
  intros Hpq Hq Hsame.
  apply (@equal_columns_singular _ _ _ _ _ p q); try lia.
  intros i Hi.
  destruct (assemble_B_spec m d) as (_ & _ & _ & B4 & _).
  destruct (Nat.eq_dec i (nExtrap d)) as [->|Hne].
  - destruct (B4 p) as (-> & _); [lia|].
    destruct (B4 q) as (-> & _); [lia|]. reflexivity.
  - rewrite !gram_block_real by lia. now apply gram_entry_same_slot.
Qed.

End ExactCase.

End InnerProdFacts.

Lemma Qc_list_eq (l1 l2 : list Qc) : map this l1 = map this l2 -> l1 = l2.
Proof.
  revert l2; induction l1 as [|a l1 IH]; intros [|b l2] E; simpl in E;
    try discriminate; auto.
  injection E as E0 E1. f_equal; auto. now apply Qc_decomp.
Qed.

Ltac qc_list := apply Qc_list_eq; vm_compute; reflexivity.

(** ** The claims about the solve *)

(** C1, as the code has it.  Over exact scalars and for every valid
    history: if [extrapolate] returns [true], the vector [coeffs] has
    length [nExtrap + 1], its first [nExtrap] entries are the weights and
    sum to one exactly; the last entry is the multiplier of the
    constraint. *)
Theorem extrapolate_weights_sum_to_one :
  forall (T : Type) (ops : Scalar T) (E : ExactScalar T)
         (m : Memory T) (d : DIIS T),
    valid_history m d = true ->
    fst (extrapolate m d) = true ->
    let c := coeffs (snd (snd (extrapolate m d))) in
    length c = nExtrap d + 1 /\
    length (firstn (nExtrap d) c) = nExtrap d /\
    Tsum (firstn (nExtrap d) c) = Tone.
Proof.
  intros T ops E m d Hv Ok c.
  apply valid_history_length in Hv.
  destruct (extrapolate_weights m d Hv Ok) as (Lc & Sc). fold c in Lc, Sc.
  repeat split; auto.
  rewrite length_firstn. lia.
Qed.

Lemma extrapolate_weights_sum_to_one_witness :
  valid_history orthonormal two_slots = true /\
  fst (extrapolate orthonormal two_slots) = true /\
  Tsum (firstn 2 (coeffs (snd (snd (extrapolate orthonormal two_slots)))))
  = Tone.
Proof.
  assert (Hv : valid_history orthonormal two_slots = true)
    by (vm_compute; reflexivity).
  assert (Ok : fst (extrapolate orthonormal two_slots) = true)
    by (vm_compute; reflexivity).
  split; [exact Hv|]. split; [exact Ok|].
  exact (proj2 (proj2
    (extrapolate_weights_sum_to_one Qc_Exact orthonormal two_slots Hv Ok))).
Defined.

(** C1 as stated fails in floating point.  On the two metrics [[3]]
    and [[3 + 2^-47]], a valid history of IEEE doubles, the call returns
    [true]; the weights are near [4.5e14] and [-4.5e14], and their sum
    is [1.0625], not within a small tolerance of one. *)
Lemma ill_conditioned_counterexample :
  ~ (valid_history nearly_equal two_scalars = true ->
     fst (extrapolate nearly_equal two_scalars) = true ->
     let w :=
       firstn (nExtrap two_scalars)
         (coeffs (snd (snd (extrapolate nearly_equal two_scalars)))) in
     length w = nExtrap two_scalars /\
     within_tolerance (Tsum w) Tone = true).
Proof.
  intros Hc.
  destruct Hc as (_ & Hs); try (vm_compute; reflexivity).
  vm_compute in Hs. discriminate.
Qed.

(** The values of that run. *)
Lemma ill_conditioned_sum :
  let w :=
    firstn 2 (coeffs (snd (snd (extrapolate nearly_equal two_scalars)))) in
  Tsum w = 1.0625%float /\
  PrimFloat.ltb 0x1p+48%float (nth 0 w Tzero) = true /\
  PrimFloat.ltb (nth 1 w Tzero) (- 0x1p+48)%float = true.
Proof. cbv zeta. repeat split; vm_compute; reflexivity. Qed.

(** C3, as the code has it.  Over exact scalars and for every valid
    history, [extrapolate] returns [false] exactly when the bordered
    matrix is singular.  Two slots with the same contents for every
    tracked matrix make the call fail when the scalar type is real, and
    also, whatever the scalar type, when the two slots are neighbours. *)
Theorem extrapolate_fails_on_singular :
  forall (T : Type) (ops : Scalar T) (E : ExactScalar T)
         (m : Memory T) (d : DIIS T),
    valid_history m d = true ->
    (fst (extrapolate m d) = false <->
     singular (nExtrap d + 1) (assemble_B m d)) /\
    (forall (R : RealScalar T) (p q : nat),
       p < q -> q < nExtrap d ->
       (forall i, i < nMat d -> metric m d p i = metric m d q i) ->
       fst (extrapolate m d) = false) /\
    (forall p : nat,
       p + 1 < nExtrap d ->
       (forall i, i < nMat d -> metric m d p i = metric m d (p + 1) i) ->
       fst (extrapolate m d) = false).
Proof.
  intros T ops E m d Hv. apply valid_history_length in Hv.
  split; [|split].
  - now apply extrapolate_false_iff.
  - intros R p q Hpq Hq Hsame.
    apply extrapolate_false_iff; auto.
    now apply (identical_slots_singular m d Hpq Hq).
  - intros p Hq Hsame.
    apply extrapolate_false_iff; auto.
    now apply adjacent_slots_singular with (p := p).
Qed.

Lemma extrapolate_fails_on_singular_witness :
  valid_history parallel same_slot = true /\
  fst (extrapolate parallel same_slot) = false.
Proof.
  assert (Hv : valid_history parallel same_slot = true)
    by (vm_compute; reflexivity).
  split; [exact Hv|].
  apply (proj1 (proj2
    (extrapolate_fails_on_singular Qc_Exact parallel same_slot Hv))
    Qc_Real 0 1); simpl; try lia.
  intros i Hi. reflexivity.
Defined.

(** C3 as stated fails on its own scenario: with [e0 = [1,0]] and
    [e1 = [2,0]] the bordered matrix is not singular (its determinant is
    minus the squared norm of [e0 - e1]), the call returns [true] and the
    weights are [2] and [-1]. *)
Lemma parallel_metrics_counterexample :
  valid_history parallel two_slots = true /\
  fst (extrapolate parallel two_slots) <> false /\
  coeffs (snd (snd (extrapolate parallel two_slots))) =
  [qz 2; qz (-1); qz 0].
Proof.
  split; [vm_compute; reflexivity|]. split.
  - vm_compute. discriminate.
  - qc_list.
Qed.

(** The same scenario in IEEE doubles: every intermediate value is
    exactly representable, and the call succeeds as well. *)
Lemma parallel_metrics_double :
  fst (extrapolate parallel_double two_slots) = true /\
  firstn 2 (coeffs (snd (snd (extrapolate parallel_double two_slots)))) =
  [2%float; (-1)%float].
Proof. split; vm_compute; reflexivity. Qed.

(** In IEEE doubles two slots with the same contents need not make the
    call fail.  With [e0 = e1 = [7,0]] the Gram block is [49] everywhere;
    the multiplier of the second row is [49] times the rounded reciprocal
    of [49], which is not one, so the second pivot is not zero and the
    call returns [true], whether the two slots are two buffers or one
    and the same. *)
Lemma identical_slots_double_succeed :
  valid_history identical_double two_slots = true /\
  metric identical_double two_slots 0 0 =
  metric identical_double two_slots 1 0 /\
  fst (extrapolate identical_double two_slots) = true /\
  fst (extrapolate identical_double (DIIS_new 2 1 2 [[0]; [0]])) = true.
Proof. repeat split; vm_compute; reflexivity. Qed.

(** Over a complex type identical slots need not make the call fail: the
    lower triangle is a plain copy, so the rows of two identical slots
    differ where a slot between them has a non-real product with them. *)
Lemma complex_identical_slots_succeed :
  valid_history complex_memory complex_history = true /\
  metric complex_memory complex_history 0 0 =
  metric complex_memory complex_history 2 0 /\
  fst (extrapolate complex_memory complex_history) = true.
Proof. repeat split; vm_compute; reflexivity. Qed.

Section SingleSlot.

Context {T : Type} `{ExactScalar T}.

Add Field Tfield4 : scalar_field.

(** With one slot the bordered matrix is never singular. *)
Lemma single_slot_regular (m : Memory T) (d : DIIS T) :
  nExtrap d = 1 -> ~ singular (nExtrap d + 1) (assemble_B m d).
Proof.
  intros Hn (y & Ly & Ny & Ky).
  destruct (assemble_B_spec m d) as (_ & _ & _ & B4 & B5).
  rewrite Hn in *. simpl in *.
  destruct (B4 0 ltac:(lia)) as (B10 & B01).
  destruct y as [|y0 [|y1 [|y2 y]]]; simpl in Ly; try lia.
  pose proof (Ky 1 ltac:(lia)) as K1.
  pose proof (Ky 0 ltac:(lia)) as K0.
  unfold row_dot in K0, K1. simpl in K0, K1.
  rewrite B10, B5 in K1. rewrite B01 in K0.
  assert (E0 : y0 = Tzero).
  { transitivity (- (- Tone * y0 + (Tzero * y1 + Tzero)))%T; [ring|].
    rewrite K1. ring. }
  subst y0.
  assert (E1 : y1 = Tzero).
  { transitivity
      (- (entry 2 (assemble_B m d) 0 0 * Tzero
          + (- Tone * y1 + Tzero)))%T; [ring|].
    rewrite K0. ring. }
  subst y1. now apply Ny.
Qed.

Lemma single_slot_solution (m : Memory T) (d : DIIS T) :
  length (coeffs d) = nExtrap d + 1 ->
  nExtrap d = 1 ->
  let c := coeffs (snd (snd (extrapolate m d))) in
  fst (extrapolate m d) = true /\
  nth 0 c Tzero = Tone /\
  (forall y, length y = 2 ->
     (forall i, i < 2 ->
        row_dot 2 (assemble_B m d) i y = nth i (init_rhs d) Tzero) ->
     y = c).
Proof.
  intros HL Hn c.
  assert (Ok : fst (extrapolate m d) = true).
  { destruct (fst (extrapolate m d)) eqn:Ef; auto.
    apply extrapolate_false_iff in Ef; auto.
    now apply single_slot_regular in Ef. }
  split; [exact Ok|].
  destruct (extrapolate_weights m d HL Ok) as (Lc & Sc). fold c in Lc, Sc.
  pose proof (extrapolate_true m d Ok) as Eg. fold c in Eg.
  assert (Lr : length (init_rhs d) = 2).
  { rewrite length_init_rhs by exact HL. rewrite Hn. reflexivity. }
  rewrite Hn in Lc, Sc, Eg. simpl in Lc, Sc, Eg.
  split.
  - destruct c as [|c0 c']; simpl in Lc; [lia|].
    unfold Tsum in Sc. simpl in Sc. simpl. rewrite <- Sc. ring.
  - intros y Ly Hy.
    apply (@gesv_unique _ _ _ 2 (assemble_B m d) (init_rhs d) c y); auto.
Qed.

End SingleSlot.

(** C5, as the code has it.  Over exact scalars, a valid history with
    [nExtrap = 1] makes the call succeed with [coeffs[0] = 1], the only
    solution of the two-by-two system; this needs no assumption on the
    error metric, the bordered matrix having determinant [-1] whatever
    it is. *)
Theorem single_slot_weight_is_one :
  forall (T : Type) (ops : Scalar T) (E : ExactScalar T)
         (m : Memory T) (d : DIIS T),
    valid_history m d = true ->
    nExtrap d = 1 ->
    let c := coeffs (snd (snd (extrapolate m d))) in
    fst (extrapolate m d) = true /\
    nth 0 c Tzero = Tone /\
    (forall y, length y = 2 ->
       (forall i, i < 2 ->
          row_dot 2 (assemble_B m d) i y = nth i (init_rhs d) Tzero) ->
       y = c).
Proof.
  intros T ops E m d Hv Hn. apply valid_history_length in Hv.
  now apply single_slot_solution.
Qed.

Lemma single_slot_weight_is_one_witness :
  valid_history parallel one_slot = true /\
  nExtrap one_slot = 1 /\
  fst (extrapolate parallel one_slot) = true /\
  nth 0 (coeffs (snd (snd (extrapolate parallel one_slot)))) Tzero = Tone.
Proof.
  assert (Hv : valid_history parallel one_slot = true)
    by (vm_compute; reflexivity).
  split; [exact Hv|]. split; [reflexivity|].
  destruct (single_slot_weight_is_one Qc_Exact parallel one_slot Hv eq_refl)
    as (Ok & C0 & _).
  split; [exact Ok | exact C0].
Defined.

(** C5 as stated fails in floating point.  The single metric
    [[2^600, 0]] is not zero, but its squared norm is beyond the largest
    double: the Gram entry is infinite, the reciprocal of the pivot is
    zero, the second pivot is zero and the call returns [false]. *)
Lemma huge_metric_counterexample :
  ~ (valid_history huge_metric one_slot_double = true ->
     nExtrap one_slot_double = 1 ->
     metric huge_metric one_slot_double 0 0 <>
     repeat Tzero (OSize one_slot_double) ->
     fst (extrapolate huge_metric one_slot_double) = true /\
     nth 0 (coeffs (snd (snd (extrapolate huge_metric one_slot_double))))
       Tzero = Tone).
Proof.
  intros Hc. destruct Hc as (Ok & _).
  - vm_compute. reflexivity.
  - reflexivity.
  - intros E.
    apply (f_equal (fun l => is_zero (nth 0 l Tzero))) in E.
    vm_compute in E. discriminate.
  - vm_compute in Ok. discriminate.
Qed.

(** And where the call succeeds the weight is one only up to rounding:
    with [e0 = [7,0]] it is the double next above one. *)
Lemma rounded_weight_double :
  fst (extrapolate seven one_slot_double) = true /\
  nth 0 (coeffs (snd (snd (extrapolate seven one_slot_double)))) Tzero =
  0x1.0000000000001p+0%float.
Proof. split; vm_compute; reflexivity. Qed.

(** C6. The orthonormal scenario, [nExtrap = 2], [nMat = 1],
    [OSize = 2], [e0 = [1,0]], [e1 = [0,1]]: the Gram sub-block is the
    identity, the call returns [true] and [coeffs[0] = coeffs[1] = 1/2];
    in exact rationals and in IEEE doubles alike. *)
Theorem orthonormal_scenario :
  let B := assemble_B orthonormal two_slots in
  let r := extrapolate orthonormal two_slots in
  let Bd := assemble_B orthonormal_double two_slots in
  let rd := extrapolate orthonormal_double two_slots in
  valid_history orthonormal two_slots = true /\
  [entry 3 B 0 0; entry 3 B 0 1; entry 3 B 1 0; entry 3 B 1 1] =
  [qz 1; qz 0; qz 0; qz 1] /\
  fst r = true /\
  nth 0 (coeffs (snd (snd r))) Tzero = half /\
  nth 1 (coeffs (snd (snd r))) Tzero = half /\
  [entry 3 Bd 0 0; entry 3 Bd 0 1; entry 3 Bd 1 0; entry 3 Bd 1 1] =
  [1%float; 0%float; 0%float; 1%float] /\
  fst rd = true /\
  firstn 2 (coeffs (snd (snd rd))) = [0.5%float; 0.5%float].
Proof.
  cbv zeta. repeat split; try (vm_compute; reflexivity); try qc_list;
    apply Qc_is_canon; vm_compute; reflexivity.
Qed.

(** C7. The inner product of two buffers is the left-to-right sum of the
    terms [conj(x_k) * y_k], [k = 0..n-1]; over a real type the terms are
    [x_k * y_k] and the product of a buffer with itself is non-negative;
    over exact scalars the product of [x] with [y] is the conjugate of
    the product of [y] with [x]. *)
Theorem InnerProd_contract :
  (forall (T : Type) (ops : Scalar T) (n : nat) (x y : list T),
     InnerProd n x 1 y 1 =
     fold_left Tadd
       (map (fun k => (Tconj (nth k x Tzero) * nth k y Tzero)%T) (seq 0 n))
       Tzero) /\
  (forall (T : Type) (ops : Scalar T) (R : RealScalar T)
          (n : nat) (x y : list T),
     InnerProd n x 1 y 1 =
     fold_left Tadd
       (map (fun k => (nth k x Tzero * nth k y Tzero)%T) (seq 0 n)) Tzero /\
     Tle Tzero (InnerProd n x 1 x 1)) /\
  (forall (T : Type) (ops : Scalar T) (E : ExactScalar T)
          (n : nat) (x y : list T),
     InnerProd n x 1 y 1 = Tconj (InnerProd n y 1 x 1)).
Proof.
  split; [|split].
  - intros T ops n x y. apply InnerProd_terms.
  - intros T ops R n x y. split.
    + apply InnerProd_real_terms.
    + apply InnerProd_from_nonneg. apply Tle_zero.
  - intros T ops E n x y. apply InnerProd_conj_sym.
Qed.

Lemma InnerProd_contract_witness :
  (Q2Qc 0 <= InnerProd 2 [qz 3; qz (-4)] 1 [qz 3; qz (-4)] 1)%Qc /\
  InnerProd 2 [ci 1 2; ci 0 1] 1 [ci 3 0; ci 1 (-1)] 1 =
  Tconj (InnerProd 2 [ci 3 0; ci 1 (-1)] 1 [ci 1 2; ci 0 1] 1).
Proof.
  split.
  - exact (proj2 (proj1 (proj2 InnerProd_contract) Qc Qc_Scalar Qc_Real
                   2 [qz 3; qz (-4)] [qz 3; qz (-4)])).
  - exact (proj2 (proj2 InnerProd_contract) QcC QcC_Scalar QcC_Exact
             2 [ci 1 2; ci 0 1] [ci 3 0; ci 1 (-1)]).
Defined.

(** The complex product really conjugates: the product of [[i]] with
    [[1]] is [-i], and the product of [[1]] with [[i]] is [i]. *)
Lemma InnerProd_complex_example :
  InnerProd 1 [ci 0 1] 1 [ci 1 0] 1 = ci 0 (-1) /\
  InnerProd 1 [ci 1 0] 1 [ci 0 1] 1 = ci 0 1.
Proof.
  split; unfold ci; match goal with
  | |- ?l = mkC ?a ?b =>
      assert (Hre : re l = a) by (apply Qc_is_canon; vm_compute; reflexivity);
      assert (Him : im l = b) by (apply Qc_is_canon; vm_compute; reflexivity);
      destruct l; simpl in *; congruence
  end.
Qed.

(** ** The call on raw memory: what it writes *)

Lemma for_loop_invariant {St : Type} (P : St -> Prop) (n : nat)
    (body : nat -> St -> St) (s : St) :
  P s -> (forall i s', i < n -> P s' -> P (body i s')) ->
  P (for_loop n body s).
Proof.
  intros Hs Hbody. induction n as [|n IH]; simpl; [exact Hs|].
  apply Hbody; [lia|]. apply IH. intros i s' Hi. apply Hbody. lia.
Qed.

Lemma for_loop_related {S1 S2 : Type} (R : S1 -> S2 -> Prop) (n : nat)
    (f : nat -> S1 -> S1) (g : nat -> S2 -> S2) (s1 : S1) (s2 : S2) :
  R s1 s2 ->
  (forall i a b, i < n -> R a b -> R (f i a) (g i b)) ->
  R (for_loop n f s1) (for_loop n g s2).
Proof.
  intros Hs Hstep. induction n as [|n IH]; simpl; [exact Hs|].
  apply Hstep; [lia|]. apply IH. intros i a b Hi. apply Hstep. lia.
Qed.

Lemma in_block_spec (base len a : nat) :
  in_block base len a = true <-> base <= a < base + len.
Proof.
  unfold in_block. rewrite andb_true_iff, Nat.leb_le, Nat.ltb_lt. tauto.
Qed.

Lemma in_block_offset (base len o : nat) :
  o < len -> in_block base len (base + o) = true.
Proof. intros Ho. apply in_block_spec. lia. Qed.

Lemma apart_spec (a n b m : nat) :
  apart a n b m = true -> forall o, o < n -> in_block b m (a + o) = false.
Proof.
  unfold apart. rewrite orb_true_iff, !Nat.leb_le. intros Hd o Ho.
  destruct (in_block b m (a + o)) eqn:E; auto.
  apply in_block_spec in E. lia.
Qed.

Section RawFacts.

Context {T : Type} `{Scalar T}.

Lemma poke_eq (h : Heap T) (a : addr) (v : T) : poke h a v a = v.
Proof. unfold poke. now rewrite Nat.eqb_refl. Qed.

Lemma poke_ne (h : Heap T) (a x : addr) (v : T) :
  x <> a -> poke h a v x = h x.
Proof.
  intros Hx. unfold poke. destruct (Nat.eqb_spec x a); congruence.
Qed.

Lemma poke_range_out (l : list T) :
  forall (h : Heap T) (a x : addr),
    x < a \/ a + length l <= x -> poke_range h a l x = h x.
Proof.
  induction l as [|v l IH]; intros h a x Hx; simpl in *; auto.
  rewrite IH by lia. apply poke_ne. lia.
Qed.

Lemma poke_range_in (l : list T) :
  forall (h : Heap T) (a i : nat) (d : T),
    i < length l -> poke_range h a l (a + i) = nth i l d.
Proof.
  induction l as [|v l IH]; intros h a i d Hi; simpl in *; [lia|].
  destruct i as [|i].
  - rewrite poke_range_out by lia. rewrite Nat.add_0_r. apply poke_eq.
  - replace (a + S i) with (S a + i) by lia. apply IH. lia.
Qed.

Lemma length_peek_range (h : Heap T) (a n : nat) :
  length (peek_range h a n) = n.
Proof. unfold peek_range. now rewrite length_map, length_seq. Qed.

Lemma nth_peek_range (h : Heap T) (a n i : nat) (d : T) :
  i < n -> nth i (peek_range h a n) d = h (a + i).
Proof.
  intros Hi. unfold peek_range.
  rewrite (nth_indep _ d (h (a + 0))) by now rewrite length_map, length_seq.
  rewrite (map_nth (fun i => h (a + i)) (seq 0 n) 0 i).
  now rewrite seq_nth.
Qed.

Lemma peek_range_ext (h1 h2 : Heap T) (a n : nat) :
  (forall i, i < n -> h1 (a + i) = h2 (a + i)) ->
  peek_range h1 a n = peek_range h2 a n.
Proof.
  intros E. unfold peek_range. apply map_ext_in.
  intros i Hi. apply in_seq in Hi. apply E. lia.
Qed.

Lemma peek_range_eq (h : Heap T) (a n : nat) (l : list T) :
  length l = n ->
  (forall i, i < n -> h (a + i) = nth i l Tzero) ->
  peek_range h a n = l.
Proof.
  intros Hl E. apply (nth_ext _ _ Tzero Tzero).
  - now rewrite length_peek_range.
  - intros i Hi. rewrite length_peek_range in Hi.
    rewrite nth_peek_range by exact Hi. now apply E.
Qed.

Lemma same_outside_refl (W : addr -> bool) (h : Heap T) :
  same_outside W h h.
Proof. intros a _. reflexivity. Qed.

Lemma same_outside_poke (W : addr -> bool) (h h' : Heap T)
    (a : addr) (v : T) :
  W a = true -> same_outside W h h' -> same_outside W h (poke h' a v).
Proof.
  intros Ha Hh x Hx. rewrite poke_ne; [now apply Hh|].
  intros ->. congruence.
Qed.

Lemma same_outside_poke_range (W : addr -> bool) (l : list T) :
  forall (h h' : Heap T) (a : addr),
    (forall i, i < length l -> W (a + i) = true) ->
    same_outside W h h' -> same_outside W h (poke_range h' a l).
Proof.
  induction l as [|v l IH]; intros h h' a Ha Hh; simpl; auto.
  apply IH.
  - intros i Hi. replace (S a + i) with (a + S i) by lia.
    apply Ha. simpl. lia.
  - apply same_outside_poke; auto.
    rewrite <- (Nat.add_0_r a). apply Ha. simpl. lia.
Qed.

Section Frame.

Variable e : DIIS_at.
Variable B : addr.
Variable N : nat.

Hypothesis HN : N = nExtrap_at e + 1.

Lemma written_B (o : nat) : o < N * N -> written e B (B + o) = true.
Proof.
  intros Ho. unfold written. rewrite <- HN.
  now rewrite in_block_offset.
Qed.

Lemma written_coeffs (o : nat) :
  o < N -> written e B (coeffs_at e + o) = true.
Proof.
  intros Ho. unfold written. rewrite <- HN.
  rewrite (in_block_offset (coeffs_at e) Ho). apply orb_true_r.
Qed.

Lemma accumulate_at_frame (h0 h : Heap T) :
  same_outside (written e B) h0 h ->
  same_outside (written e B) h0 (accumulate_at e N B h).
Proof.
  intros Hh. unfold accumulate_at.
  apply for_loop_invariant; [exact Hh|]. intros i h1 _ H1.
  apply for_loop_invariant; [exact H1|]. intros j h2 Hj H2.
  apply for_loop_invariant; [exact H2|]. intros k h3 Hk H3.
  apply same_outside_poke; [|exact H3].
  apply written_B. apply offset_lt; lia.
Qed.

Lemma mirror_at_frame (h0 h : Heap T) :
  same_outside (written e B) h0 h ->
  same_outside (written e B) h0 (mirror_at (nExtrap_at e) N B h).
Proof.
  intros Hh. unfold mirror_at.
  apply for_loop_invariant; [exact Hh|]. intros j h1 Hj H1.
  apply for_loop_invariant; [exact H1|]. intros k h2 Hk H2.
  apply same_outside_poke; [|exact H2].
  apply written_B. apply offset_lt; lia.
Qed.

Lemma border_at_frame (h0 h : Heap T) :
  same_outside (written e B) h0 h ->
  same_outside (written e B) h0 (border_at (nExtrap_at e) N B h).
Proof.
  intros Hh. unfold border_at.
  apply for_loop_invariant; [exact Hh|]. intros l h1 Hl H1.
  apply same_outside_poke; [apply written_B; apply offset_lt; lia|].
  apply same_outside_poke; [|exact H1].
  apply written_B. apply offset_lt; lia.
Qed.

End Frame.

Lemma gesv_at_eq (h : Heap T) (N : nat) (A b : addr) :
  gesv_at h N A b =
  (poke_range h b
     (fst (gesv N (peek_range h A (N * N)) (peek_range h b N))),
   snd (gesv N (peek_range h A (N * N)) (peek_range h b N))).
Proof.
  unfold gesv_at. now destruct (gesv N _ _).
Qed.

Lemma extrapolate_at_eq (h : Heap T) (e : DIIS_at) (B : addr) :
  extrapolate_at h e B =
  let N := nExtrap_at e + 1 in
  let h1 := init_rhs_at e (assemble_at e B h) in
  let r := gesv N (peek_range h1 B (N * N))
                  (peek_range h1 (coeffs_at e) N) in
  ((snd r =? 0)%Z, (poke_range h1 (coeffs_at e) (fst r), e)).
Proof.
  unfold extrapolate_at. cbv zeta. rewrite gesv_at_eq.
  now rewrite negb_involutive.
Qed.

Lemma assemble_at_frame (e : DIIS_at) (B : addr) (h : Heap T) :
  same_outside (written e B) h (assemble_at e B h).
Proof.
  unfold assemble_at. cbv zeta.
  assert (HN : nExtrap_at e + 1 = nExtrap_at e + 1) by reflexivity.
  apply same_outside_poke;
    [apply (written_B e B HN); apply offset_lt; lia|].
  apply (@border_at_frame e B _ HN), (@mirror_at_frame e B _ HN),
    (@accumulate_at_frame e B _ HN).
  apply same_outside_poke_range; [|apply same_outside_refl].
  intros i Hi. rewrite repeat_length in Hi. now apply (written_B e B HN).
Qed.

Lemma init_rhs_at_frame (e : DIIS_at) (B : addr) (h0 h : Heap T) :
  same_outside (written e B) h0 h ->
  same_outside (written e B) h0 (init_rhs_at e h).
Proof.
  intros Hh. unfold init_rhs_at. cbv zeta.
  assert (HN : nExtrap_at e + 1 = nExtrap_at e + 1) by reflexivity.
  apply same_outside_poke; [apply (written_coeffs e B HN); lia|].
  apply same_outside_poke_range; [|exact Hh].
  intros i Hi. rewrite repeat_length in Hi.
  now apply (written_coeffs e B HN).
Qed.

(** Everything a call writes lies in the block of [B] or in the storage
    of [coeffs]. *)
Lemma extrapolate_at_frame (h : Heap T) (e : DIIS_at) (B : addr) :
  same_outside (written e B) h (fst (snd (extrapolate_at h e B))).
Proof.
  rewrite extrapolate_at_eq. cbv zeta. simpl.
  apply same_outside_poke_range.
  - intros i Hi. rewrite gesv_length in Hi by apply length_peek_range.
    now apply (written_coeffs e B (eq_refl (nExtrap_at e + 1))).
  - apply init_rhs_at_frame, assemble_at_frame.
Qed.

End RawFacts.

(** ** The two models of the call agree *)

Section Refinement.

Context {T : Type} `{Scalar T}.

Lemma InnerProd_at_from_agree (h : Heap T) (x y : addr) (X Y : list T)
    (n : nat) :
  forall ix iy acc,
    (forall o, ix <= o < ix + n -> h (x + o) = nth o X Tzero) ->
    (forall o, iy <= o < iy + n -> h (y + o) = nth o Y Tzero) ->
    InnerProd_at_from h n x ix 1 y iy 1 acc =
    InnerProd_from n X ix 1 Y iy 1 acc.
Proof.
  induction n as [|n IH]; intros ix iy acc Hx Hy; simpl; [reflexivity|].
  rewrite (Hx ix) by lia. rewrite (Hy iy) by lia.
  apply IH; intros o Ho; [apply Hx | apply Hy]; lia.
Qed.

Variable h : Heap T.
Variable e : DIIS_at.
Variable B : addr.
Variable m : Memory T.
Variable d : DIIS T.
Variable N : nat.

Hypothesis HN : N = nExtrap_at e + 1.
Hypothesis En : nExtrap d = nExtrap_at e.
Hypothesis Em : nMat d = nMat_at e.
Hypothesis Eo : OSize d = OSize_at e.
Hypothesis Ec : length (coeffs d) = nExtrap d + 1.
Hypothesis Hfresh : fresh_block e B = true.
Hypothesis Hmetric :
  forall k i, k < nExtrap d -> i < nMat d ->
    metric m d k i = peek_range h (slot_at e k i) (OSize_at e).

Lemma holds_cell (h' : Heap T) (L : list T) (p : nat) :
  block_holds h B (N * N) h' L -> p < N * N ->
  h' (B + p) = nth p L Tzero.
Proof.
  intros (E & _) Hp. rewrite <- E. now rewrite nth_peek_range.
Qed.

Lemma holds_poke (h' : Heap T) (L : list T) (p : nat) (v : T) :
  block_holds h B (N * N) h' L -> p < N * N ->
  block_holds h B (N * N) (poke h' (B + p) v) (vset L p v).
Proof.
  intros HL Hp. pose proof HL as (E & S). split.
  - assert (Len : length L = N * N)
      by (rewrite <- E; apply length_peek_range).
    apply (nth_ext _ _ Tzero Tzero).
    + now rewrite length_peek_range, length_vset.
    + intros i Hi. rewrite length_peek_range in Hi.
      rewrite nth_peek_range by exact Hi.
      destruct (Nat.eq_dec i p) as [->|Hne].
      * rewrite poke_eq, nth_vset_eq; auto. lia.
      * rewrite poke_ne by lia. rewrite nth_vset_ne by auto.
        now apply holds_cell.
  - apply same_outside_poke; auto. now apply in_block_offset.
Qed.

Lemma buffers_apart (k i o : nat) :
  k < nExtrap_at e -> i < nMat_at e -> o < OSize_at e ->
  in_block B (N * N) (slot_at e k i + o) = false.
Proof.
  intros Hk Hi Ho. unfold fresh_block in Hfresh. cbv zeta in Hfresh.
  rewrite <- HN in Hfresh.
  apply andb_true_iff in Hfresh. destruct Hfresh as (_ & Hb).
  rewrite forallb_forall in Hb.
  specialize (Hb k ltac:(apply in_seq; lia)).
  rewrite forallb_forall in Hb.
  specialize (Hb i ltac:(apply in_seq; lia)).
  now apply (@apart_spec _ _ _ _ Hb).
Qed.

Lemma holds_buffer (h' : Heap T) (L : list T) (k i o : nat) :
  block_holds h B (N * N) h' L ->
  k < nExtrap_at e -> i < nMat_at e -> o < OSize_at e ->
  h' (slot_at e k i + o) = nth o (metric m d k i) Tzero.
Proof.
  intros (_ & S) Hk Hi Ho.
  rewrite (S _ (buffers_apart Hk Hi Ho)).
  rewrite Hmetric by lia. now rewrite nth_peek_range.
Qed.

Lemma holds_InnerProd (h' : Heap T) (L : list T) (i j k : nat) :
  block_holds h B (N * N) h' L ->
  i < nMat_at e -> j < nExtrap_at e -> k < nExtrap_at e ->
  InnerProd_at h' (OSize_at e) (slot_at e k i) 1 (slot_at e j i) 1 =
  pair_product m d i j k.
Proof.
  intros HL Hi Hj Hk. unfold pair_product, InnerProd, InnerProd_at.
  rewrite Eo.
  apply InnerProd_at_from_agree; intros o Ho;
    apply (holds_buffer HL); auto; lia.
Qed.

Lemma accumulate_refines (h' : Heap T) (L : list T) :
  block_holds h B (N * N) h' L ->
  block_holds h B (N * N) (accumulate_at e N B h') (accumulate m d N L).
Proof.
  intros HL. unfold accumulate_at, accumulate. rewrite En, Em.
  apply for_loop_related; [exact HL|]. intros i h1 L1 Hi H1.
  apply for_loop_related; [exact H1|]. intros j h2 L2 Hj H2.
  apply for_loop_related; [exact H2|]. intros k h3 L3 Hk H3.
  assert (Hp : k + j * N < N * N) by (apply offset_lt; lia).
  rewrite (holds_cell H3 Hp).
  rewrite (@holds_InnerProd h3 L3 i j k) by (auto; lia).
  now apply holds_poke.
Qed.

Lemma mirror_refines (h' : Heap T) (L : list T) :
  block_holds h B (N * N) h' L ->
  block_holds h B (N * N) (mirror_at (nExtrap_at e) N B h')
    (mirror (nExtrap_at e) N L).
Proof.
  intros HL. unfold mirror_at, mirror.
  apply for_loop_related; [exact HL|]. intros j h1 L1 Hj H1.
  apply for_loop_related; [exact H1|]. intros k h2 L2 Hk H2.
  assert (Hp : k + j * N < N * N) by (apply offset_lt; lia).
  rewrite (holds_cell H2 Hp).
  apply holds_poke; auto. apply offset_lt; lia.
Qed.

Lemma border_refines (h' : Heap T) (L : list T) :
  block_holds h B (N * N) h' L ->
  block_holds h B (N * N) (border_at (nExtrap_at e) N B h')
    (border (nExtrap_at e) N L).
Proof.
  intros HL. unfold border_at, border.
  apply for_loop_related; [exact HL|]. intros l h1 L1 Hl H1.
  apply holds_poke; [|apply offset_lt; lia].
  apply holds_poke; auto. apply offset_lt; lia.
Qed.

(** After the assembly the block of [B] holds the matrix of the
    functional model. *)
Lemma assemble_refines :
  block_holds h B (N * N) (assemble_at e B h) (assemble_B m d).
Proof.
  unfold assemble_at, assemble_B. cbv zeta. rewrite En, <- HN.
  apply holds_poke; [|apply offset_lt; lia].
  apply border_refines, mirror_refines, accumulate_refines.
  split.
  - apply peek_range_eq; [apply repeat_length|]. intros i Hi.
    apply poke_range_in. now rewrite repeat_length.
  - apply same_outside_poke_range; [|apply same_outside_refl].
    intros i Hi. rewrite repeat_length in Hi. now apply in_block_offset.
Qed.

Lemma coeffs_apart (o : nat) :
  o < N -> in_block B (N * N) (coeffs_at e + o) = false.
Proof.
  intros Ho. unfold fresh_block in Hfresh. cbv zeta in Hfresh.
  rewrite <- HN in Hfresh.
  apply andb_true_iff in Hfresh. destruct Hfresh as (Hc & _).
  unfold apart in Hc.
  destruct (in_block B (N * N) (coeffs_at e + o)) eqn:E; auto.
  apply in_block_spec in E.
  apply orb_true_iff in Hc. rewrite !Nat.leb_le in Hc. lia.
Qed.

(** Before the solve the storage of [coeffs] holds the right-hand side
    and the block of [B] still the matrix. *)
Lemma init_rhs_refines :
  peek_range (init_rhs_at e (assemble_at e B h)) B (N * N) =
  assemble_B m d /\
  peek_range (init_rhs_at e (assemble_at e B h)) (coeffs_at e) N =
  init_rhs d.
Proof.
  pose proof assemble_refines as (EB & _). split.
  - rewrite <- EB. apply peek_range_ext. intros i Hi.
    unfold init_rhs_at. cbv zeta. rewrite <- HN.
    rewrite poke_ne.
    + apply poke_range_out. rewrite repeat_length.
      destruct (in_block (coeffs_at e) N (B + i)) eqn:E.
      * apply in_block_spec in E.
        pose proof (coeffs_apart (o := B + i - coeffs_at e) ltac:(lia)) as F.
        replace (coeffs_at e + (B + i - coeffs_at e)) with (B + i) in F
          by lia.
        rewrite in_block_offset in F by exact Hi. discriminate.
      * destruct (Nat.lt_ge_cases (B + i) (coeffs_at e)); [now left|right].
        destruct (Nat.lt_ge_cases (B + i) (coeffs_at e + N)); [|lia].
        exfalso. assert (in_block (coeffs_at e) N (B + i) = true)
          by (apply in_block_spec; lia). congruence.
    + intros F.
      pose proof (coeffs_apart (o := nExtrap_at e) ltac:(lia)) as G.
      rewrite <- F, in_block_offset in G by exact Hi. discriminate.
  - rewrite (init_rhs_spec d Ec), En.
    assert (Len : length (repeat (@Tzero T _) (nExtrap_at e)
                            ++ [(- Tone)%T]) = N).
    { rewrite length_app, repeat_length. simpl. lia. }
    apply peek_range_eq; [exact Len|].
    intros i Hi. unfold init_rhs_at. cbv zeta. rewrite <- HN.
    destruct (Nat.eq_dec i (nExtrap_at e)) as [->|Hne].
    + rewrite poke_eq. rewrite app_nth2 by (rewrite repeat_length; lia).
      rewrite repeat_length, Nat.sub_diag. reflexivity.
    + rewrite poke_ne by lia.
      rewrite (poke_range_in (repeat Tzero N) _ _ Tzero)
        by now rewrite repeat_length.
      rewrite app_nth1 by (rewrite repeat_length; lia).
      now rewrite !nth_repeat.
Qed.

End Refinement.

(** When the block of [B] is fresh, the call on raw memory returns the
    flag of the functional model and leaves its coefficients in the
    storage of [coeffs]. *)
Lemma extrapolate_at_refines {T : Type} `{Scalar T} (h : Heap T)
    (e : DIIS_at) (B : addr) (m : Memory T) (d : DIIS T) :
  nExtrap d = nExtrap_at e ->
  nMat d = nMat_at e ->
  OSize d = OSize_at e ->
  length (coeffs d) = nExtrap d + 1 ->
  fresh_block e B = true ->
  (forall k i, k < nExtrap d -> i < nMat d ->
     metric m d k i = peek_range h (slot_at e k i) (OSize_at e)) ->
  fst (extrapolate_at h e B) = fst (extrapolate m d) /\
  peek_range (fst (snd (extrapolate_at h e B))) (coeffs_at e)
    (nExtrap_at e + 1) =
  coeffs (snd (snd (extrapolate m d))).
Proof.
  intros En Em Eo Ec Hfresh Hmetric.
  rewrite extrapolate_at_eq, extrapolate_eq. cbv zeta.
  destruct (@init_rhs_refines _ _ h e B m d (nExtrap_at e + 1)
              eq_refl En Em Eo Ec Hfresh Hmetric) as (EB & Er).
  rewrite EB, Er, En. simpl. split.
  - reflexivity.
  - set (x := fst (gesv (nExtrap_at e + 1) (assemble_B m d) (init_rhs d))).
    assert (Lx : length x = nExtrap_at e + 1).
    { apply gesv_length. rewrite <- Er. apply length_peek_range. }
    apply peek_range_eq; [exact Lx|].
    intros i Hi. apply poke_range_in. now rewrite Lx.
Qed.

(** C8. A call writes nothing but its own scratch and [coeffs]: every
    cell of memory outside the block of the local [B] and outside the
    storage of [coeffs] holds after the call what it held before; so
    every history buffer that lies outside these two blocks is
    unchanged, and the fields [nExtrap], [nMat], [OSize] and
    [errorMetric] are the ones the call found. *)
Theorem extrapolate_frame :
  forall (T : Type) (ops : Scalar T) (h : Heap T) (e : DIIS_at) (B : addr),
    let h' := fst (snd (extrapolate_at h e B)) in
    let e' := snd (snd (extrapolate_at h e B)) in
    (forall a, written e B a = false -> h' a = h a) /\
    (forall k i,
       (forall o, o < OSize_at e ->
          written e B (slot_at e k i + o) = false) ->
       peek_range h' (slot_at e k i) (OSize_at e) =
       peek_range h (slot_at e k i) (OSize_at e)) /\
    nExtrap_at e' = nExtrap_at e /\
    nMat_at e' = nMat_at e /\
    OSize_at e' = OSize_at e /\
    errorMetric_at e' = errorMetric_at e.
Proof.
  intros T ops h e B h' e'.
  pose proof (extrapolate_at_frame h e B) as F. fold h' in F.
  assert (Ee : e' = e).
  { unfold e'. rewrite extrapolate_at_eq. reflexivity. }
  split; [exact F|]. split.
  - intros k i Hb. apply peek_range_ext. intros o Ho.
    apply F. now apply Hb.
  - rewrite Ee. repeat split.
Qed.

(** On the orthonormal scenario laid out in memory the two cells of [e1],
    at addresses [2] and [3], are outside what the call writes, and the
    buffer holds after the call what it held before. *)
Lemma extrapolate_frame_witness :
  (forall o, o < OSize_at orthonormal_at ->
     written orthonormal_at 20 (slot_at orthonormal_at 1 0 + o) = false) /\
  peek_range (fst (snd (extrapolate_at orthonormal_heap orthonormal_at 20)))
    (slot_at orthonormal_at 1 0) (OSize_at orthonormal_at) =
  peek_range orthonormal_heap (slot_at orthonormal_at 1 0)
    (OSize_at orthonormal_at).
Proof.
  assert (Hb : forall o, o < OSize_at orthonormal_at ->
            written orthonormal_at 20 (slot_at orthonormal_at 1 0 + o)
            = false).
  { intros [|[|o]] Ho; simpl in Ho; try lia; reflexivity. }
  split; [exact Hb|].
  exact (proj1 (proj2 (@extrapolate_frame Qc Qc_Scalar orthonormal_heap
                         orthonormal_at 20)) 1 0 Hb).
Defined.

(** The condition is needed: a history pointer that is the storage of
    [coeffs] itself names a buffer that the call overwrites with the
    coefficients. *)
Lemma aliased_buffer_is_overwritten :
  slot_at aliased_at 0 0 = coeffs_at aliased_at /\
  peek_range orthonormal_heap (slot_at aliased_at 0 0) 2 = [qz 1; qz 0] /\
  peek_range (fst (snd (extrapolate_at orthonormal_heap aliased_at 20)))
    (slot_at aliased_at 0 0) 2 = [half; half].
Proof.
  split; [reflexivity|]. split; qc_list.
Qed.

(** The orthonormal scenario on raw memory: the flag and the coefficients
    are those of the functional model. *)
Lemma extrapolate_at_orthonormal :
  fst (extrapolate_at orthonormal_heap orthonormal_at 20) = true /\
  peek_range (fst (snd (extrapolate_at orthonormal_heap orthonormal_at 20)))
    10 3 = [half; half; half].
Proof.
  assert (Hm : forall k i, k < 2 -> i < 1 ->
            metric orthonormal two_slots k i =
            peek_range orthonormal_heap (slot_at orthonormal_at k i) 2).
  { intros [|[|k]] [|i] Hk Hi; try lia; qc_list. }
  destruct (@extrapolate_at_refines Qc Qc_Scalar orthonormal_heap
              orthonormal_at 20 orthonormal two_slots
              eq_refl eq_refl eq_refl eq_refl eq_refl Hm) as (Ef & Ec).
  split.
  - rewrite Ef. vm_compute. reflexivity.
  - change (nExtrap_at orthonormal_at + 1) with 3 in Ec.
    change (coeffs_at orthonormal_at) with 10 in Ec. rewrite Ec. qc_list.
Qed.

(** ** The option equivalences *)

Lemma DIIS_ALG_eqb_eq (a b : DIIS_ALG) :
  DIIS_ALG_eqb a b = true <-> a = b.
Proof.
  destruct a as [|s], b as [|t]; simpl; split; try congruence; auto.
  - intros E. apply Nat.eqb_eq in E. now subst.
  - intros E. injection E as ->. apply Nat.eqb_refl.
Qed.

Lemma equivalences_hold (c : SCFControls) :
  let c' := equivalences c in
  (PrimFloat.eqb (dampStartParam c') 0%float = true -> doDamp c' = false) /\
  (doDamp c' = false -> diisAlg c' = NONE -> doExtrap c' = false).
Proof.
  unfold equivalences.
  destruct (PrimFloat.eqb (dampStartParam c) 0%float) eqn:Ed;
    cbv zeta; simpl doDamp; simpl diisAlg.
  - simpl. destruct (DIIS_ALG_eqb (diisAlg c) NONE) eqn:Ea; simpl.
    + split; auto.
    + split; auto. intros _ En. apply DIIS_ALG_eqb_eq in En. congruence.
  - destruct (doDamp c) eqn:Dd; simpl.
    + rewrite Dd, Ed. split; congruence.
    + destruct (DIIS_ALG_eqb (diisAlg c) NONE) eqn:Ea; simpl.
      * rewrite Ed. split; congruence.
      * rewrite Ed, Dd. split; [congruence|].
        intros _ En. apply DIIS_ALG_eqb_eq in En. congruence.
Qed.

(** C10, as the code has it.  When the input has an [SCF] section and the
    call returns, the controls satisfy both equivalences, whatever the
    input asked for: a damping parameter equal to zero means [doDamp] is
    off, and [doDamp] off with [diisAlg == NONE] means [doExtrap] is off.
    Without an [SCF] section the call returns at once and leaves the
    controls as they were. *)
Theorem CQSCFOptions_equivalences :
  forall (split : string -> list string) (stod : string -> option float)
         (input : CQInputFile) (ss : SingleSlaterBase)
         (pert : EMPerturbation),
    (containsSection input "SCF" = true ->
     forall ss' pert',
       CQSCFOptions split stod input ss pert = Returns (ss', pert') ->
       let c := scfControls ss' in
       (PrimFloat.eqb (dampStartParam c) 0%float = true ->
        doDamp c = false) /\
       (doDamp c = false -> diisAlg c = NONE -> doExtrap c = false)) /\
    (containsSection input "SCF" = false ->
     CQSCFOptions split stod input ss pert = Returns (ss, pert)).
Proof.
  intros split stod input ss pert. unfold CQSCFOptions. split.
  - intros Hs ss' pert' E. rewrite Hs in E. simpl in E.
    destruct (handleField split stod input pert); try discriminate.
    injection E as <- <-. apply equivalences_hold.
  - intros Hs. now rewrite Hs.
Qed.

Lemma CQSCFOptions_equivalences_witness :
  containsSection contrary_input "SCF" = true /\
  exists ss',
    CQSCFOptions (fun _ => []) (fun _ => None) contrary_input
      usual_controls [] = Returns (ss', []) /\
    doDamp (scfControls ss') = false /\
    doExtrap (scfControls ss') = false.
Proof.
  split; [reflexivity|].
  exists (mkSingleSlaterBase
            (equivalences (parse_keywords contrary_input
                             (scfControls usual_controls)))).
  split; [reflexivity|].
  destruct (proj1 (CQSCFOptions_equivalences (fun _ => []) (fun _ => None)
                     contrary_input usual_controls [])
                  eq_refl _ [] eq_refl) as (Hd & He).
  assert (D : doDamp (equivalences (parse_keywords contrary_input
                                      (scfControls usual_controls)))
              = false) by (apply Hd; reflexivity).
  split; [exact D|].
  apply He; [exact D | reflexivity].
Defined.

(** C10 as stated fails: without an [SCF] section the call returns and
    the controls keep a zero damping parameter with [doDamp] on. *)
Lemma CQSCFOptions_counterexample :
  ~ (forall ss' pert',
       CQSCFOptions (fun _ => []) (fun _ => None) empty_input
         zero_damping [] = Returns (ss', pert') ->
       let c := scfControls ss' in
       (PrimFloat.eqb (dampStartParam c) 0%float = true ->
        doDamp c = false) /\
       (doDamp c = false -> diisAlg c = NONE -> doExtrap c = false)).
Proof.
  intros Hc.
  destruct (Hc zero_damping [] eq_refl) as (H1 & _).
  specialize (H1 eq_refl). discriminate.
Qed.

(** * Further properties of the engine *)

(** ** The life of an engine *)

Section EngineLife.

Context {T : Type} {ops : Scalar T}.

Lemma assemble_B_set_coeffs (m : Memory T) (d : DIIS T) (c : list T) :
  assemble_B m (set_coeffs d c) = assemble_B m d.
Proof.
  apply assemble_B_ext; try reflexivity.
Qed.

Lemma init_rhs_set_coeffs (d : DIIS T) (c : list T) :
  length (coeffs d) = nExtrap d + 1 -> length c = nExtrap d + 1 ->
  init_rhs (set_coeffs d c) = init_rhs d.
Proof.
  intros HL Hc. rewrite (init_rhs_spec d HL).
  now rewrite (init_rhs_spec (set_coeffs d c) Hc).
Qed.

(** X1. An engine made by the constructor keeps its shape over any
    number of calls: the memory is the caller's, [coeffs] has
    [nExtrap + 1] entries, and the sizes and the history are those the
    constructor was given. *)
Theorem constructed_engine_invariant :
  forall (nE nM oS : nat) (eM : list (list ptr)) (m : Memory T) (k : nat),
    let s := calls k (m, DIIS_new nE nM oS eM) in
    fst s = m /\
    length (coeffs (snd s)) = nE + 1 /\
    nExtrap (snd s) = nE /\
    nMat (snd s) = nM /\
    OSize (snd s) = oS /\
    errorMetric (snd s) = eM.
Proof.
  intros nE nM oS eM m k. induction k as [|k IH]; cbv zeta.
  - simpl. repeat split; auto. apply repeat_length.
  - cbv zeta in IH. destruct IH as (Im & Ic & In & IM & IO & IE).
    change (calls (S k) (m, DIIS_new nE nM oS eM))
      with (snd (extrapolate (fst (calls k (m, DIIS_new nE nM oS eM)))
                             (snd (calls k (m, DIIS_new nE nM oS eM))))).
    set (sk := calls k (m, DIIS_new nE nM oS eM)) in *.
    assert (HL : length (coeffs (snd sk)) = nExtrap (snd sk) + 1)
      by (rewrite In; exact Ic).
    pose proof (extrapolate_length (fst sk) (snd sk) HL) as Hlen.
    rewrite In in Hlen.
    rewrite extrapolate_eq in *. simpl in *.
    repeat split; auto.
Qed.

(** X2. Calling again changes nothing: on an engine whose [coeffs] has
    the constructor's length, a second call returns the flag of the first
    and leaves the memory and the whole engine as the first call left
    them. *)
Theorem extrapolate_idempotent :
  forall (m : Memory T) (d : DIIS T),
    length (coeffs d) = nExtrap d + 1 ->
    extrapolate (fst (snd (extrapolate m d))) (snd (snd (extrapolate m d)))
    = extrapolate m d.
Proof.
  intros m d HL.
  pose proof (extrapolate_length m d HL) as Hlen.
  rewrite (extrapolate_eq m d) in *. simpl in *.
  rewrite extrapolate_eq. simpl.
  rewrite assemble_B_set_coeffs, init_rhs_set_coeffs by auto.
  reflexivity.
Qed.

Lemma fold_left_Tadd_nonneg {R : RealScalar T} (l : list T) (a : T) :
  Tle Tzero a -> (forall x, In x l -> Tle Tzero x) ->
  Tle Tzero (fold_left Tadd l a).
Proof.
  revert a; induction l as [|x l IH]; intros a Ha Hl; simpl; auto.
  apply IH.
  - apply Tle_add; auto. apply Hl. now left.
  - intros y Hy. apply Hl. now right.
Qed.

(** X3. Over a real scalar type the diagonal of the Gram block is
    non-negative, each cell being a sum of inner products of a buffer
    with itself. *)
Theorem gram_diagonal_nonneg :
  forall (R : RealScalar T) (m : Memory T) (d : DIIS T) (k : nat),
    k < nExtrap d ->
    Tle Tzero (entry (nExtrap d + 1) (assemble_B m d) k k).
Proof.
  intros R m d k Hk.
  destruct (assemble_B_spec m d) as (_ & B2 & _).
  rewrite B2 by lia. unfold gram_entry, Tsum.
  apply fold_left_Tadd_nonneg; [apply Tle_zero|].
  intros x Hx. apply in_map_iff in Hx. destruct Hx as (i & <- & _).
  apply InnerProd_from_nonneg. apply Tle_zero.
Qed.

End EngineLife.

(** ** The assembled system over exact scalars *)

Section GramFacts.

Context {T : Type} {ops : Scalar T} {E : ExactScalar T}.

Add Field Tfield5 : scalar_field.

Lemma conj_fold_left (l : list T) (a : T) :
  Tconj (fold_left Tadd l a) = fold_left Tadd (map Tconj l) (Tconj a).
Proof.
  revert a; induction l as [|x l IH]; intros a; simpl; auto.
  now rewrite IH, conj_add.
Qed.

(** X4. Over a real exact scalar type the mirror completes the Gram
    matrix: every cell of the block, below the diagonal too, is the sum
    over the tracked matrices of the inner products of its row slot with
    its column slot. *)
Theorem gram_block_is_gram_matrix :
  forall (R : RealScalar T) (m : Memory T) (d : DIIS T) (r c : nat),
    r < nExtrap d -> c < nExtrap d ->
    entry (nExtrap d + 1) (assemble_B m d) r c =
    Tsum (map (fun i => InnerProd (OSize d) (metric m d r i) 1
                          (metric m d c i) 1)
              (seq 0 (nMat d))).
Proof.
  intros R m d r c Hr Hc.
  destruct (assemble_B_spec m d) as (_ & B2 & B3 & _).
  destruct (Nat.le_gt_cases r c) as [Hle|Hgt].
  - now apply B2.
  - rewrite B3 by lia. rewrite B2 by lia. unfold gram_entry.
    f_equal. apply map_ext. intros i.
    rewrite (InnerProd_conj_sym (OSize d) (metric m d c i) (metric m d r i)).
    apply conj_real.
Qed.

(** X5. Over any exact scalar type a cell below the diagonal is the
    conjugate of the inner-product sum of its row slot with its column
    slot: the block is the transpose of the Hermitian Gram matrix. *)
Theorem gram_block_lower_is_conjugate :
  forall (m : Memory T) (d : DIIS T) (r c : nat),
    c < r -> r < nExtrap d ->
    entry (nExtrap d + 1) (assemble_B m d) r c =
    Tconj (Tsum (map (fun i => InnerProd (OSize d) (metric m d r i) 1
                                 (metric m d c i) 1)
                     (seq 0 (nMat d)))).
Proof.
  intros m d r c Hc Hr.
  destruct (assemble_B_spec m d) as (_ & B2 & B3 & _).
  rewrite B3 by lia. rewrite B2 by lia. unfold gram_entry, Tsum.
  rewrite conj_fold_left, conj_zero, map_map. f_equal.
  apply map_ext. intros i. apply InnerProd_conj_sym.
Qed.

(** A row of the bordered system, split at the multiplier. *)
Lemma dot_split_last (n : nat) :
  forall (f : nat -> T) (x : list T),
    length x = n + 1 ->
    dot (map f (seq 0 (n + 1))) x =
    (dot (map f (seq 0 n)) (firstn n x) + f n * nth n x Tzero)%T.
Proof.
  induction n as [|n IH]; intros f x Lx.
  - destruct x as [|x0 [|x1 x]]; simpl in Lx; try lia. simpl. ring.
  - destruct x as [|x0 x]; simpl in Lx; [lia|].
    change (seq 0 (S n + 1)) with (0 :: seq 1 (n + 1)).
    change (seq 0 (S n)) with (0 :: seq 1 n).
    rewrite <- !seq_shift, !map_cons, !map_map.
    simpl dot. simpl firstn. simpl nth.
    rewrite (IH (fun j => f (S j)) x) by lia. simpl dot. ring.
Qed.

Lemma nth_init_rhs_first (d : DIIS T) (i : nat) :
  length (coeffs d) = nExtrap d + 1 -> i < nExtrap d ->
  nth i (init_rhs d) Tzero = Tzero.
Proof.
  intros HL Hi. rewrite init_rhs_spec by auto.
  rewrite app_nth1 by (rewrite repeat_length; lia). apply nth_repeat.
Qed.

(** X6. The multiplier condition: over exact scalars, when the call
    succeeds every Gram row times the weights equals the last entry of
    [coeffs], the multiplier of the constraint. *)
Theorem extrapolate_stationary :
  forall (m : Memory T) (d : DIIS T) (i : nat),
    length (coeffs d) = nExtrap d + 1 ->
    fst (extrapolate m d) = true ->
    i < nExtrap d ->
    let c := coeffs (snd (snd (extrapolate m d))) in
    dot (map (fun j => entry (nExtrap d + 1) (assemble_B m d) i j)
             (seq 0 (nExtrap d)))
        (firstn (nExtrap d) c)
    = nth (nExtrap d) c Tzero.
Proof.
  intros m d i HL Ok Hi c.
  pose proof (extrapolate_true m d Ok) as Eg. fold c in Eg.
  destruct (@gesv_sound _ _ _ _ _ _ c (length_init_rhs d HL) Eg)
    as (Lc & Sc).
  specialize (Sc i ltac:(lia)).
  rewrite nth_init_rhs_first in Sc by auto.
  unfold row_dot in Sc. rewrite dot_split_last in Sc by auto.
  destruct (assemble_B_spec m d) as (_ & _ & _ & B4 & _).
  destruct (B4 i Hi) as (_ & Bin). rewrite Bin in Sc.
  set (g := dot _ _) in *.
  transitivity ((g + - Tone * nth (nExtrap d) c Tzero)
                + nth (nExtrap d) c Tzero)%T; [ring|].
  rewrite Sc. ring.
Qed.

(** X7. Over exact scalars, when the call succeeds [coeffs] is the only
    solution of the bordered system. *)
Theorem extrapolate_solution_unique :
  forall (m : Memory T) (d : DIIS T) (y : list T),
    length (coeffs d) = nExtrap d + 1 ->
    fst (extrapolate m d) = true ->
    length y = nExtrap d + 1 ->
    (forall i, i < nExtrap d + 1 ->
       row_dot (nExtrap d + 1) (assemble_B m d) i y =
       nth i (init_rhs d) Tzero) ->
    y = coeffs (snd (snd (extrapolate m d))).
Proof.
  intros m d y HL Ok Ly Hy.
  pose proof (extrapolate_true m d Ok) as Eg.
  eapply gesv_unique.
  - exact (length_init_rhs d HL).
  - exact Eg.
  - exact Ly.
  - exact Hy.
Qed.

(** X8. An empty history: over exact scalars, with [nExtrap = 0] the
    one-by-one matrix is the corner [0], the call returns [false] and
    [coeffs] is left as the right-hand side [[-1]]. *)
Theorem extrapolate_empty_history :
  forall (m : Memory T) (d : DIIS T),
    length (coeffs d) = nExtrap d + 1 ->
    nExtrap d = 0 ->
    extrapolate m d = (false, (m, set_coeffs d [(- Tone)%T])).
Proof.
  intros m d HL Hn.
  assert (Hs : singular (nExtrap d + 1) (assemble_B m d)).
  { destruct (assemble_B_spec m d) as (_ & _ & _ & _ & B5).
    rewrite Hn in *. simpl in *.
    exists [Tone]. repeat split.
    - simpl. intros F. injection F as F. now apply Tone_neq_zero.
    - intros i Hi. assert (i = 0) by lia. subst i.
      unfold row_dot. simpl. rewrite B5. ring. }
  apply extrapolate_false_iff in Hs; auto.
  rewrite (extrapolate_failure m d Hs).
  rewrite (init_rhs_spec d HL), Hn. reflexivity.
Qed.

End GramFacts.

(** ** Degenerate and small histories *)

Section SmallHistories.

Context {T : Type} {ops : Scalar T} {E : ExactScalar T}.

Add Field Tfield6 : scalar_field.

Lemma Tsum_zeros (l : list nat) :
  Tsum (map (fun _ : nat => @Tzero T _) l) = Tzero.
Proof.
  unfold Tsum. induction l as [|a l IH]; simpl; auto.
  rewrite fold_left_Tadd, IH. ring.
Qed.

Lemma gram_entry_no_data (m : Memory T) (d : DIIS T) (k j : nat) :
  nMat d = 0 \/ OSize d = 0 -> gram_entry m d k j = Tzero.
Proof.
  intros [Hm|Ho]; unfold gram_entry.
  - rewrite Hm. reflexivity.
  - rewrite Ho. simpl. apply Tsum_zeros.
Qed.

(** X9. Nothing to accumulate: over exact scalars, when no matrix is
    tracked ([nMat = 0]) or the buffers are empty ([OSize = 0]) the Gram
    block is zero, and with two slots or more the call returns
    [false]. *)
Theorem extrapolate_no_data :
  forall (m : Memory T) (d : DIIS T),
    length (coeffs d) = nExtrap d + 1 ->
    nMat d = 0 \/ OSize d = 0 ->
    2 <= nExtrap d ->
    (forall r c, r < nExtrap d -> c < nExtrap d ->
       entry (nExtrap d + 1) (assemble_B m d) r c = Tzero) /\
    fst (extrapolate m d) = false.
Proof.
  intros m d HL Hz Hn.
  destruct (assemble_B_spec m d) as (_ & B2 & B3 & B4 & _).
  assert (Z : forall r c, r < nExtrap d -> c < nExtrap d ->
                entry (nExtrap d + 1) (assemble_B m d) r c = Tzero).
  { intros r c Hr Hc. destruct (Nat.le_gt_cases r c) as [Hle|Hgt].
    - rewrite B2 by lia. now apply gram_entry_no_data.
    - rewrite B3 by lia. rewrite B2 by lia. now apply gram_entry_no_data. }
  split; [exact Z|].
  apply extrapolate_false_iff; auto.
  apply (@equal_columns_singular _ _ _ _ _ 0 1); try lia.
  intros i Hi. destruct (Nat.eq_dec i (nExtrap d)) as [->|Hne].
  - destruct (B4 0) as (-> & _); [lia|].
    destruct (B4 1) as (-> & _); [lia|]. reflexivity.
  - rewrite !Z by lia. reflexivity.
Qed.

(** The cells and the right-hand side of the system of two slots. *)
Lemma two_slot_system (m : Memory T) (d : DIIS T) :
  length (coeffs d) = nExtrap d + 1 -> nExtrap d = 2 ->
  let B := assemble_B m d in
  entry 3 B 1 0 = entry 3 B 0 1 /\
  entry 3 B 2 0 = (- Tone)%T /\ entry 3 B 0 2 = (- Tone)%T /\
  entry 3 B 2 1 = (- Tone)%T /\ entry 3 B 1 2 = (- Tone)%T /\
  entry 3 B 2 2 = Tzero /\
  init_rhs d = [Tzero; Tzero; (- Tone)%T].
Proof.
  intros HL Hn B.
  destruct (assemble_B_spec m d) as (_ & _ & B3 & B4 & B5).
  pose proof (init_rhs_spec d HL) as Er.
  rewrite Hn in *. simpl in *.
  destruct (B4 0 ltac:(lia)) as (B20 & B02).
  destruct (B4 1 ltac:(lia)) as (B21 & B12).
  repeat split; auto; apply B3; lia.
Qed.

(** X10. Two slots: over exact scalars, with [a = B[0][0]],
    [b = B[0][1]], [c = B[1][1]] and [D = a - 2b + c], the call succeeds
    exactly when [D] is not zero, and then the weights are
    [(c - b) / D] and [(a - b) / D] and the multiplier is
    [(a c - b b) / D]. *)
Theorem two_slot_solution :
  forall (m : Memory T) (d : DIIS T),
    length (coeffs d) = nExtrap d + 1 ->
    nExtrap d = 2 ->
    let a := entry 3 (assemble_B m d) 0 0 in
    let b := entry 3 (assemble_B m d) 0 1 in
    let c := entry 3 (assemble_B m d) 1 1 in
    let D := (a - b - b + c)%T in
    (fst (extrapolate m d) = true <-> D <> Tzero) /\
    (D <> Tzero ->
     coeffs (snd (snd (extrapolate m d))) =
     [((c - b) / D)%T; ((a - b) / D)%T; ((a * c - b * b) / D)%T]).
Proof.
  intros m d HL Hn a b c D.
  destruct (two_slot_system m d HL Hn)
    as (B10 & B20 & B02 & B21 & B12 & B22 & Er).
  fold b in B10.
  assert (Reg : D <> Tzero -> fst (extrapolate m d) = true).
  { intros HD. destruct (fst (extrapolate m d)) eqn:Ef; auto.
    apply extrapolate_false_iff in Ef; auto.
    destruct Ef as (y & Ly & Ny & Ky). rewrite Hn in Ly, Ny, Ky.
    simpl in Ly, Ny, Ky. exfalso. apply Ny.
    destruct y as [|y0 [|y1 [|y2 [|y3 y]]]]; simpl in Ly; try lia.
    pose proof (Ky 0 ltac:(lia)) as K0.
    pose proof (Ky 1 ltac:(lia)) as K1.
    pose proof (Ky 2 ltac:(lia)) as K2.
    unfold row_dot in K0, K1, K2. simpl in K0, K1, K2.
    fold a b in K0. fold c in K1.
    rewrite B02 in K0. rewrite B10, B12 in K1. rewrite B20, B21, B22 in K2.
    assert (E0 : (D * y0)%T = Tzero).
    { transitivity
        ((a * y0 + (b * y1 + (- Tone * y2 + Tzero)))
         - (b * y0 + (c * y1 + (- Tone * y2 + Tzero)))
         + (b - c)
           * (- Tone * y0 + (- Tone * y1 + (Tzero * y2 + Tzero))))%T;
        [unfold D; ring|].
      rewrite K0, K1, K2. ring. }
    assert (Y0 : y0 = Tzero).
    { transitivity ((D * y0) / D)%T; [field; exact HD|].
      rewrite E0. field. exact HD. }
    subst y0.
    assert (Y1 : y1 = Tzero).
    { transitivity
        (- (- Tone * Tzero + (- Tone * y1 + (Tzero * y2 + Tzero))))%T;
        [ring|]. rewrite K2. ring. }
    subst y1.
    assert (Y2 : y2 = Tzero).
    { transitivity
        (- (a * Tzero + (b * Tzero + (- Tone * y2 + Tzero))))%T;
        [ring|]. rewrite K0. ring. }
    subst y2. reflexivity. }
  split; [split|].
  - intros Ok HD.
    assert (Hs : singular (nExtrap d + 1) (assemble_B m d)).
    { rewrite Hn. simpl.
      exists [Tone; (- Tone)%T; (a - b)%T]. repeat split.
      - intros F. injection F as F _. now apply Tone_neq_zero.
      - intros i Hi.
        assert (Hc : i = 0 \/ i = 1 \/ i = 2) by lia.
        destruct Hc as [-> | [-> | ->]]; unfold row_dot; simpl.
        + fold a b. rewrite B02. ring.
        + fold c. rewrite B10, B12.
          transitivity (- D)%T; [unfold D; ring|]. rewrite HD. ring.
        + rewrite B20, B21, B22. ring. }
    apply extrapolate_false_iff in Hs; auto. congruence.
  - exact Reg.
  - intros HD. symmetry.
    pose proof (extrapolate_true m d (Reg HD)) as Eg.
    rewrite Hn in Eg. simpl in Eg.
    apply (@gesv_unique _ _ _ 3 (assemble_B m d) (init_rhs d)); auto.
    + rewrite Er. reflexivity.
    + intros i Hi. rewrite Er.
      assert (Hc : i = 0 \/ i = 1 \/ i = 2) by lia.
      destruct Hc as [-> | [-> | ->]]; unfold row_dot; simpl.
      * fold a b. rewrite B02. field. exact HD.
      * fold c. rewrite B10, B12. field. exact HD.
      * rewrite B20, B21, B22. unfold D. field. exact HD.
Qed.

End SmallHistories.

(** ** Rescaling the error metrics *)

Section Rescaling.

Context {T : Type} {ops : Scalar T} {E : ExactScalar T}.

Add Field Tfield7 : scalar_field.

Lemma Tmul_nonzero (a b : T) : a <> Tzero -> b <> Tzero -> (a * b)%T <> Tzero.
Proof.
  intros Ha Hb Hab. apply Hb.
  transitivity ((a * b) / a)%T; [field; exact Ha|].
  rewrite Hab. field. exact Ha.
Qed.

Lemma conj_nonzero (s : T) : s <> Tzero -> Tconj s <> Tzero.
Proof.
  intros Hs Hc. apply Hs. rewrite <- (conj_invol s), Hc. apply conj_zero.
Qed.

Lemma nth_map_scale (s : T) (x : list T) (k : nat) :
  nth k (map (Tmul s) x) Tzero = (s * nth k x Tzero)%T.
Proof.
  revert k; induction x as [|a x IH]; intros [|k]; simpl; auto; ring.
Qed.

Lemma Tsum_scale (t : T) (f : nat -> T) (l : list nat) :
  Tsum (map (fun k => (t * f k)%T) l) = (t * Tsum (map f l))%T.
Proof.
  unfold Tsum. induction l as [|a l IH]; simpl; [ring|].
  rewrite fold_left_Tadd, IH. rewrite (fold_left_Tadd _ (Tzero + f a)%T).
  ring.
Qed.

Lemma InnerProd_scale (s : T) (n : nat) (x y : list T) :
  InnerProd n (map (Tmul s) x) 1 (map (Tmul s) y) 1 =
  (Tconj s * s * InnerProd n x 1 y 1)%T.
Proof.
  rewrite !InnerProd_terms. unfold dot_terms.
  rewrite <- Tsum_scale. f_equal. apply map_ext. intros k.
  rewrite !nth_map_scale, conj_mul. ring.
Qed.

Lemma dot_map_scale (t : T) (f : nat -> T) (l : list nat) :
  forall x, dot (map (fun j => (t * f j)%T) l) x = (t * dot (map f l) x)%T.
Proof.
  induction l as [|a l IH]; intros [|x0 x]; simpl; try ring.
  rewrite IH. ring.
Qed.

Lemma length_rescale (n : nat) (t : T) (x : list T) :
  length x = n + 1 -> length (rescale n t x) = n + 1.
Proof.
  intros Lx. unfold rescale. rewrite length_app, length_firstn. simpl. lia.
Qed.

Lemma firstn_rescale (n : nat) (t : T) (x : list T) :
  length x = n + 1 -> firstn n (rescale n t x) = firstn n x.
Proof.
  intros Lx. unfold rescale.
  rewrite firstn_app, length_firstn.
  replace (n - Nat.min n (length x)) with 0 by lia.
  rewrite firstn_firstn, Nat.min_id. simpl. apply app_nil_r.
Qed.

Lemma nth_rescale (n : nat) (t : T) (x : list T) :
  length x = n + 1 ->
  nth n (rescale n t x) Tzero = (t * nth n x Tzero)%T.
Proof.
  intros Lx. unfold rescale.
  rewrite app_nth2 by (rewrite length_firstn; lia).
  rewrite length_firstn. replace (n - Nat.min n (length x)) with 0 by lia.
  reflexivity.
Qed.

(** Two bordered matrices whose blocks differ by the factor [t]: a
    solution of the first, rescaled, solves the second. *)
Lemma scaled_system (n : nat) (A1 A2 : list T) (t : T) (x : list T)
    (r : nat -> T) :
  length x = n + 1 ->
  (forall i j, i < n -> j < n ->
     entry (n + 1) A2 i j = (t * entry (n + 1) A1 i j)%T) ->
  (forall i, i < n ->
     entry (n + 1) A1 i n = (- Tone)%T /\
     entry (n + 1) A2 i n = (- Tone)%T) ->
  (forall j, j < n -> entry (n + 1) A2 n j = entry (n + 1) A1 n j) ->
  entry (n + 1) A1 n n = Tzero -> entry (n + 1) A2 n n = Tzero ->
  (forall i, i < n -> r i = Tzero) ->
  (forall i, i < n + 1 -> row_dot (n + 1) A1 i x = r i) ->
  forall i, i < n + 1 -> row_dot (n + 1) A2 i (rescale n t x) = r i.
Proof.
  intros Lx Hblock Hcol Hrow H1 H2 Hr Hx i Hi.
  pose proof (Hx i Hi) as Hxi. unfold row_dot in *.
  rewrite dot_split_last in Hxi by auto.
  rewrite dot_split_last by (now apply length_rescale).
  rewrite firstn_rescale, nth_rescale by auto.
  destruct (Nat.eq_dec i n) as [->|Hne].
  - rewrite H1 in Hxi. rewrite H2.
    rewrite (map_ext_in _ (fun j => entry (n + 1) A1 n j)).
    + rewrite <- Hxi. ring.
    + intros j Hj. apply in_seq in Hj. apply Hrow. lia.
  - destruct (Hcol i ltac:(lia)) as (C1 & C2). rewrite C1 in Hxi. rewrite C2.
    rewrite (map_ext_in _ (fun j => (t * entry (n + 1) A1 i j)%T)).
    + rewrite dot_map_scale. rewrite (Hr i) in * by lia.
      set (g := dot _ _) in *.
      transitivity (t * (g + - Tone * nth n x Tzero))%T; [ring|].
      rewrite Hxi. ring.
    + intros j Hj. apply in_seq in Hj. apply Hblock; lia.
Qed.

Lemma rescale_zero (n : nat) (t : T) (x : list T) :
  length x = n + 1 -> t <> Tzero ->
  rescale n t x = repeat Tzero (n + 1) -> x = repeat Tzero (n + 1).
Proof.
  intros Lx Ht Ez.
  assert (F : firstn n x = repeat Tzero n).
  { rewrite <- (@firstn_rescale n t x Lx), Ez.
    rewrite repeat_app, firstn_app, repeat_length, Nat.sub_diag.
    simpl. rewrite app_nil_r.
    rewrite <- (repeat_length (@Tzero T _) n) at 1. apply firstn_all. }
  assert (L : nth n x Tzero = Tzero).
  { apply (f_equal (fun l => nth n l Tzero)) in Ez.
    rewrite nth_rescale, nth_repeat in Ez by auto.
    transitivity ((t * nth n x Tzero) / t)%T; [field; exact Ht|].
    rewrite Ez. field. exact Ht. }
  rewrite <- (firstn_skipn n x), F. rewrite repeat_app. f_equal.
  assert (Ls : length (skipn n x) = 1) by (rewrite length_skipn; lia).
  destruct (skipn n x) as [|v [|w l]] eqn:Es; simpl in Ls; try lia.
  simpl. f_equal.
  rewrite <- L, <- (firstn_skipn n x) at 1.
  rewrite app_nth2 by (rewrite length_firstn; lia).
  rewrite length_firstn, Es.
  replace (n - Nat.min n (length x)) with 0 by lia. reflexivity.
Qed.

(** Singularity does not depend on the factor of the block. *)
Lemma scaled_singular (n : nat) (A1 A2 : list T) (t : T) :
  t <> Tzero ->
  (forall i j, i < n -> j < n ->
     entry (n + 1) A2 i j = (t * entry (n + 1) A1 i j)%T) ->
  (forall i, i < n ->
     entry (n + 1) A1 i n = (- Tone)%T /\
     entry (n + 1) A2 i n = (- Tone)%T) ->
  (forall j, j < n -> entry (n + 1) A2 n j = entry (n + 1) A1 n j) ->
  entry (n + 1) A1 n n = Tzero -> entry (n + 1) A2 n n = Tzero ->
  singular (n + 1) A1 -> singular (n + 1) A2.
Proof.
  intros Ht Hblock Hcol Hrow H1 H2 (y & Ly & Ny & Ky).
  exists (rescale n t y). repeat split.
  - now apply length_rescale.
  - intros Ez. apply Ny. now apply (@rescale_zero n t y Ly Ht).
  - intros i Hi.
    apply (@scaled_system n A1 A2 t y (fun _ => Tzero)
             Ly Hblock Hcol Hrow H1 H2); auto.
Qed.

Lemma gram_entry_scale (m1 m2 : Memory T) (d1 d2 : DIIS T) (s : T)
    (k j : nat) :
  nMat d1 = nMat d2 -> OSize d1 = OSize d2 ->
  k < nExtrap d1 -> j < nExtrap d1 ->
  (forall k i, k < nExtrap d1 -> i < nMat d1 ->
     metric m2 d2 k i = map (Tmul s) (metric m1 d1 k i)) ->
  gram_entry m2 d2 k j = (Tconj s * s * gram_entry m1 d1 k j)%T.
Proof.
  intros Em Eo Hk Hj Hs. unfold gram_entry.
  rewrite <- Em, <- Eo, <- Tsum_scale. f_equal.
  apply map_ext_in. intros i Hi. apply in_seq in Hi.
  rewrite !Hs by lia. apply InnerProd_scale.
Qed.

Lemma assemble_B_scale (m1 m2 : Memory T) (d1 d2 : DIIS T) (s : T)
    (r c : nat) :
  nExtrap d1 = nExtrap d2 -> nMat d1 = nMat d2 -> OSize d1 = OSize d2 ->
  r < nExtrap d1 -> c < nExtrap d1 ->
  (forall k i, k < nExtrap d1 -> i < nMat d1 ->
     metric m2 d2 k i = map (Tmul s) (metric m1 d1 k i)) ->
  entry (nExtrap d1 + 1) (assemble_B m2 d2) r c =
  (Tconj s * s * entry (nExtrap d1 + 1) (assemble_B m1 d1) r c)%T.
Proof.
  intros En Em Eo Hr Hc Hs.
  destruct (assemble_B_spec m1 d1) as (_ & P2 & P3 & _).
  destruct (assemble_B_spec m2 d2) as (_ & Q2 & Q3 & _).
  rewrite <- En in Q2, Q3.
  destruct (Nat.le_gt_cases r c) as [Hle|Hgt].
  - rewrite P2, Q2 by lia. now apply gram_entry_scale.
  - rewrite P3, Q3 by lia. rewrite P2, Q2 by lia.
    now apply gram_entry_scale.
Qed.

(** X11. Rescaling the history: over exact scalars, if every error
    metric is multiplied by the same non-zero [s], the call returns the
    same flag, and on success the weights are the same; only the
    multiplier is scaled, by [conj(s) * s]. *)
Theorem extrapolate_scale_invariant :
  forall (m1 m2 : Memory T) (d1 d2 : DIIS T) (s : T),
    s <> Tzero ->
    nExtrap d1 = nExtrap d2 -> nMat d1 = nMat d2 -> OSize d1 = OSize d2 ->
    length (coeffs d1) = nExtrap d1 + 1 ->
    length (coeffs d2) = nExtrap d2 + 1 ->
    (forall k i, k < nExtrap d1 -> i < nMat d1 ->
       metric m2 d2 k i = map (Tmul s) (metric m1 d1 k i)) ->
    let c1 := coeffs (snd (snd (extrapolate m1 d1))) in
    let c2 := coeffs (snd (snd (extrapolate m2 d2))) in
    fst (extrapolate m2 d2) = fst (extrapolate m1 d1) /\
    (fst (extrapolate m1 d1) = true ->
     firstn (nExtrap d1) c2 = firstn (nExtrap d1) c1 /\
     nth (nExtrap d1) c2 Tzero =
     (Tconj s * s * nth (nExtrap d1) c1 Tzero)%T).
Proof.
  intros m1 m2 d1 d2 s Hs En Em Eo L1 L2 Hm c1 c2.
  set (n := nExtrap d1) in *.
  set (t := (Tconj s * s)%T).
  assert (Ht : t <> Tzero)
    by (apply Tmul_nonzero; auto; now apply conj_nonzero).
  assert (Hu : (Tone / t)%T <> Tzero).
  { intros F. apply Tone_neq_zero.
    transitivity ((Tone / t) * t)%T; [field; exact Ht|].
    rewrite F. ring. }
  set (B1 := assemble_B m1 d1). set (B2 := assemble_B m2 d2).
  destruct (assemble_B_spec m1 d1) as (_ & _ & _ & P4 & P5).
  destruct (assemble_B_spec m2 d2) as (_ & _ & _ & Q4 & Q5).
  rewrite <- En in Q4, Q5. fold n B1 in P4, P5. fold n B2 in Q4, Q5.
  assert (Hb : forall i j, i < n -> j < n ->
                 entry (n + 1) B2 i j = (t * entry (n + 1) B1 i j)%T).
  { intros i j Hi Hj. now apply assemble_B_scale. }
  assert (Hb' : forall i j, i < n -> j < n ->
                  entry (n + 1) B1 i j
                  = (Tone / t * entry (n + 1) B2 i j)%T).
  { intros i j Hi Hj. rewrite Hb by auto. field. exact Ht. }
  assert (Hc : forall i, i < n ->
                 entry (n + 1) B1 i n = (- Tone)%T /\
                 entry (n + 1) B2 i n = (- Tone)%T).
  { intros i Hi. split; [apply (P4 i Hi) | apply (Q4 i Hi)]. }
  assert (Hc' : forall i, i < n ->
                  entry (n + 1) B2 i n = (- Tone)%T /\
                  entry (n + 1) B1 i n = (- Tone)%T).
  { intros i Hi. split; [apply (Q4 i Hi) | apply (P4 i Hi)]. }
  assert (Hr : forall j, j < n ->
                 entry (n + 1) B2 n j = entry (n + 1) B1 n j).
  { intros j Hj. destruct (P4 j Hj) as (-> & _).
    destruct (Q4 j Hj) as (-> & _). reflexivity. }
  assert (Hr' : forall j, j < n ->
                  entry (n + 1) B1 n j = entry (n + 1) B2 n j).
  { intros j Hj. symmetry. now apply Hr. }
  assert (S12 : singular (n + 1) B1 -> singular (n + 1) B2)
    by (apply (@scaled_singular n B1 B2 t); auto).
  assert (S21 : singular (n + 1) B2 -> singular (n + 1) B1)
    by (apply (@scaled_singular n B2 B1 (Tone / t)%T); auto).
  assert (F1 : fst (extrapolate m1 d1) = false <-> singular (n + 1) B1)
    by (now apply extrapolate_false_iff).
  assert (F2 : fst (extrapolate m2 d2) = false <-> singular (n + 1) B2).
  { rewrite En. now apply extrapolate_false_iff. }
  assert (Eflag : fst (extrapolate m2 d2) = fst (extrapolate m1 d1)).
  { destruct (fst (extrapolate m1 d1)) eqn:E1;
      destruct (fst (extrapolate m2 d2)) eqn:E2; auto.
    - assert (X : true = false) by (apply F1, S21, F2; reflexivity).
      discriminate.
    - apply F2, S12, F1. reflexivity. }
  split; [exact Eflag|].
  intros Ok1.
  assert (Ok2 : fst (extrapolate m2 d2) = true) by congruence.
  pose proof (extrapolate_true m1 d1 Ok1) as G1. fold c1 n B1 in G1.
  pose proof (extrapolate_true m2 d2 Ok2) as G2. fold c2 B2 in G2.
  rewrite <- En in G2.
  assert (R12 : init_rhs d2 = init_rhs d1).
  { rewrite (init_rhs_spec d1 L1), (init_rhs_spec d2 L2), <- En.
    reflexivity. }
  rewrite R12 in G2.
  pose proof (length_init_rhs d1 L1) as LR.
  destruct (@gesv_sound _ _ _ _ _ _ c1 LR G1) as (Lc1 & Sc1).
  assert (Ec : rescale n t c1 = c2).
  { apply (@gesv_unique _ _ _ (n + 1) B2 (init_rhs d1)); auto.
    - now apply length_rescale.
    - apply (@scaled_system n B1 B2 t c1
               (fun i => nth i (init_rhs d1) Tzero)); auto.
      intros i Hi. now apply nth_init_rhs_first. }
  rewrite <- Ec. split.
  - now apply firstn_rescale.
  - now apply nth_rescale.
Qed.

End Rescaling.

Lemma Qc_nonzero (z : Z) : z <> 0%Z -> qz z <> Q2Qc 0.
Proof.
  intros Hz F. unfold qz in F. apply Q2Qc_eq_iff in F.
  unfold Qeq in F. simpl in F. lia.
Qed.

Lemma extrapolate_idempotent_witness :
  length (coeffs (two_slots (T := Qc))) = 2 + 1 /\
  extrapolate
    (fst (snd (extrapolate orthonormal two_slots)))
    (snd (snd (extrapolate orthonormal two_slots)))
  = extrapolate orthonormal two_slots.
Proof.
  assert (HL : length (coeffs (two_slots (T := Qc))) = 2 + 1)
    by reflexivity.
  split; [exact HL|].
  exact (@extrapolate_idempotent Qc Qc_Scalar orthonormal two_slots HL).
Defined.

Lemma gram_diagonal_nonneg_witness :
  1 < nExtrap (two_slots (T := Qc)) /\
  (Q2Qc 0 <= entry 3 (assemble_B parallel two_slots) 1 1)%Qc.
Proof.
  assert (H1 : 1 < nExtrap (two_slots (T := Qc))) by (simpl; lia).
  split; [exact H1|].
  exact (@gram_diagonal_nonneg Qc Qc_Scalar Qc_Real parallel two_slots 1 H1).
Defined.

Lemma gram_block_is_gram_matrix_witness :
  1 < nExtrap (two_slots (T := Qc)) /\
  0 < nExtrap (two_slots (T := Qc)) /\
  entry 3 (assemble_B parallel two_slots) 1 0 =
  Tsum (map (fun i => InnerProd 2 (metric parallel two_slots 1 i) 1
                        (metric parallel two_slots 0 i) 1)
            (seq 0 1)).
Proof.
  assert (H1 : 1 < nExtrap (two_slots (T := Qc))) by (simpl; lia).
  assert (H0 : 0 < nExtrap (two_slots (T := Qc))) by (simpl; lia).
  split; [exact H1|]. split; [exact H0|].
  exact (@gram_block_is_gram_matrix Qc Qc_Scalar Qc_Exact Qc_Real
           parallel two_slots 1 0 H1 H0).
Defined.

Lemma gram_block_lower_is_conjugate_witness :
  0 < 1 /\ 1 < nExtrap complex_history /\
  entry 4 (assemble_B complex_memory complex_history) 1 0 =
  Tconj (Tsum (map (fun i =>
                      InnerProd 2 (metric complex_memory complex_history 1 i)
                        1 (metric complex_memory complex_history 0 i) 1)
                   (seq 0 1))).
Proof.
  assert (H0 : 0 < 1) by lia.
  assert (H1 : 1 < nExtrap complex_history) by (simpl; lia).
  split; [exact H0|]. split; [exact H1|].
  exact (@gram_block_lower_is_conjugate QcC QcC_Scalar QcC_Exact
           complex_memory complex_history 1 0 H0 H1).
Defined.

Lemma extrapolate_stationary_witness :
  length (coeffs (two_slots (T := Qc))) = 2 + 1 /\
  fst (extrapolate parallel two_slots) = true /\
  dot (map (fun j => entry 3 (assemble_B parallel two_slots) 0 j) (seq 0 2))
      (firstn 2 (coeffs (snd (snd (extrapolate parallel two_slots)))))
  = nth 2 (coeffs (snd (snd (extrapolate parallel two_slots)))) Tzero.
Proof.
  assert (HL : length (coeffs (two_slots (T := Qc))) = 2 + 1)
    by reflexivity.
  assert (Ok : fst (extrapolate parallel two_slots) = true)
    by (vm_compute; reflexivity).
  split; [exact HL|]. split; [exact Ok|].
  exact (@extrapolate_stationary Qc Qc_Scalar Qc_Exact parallel two_slots 0
           HL Ok ltac:(simpl; lia)).
Defined.

Lemma extrapolate_solution_unique_witness :
  [half; half; half] =
  coeffs (snd (snd (extrapolate orthonormal two_slots))).
Proof.
  apply (@extrapolate_solution_unique Qc Qc_Scalar Qc_Exact
           orthonormal two_slots [half; half; half]).
  - reflexivity.
  - vm_compute. reflexivity.
  - reflexivity.
  - intros i Hi. simpl in Hi.
    assert (Hc : i = 0 \/ i = 1 \/ i = 2) by lia.
    destruct Hc as [-> | [-> | ->]];
      apply Qc_is_canon; vm_compute; reflexivity.
Defined.

Lemma extrapolate_empty_history_witness :
  extrapolate orthonormal no_slots =
  (false, (orthonormal, set_coeffs no_slots [(- Tone)%T])).
Proof.
  exact (@extrapolate_empty_history Qc Qc_Scalar Qc_Exact orthonormal
           no_slots eq_refl eq_refl).
Defined.

Lemma extrapolate_no_data_witness :
  fst (extrapolate orthonormal no_matrices) = false.
Proof.
  exact (proj2 (@extrapolate_no_data Qc Qc_Scalar Qc_Exact orthonormal
                  no_matrices eq_refl (or_introl eq_refl)
                  ltac:(simpl; lia))).
Defined.

Lemma two_slot_solution_witness :
  nth 0 (coeffs (snd (snd (extrapolate parallel two_slots)))) Tzero = qz 2
  /\
  nth 1 (coeffs (snd (snd (extrapolate parallel two_slots)))) Tzero
  = qz (-1).
Proof.
  pose proof (@two_slot_solution Qc Qc_Scalar Qc_Exact parallel two_slots
                eq_refl eq_refl) as P.
  cbv zeta in P. destruct P as (_ & P).
  rewrite P.
  - split; apply Qc_is_canon; vm_compute; reflexivity.
  - intros F. apply (f_equal (fun q => Qnum (this q))) in F.
    vm_compute in F. discriminate.
Defined.

Lemma extrapolate_scale_invariant_witness :
  fst (extrapolate doubled two_slots) = fst (extrapolate orthonormal two_slots)
  /\
  firstn 2 (coeffs (snd (snd (extrapolate doubled two_slots)))) =
  firstn 2 (coeffs (snd (snd (extrapolate orthonormal two_slots)))).
Proof.
  assert (Hs : qz 2 <> Q2Qc 0) by (apply Qc_nonzero; lia).
  assert (Hm : forall k i, k < 2 -> i < 1 ->
             metric doubled two_slots k i =
             map (Tmul (qz 2)) (metric orthonormal two_slots k i)).
  { intros k i Hk Hi. assert (i = 0) by lia. subst i.
    assert (Hc : k = 0 \/ k = 1) by lia.
    destruct Hc as [-> | ->]; apply Qc_list_eq; vm_compute; reflexivity. }
  pose proof (@extrapolate_scale_invariant Qc Qc_Scalar Qc_Exact
                orthonormal doubled two_slots two_slots (qz 2) Hs
                eq_refl eq_refl eq_refl eq_refl eq_refl Hm) as P.
  cbv zeta in P. destruct P as (Pf & Pc).
  split; [exact Pf|].
  apply Pc. vm_compute. reflexivity.
Defined.

(** * Further properties of [CQSCFOptions] *)

(** ** One keyword, one field *)

Lemma OPTOPT_frame {A B : Type} (P : SCFControls -> B) (r : option A)
    (f : A -> SCFControls -> SCFControls) (c : SCFControls) :
  (forall v c', P (f v c') = P c') -> P (OPTOPT r f c) = P c.
Proof. intros Hf. destruct r; simpl; auto. Qed.

Lemma OPTOPT_hit {A : Type} (P : SCFControls -> A) (r : option A)
    (f : A -> SCFControls -> SCFControls) (c : SCFControls) :
  (forall v c', P (f v c') = v) -> P (OPTOPT r f c) = from_input r (P c).
Proof. intros Hf. destruct r; simpl; auto. Qed.

Ltac setter_frame :=
  intros; unfold assign_guess, assign_DIIS;
  repeat match goal with
         | |- context [if ?b then _ else _] => destruct b
         end;
  reflexivity.

(** Peels the keywords off a projection of the parsed controls. *)
Ltac peel_keywords :=
  repeat match goal with
         | |- context [?P (OPTOPT ?r ?f ?c)] =>
             first [ rewrite (@OPTOPT_frame _ _ P r f c) by setter_frame
                   | rewrite (@OPTOPT_hit _ P r f c) by setter_frame ]
         end.

Lemma equivalences_frame {A : Type} (P : SCFControls -> A)
    (c : SCFControls) :
  (forall b c', P (set_doDamp b c') = P c') ->
  (forall b c', P (set_doExtrap b c') = P c') ->
  P (equivalences c) = P c.
Proof.
  intros Hd He. unfold equivalences.
  destruct (PrimFloat.eqb (dampStartParam c) 0%float); cbv zeta;
    match goal with
    | |- context [if ?b then _ else _] => destruct b
    end; rewrite ?He, ?Hd; reflexivity.
Qed.

(** What a call that returns has done. *)
Lemma CQSCFOptions_returns (split : string -> list string)
    (stod : string -> option float) (input : CQInputFile)
    (ss ss' : SingleSlaterBase) (pert pert' : EMPerturbation) :
  containsSection input "SCF" = true ->
  CQSCFOptions split stod input ss pert = Returns (ss', pert') ->
  scfControls ss' = equivalences (parse_keywords input (scfControls ss)) /\
  handleField split stod input pert = Returns pert'.
Proof.
  unfold CQSCFOptions. intros Hs E. rewrite Hs in E. simpl in E.
  destruct (handleField split stod input pert); try discriminate.
  injection E as <- <-. split; reflexivity.
Qed.

(** The fields after the keywords and the equivalences, one by one. *)
Lemma parsed_plain_fields (input : CQInputFile) (c : SCFControls) :
  let c' := equivalences (parse_keywords input c) in
  eneConvTol c' = from_input (getData_double input "SCF.ENETOL")
                    (eneConvTol c) /\
  denConvTol c' = from_input (getData_double input "SCF.DENTOL")
                    (denConvTol c) /\
  maxSCFIter c' = from_input (getData_size_t input "SCF.MAXITER")
                    (maxSCFIter c) /\
  doIncFock c' = from_input (getData_bool input "SCF.INCFOCK")
                   (doIncFock c) /\
  nIncFock c' = from_input (getData_size_t input "SCF.NINCFOCK")
                  (nIncFock c) /\
  nKeep c' = from_input (getData_size_t input "SCF.NKEEP") (nKeep c) /\
  dampStartParam c' = from_input (getData_double input "SCF.DAMPPARAM")
                        (dampStartParam c) /\
  dampError c' = from_input (getData_double input "SCF.DAMPERROR")
                   (dampError c).
Proof.
  cbv zeta. repeat split;
    rewrite equivalences_frame by reflexivity;
    unfold parse_keywords; cbv zeta; peel_keywords; reflexivity.
Qed.

Lemma parsed_guess (input : CQInputFile) (c : SCFControls) :
  guess (equivalences (parse_keywords input c)) =
  match getData_string input "SCF.GUESS" with
  | Some g => guess (assign_guess g c)
  | None => guess c
  end.
Proof.
  rewrite equivalences_frame by reflexivity.
  unfold parse_keywords; cbv zeta.
  do 6 (match goal with
        | |- context [?P (OPTOPT ?r ?f ?c)] =>
            rewrite (@OPTOPT_frame _ _ P r f c) by setter_frame
        end).
  destruct (getData_string input "SCF.GUESS") as [g|]; simpl.
  - unfold assign_guess.
    repeat match goal with
           | |- context [if ?b then _ else _] => destruct b
           end; simpl; peel_keywords; reflexivity.
  - peel_keywords. reflexivity.
Qed.

Lemma parsed_diisAlg (input : CQInputFile) (c : SCFControls) :
  diisAlg (equivalences (parse_keywords input c)) =
  match getData_bool input "SCF.DIIS" with
  | Some false => NONE
  | _ => diisAlg c
  end.
Proof.
  rewrite equivalences_frame by reflexivity.
  unfold parse_keywords; cbv zeta.
  do 4 (match goal with
        | |- context [?P (OPTOPT ?r ?f ?c)] =>
            rewrite (@OPTOPT_frame _ _ P r f c) by setter_frame
        end).
  destruct (getData_bool input "SCF.DIIS") as [[|]|];
    unfold assign_DIIS; simpl; peel_keywords; reflexivity.
Qed.

Lemma parsed_doDamp_request (input : CQInputFile) (c : SCFControls) :
  doDamp (parse_keywords input c) =
  from_input (getData_bool input "SCF.DAMP") (doDamp c).
Proof.
  unfold parse_keywords; cbv zeta. peel_keywords. reflexivity.
Qed.

Lemma parsed_doExtrap_request (input : CQInputFile) (c : SCFControls) :
  doExtrap (parse_keywords input c) =
  from_input (getData_bool input "SCF.EXTRAP") (doExtrap c).
Proof.
  unfold parse_keywords; cbv zeta. peel_keywords. reflexivity.
Qed.

Lemma equivalences_doDamp (c : SCFControls) :
  doDamp (equivalences c) =
  doDamp c && negb (PrimFloat.eqb (dampStartParam c) 0%float).
Proof.
  unfold equivalences.
  destruct (PrimFloat.eqb (dampStartParam c) 0%float); cbv zeta;
    match goal with
    | |- context [if ?b then _ else _] => destruct b
    end; simpl; rewrite ?andb_false_r, ?andb_true_r; reflexivity.
Qed.

Lemma equivalences_doExtrap (c : SCFControls) :
  doExtrap (equivalences c) =
  doExtrap c &&
  (doDamp (equivalences c) || negb (DIIS_ALG_eqb (diisAlg c) NONE)).
Proof.
  rewrite equivalences_doDamp. unfold equivalences.
  destruct (PrimFloat.eqb (dampStartParam c) 0%float); cbv zeta; simpl.
  - destruct (DIIS_ALG_eqb (diisAlg c) NONE); simpl;
      rewrite ?andb_false_r, ?andb_true_r; reflexivity.
  - destruct (doDamp c); simpl;
      [now rewrite andb_true_r|].
    destruct (DIIS_ALG_eqb (diisAlg c) NONE); simpl;
      rewrite ?andb_false_r, ?andb_true_r; reflexivity.
Qed.

Lemma parsed_dampStartParam (input : CQInputFile) (c : SCFControls) :
  dampStartParam (parse_keywords input c) =
  from_input (getData_double input "SCF.DAMPPARAM") (dampStartParam c).
Proof.
  unfold parse_keywords; cbv zeta. peel_keywords. reflexivity.
Qed.

(** The two flags after the equivalences, from the input and the
    controls passed in. *)
Lemma flags_closed_form (input : CQInputFile) (c : SCFControls) :
  let c' := equivalences (parse_keywords input c) in
  doDamp c' =
    from_input (getData_bool input "SCF.DAMP") (doDamp c) &&
    negb (PrimFloat.eqb (dampStartParam c') 0%float) /\
  doExtrap c' =
    from_input (getData_bool input "SCF.EXTRAP") (doExtrap c) &&
    (doDamp c' || negb (DIIS_ALG_eqb (diisAlg c') NONE)).
Proof.
  cbv zeta. split.
  - rewrite equivalences_doDamp, parsed_doDamp_request.
    now rewrite (equivalences_frame dampStartParam) by reflexivity.
  - rewrite equivalences_doExtrap, parsed_doExtrap_request.
    now rewrite (equivalences_frame diisAlg) by reflexivity.
Qed.

(** X12. Each of eight fields is settled by its own keyword alone: after
    a call that returns on an input with an [SCF] section, each of the
    tolerances, the iteration and history counts, the incremental-Fock
    switch and the damping parameter and error holds the value read from
    its keyword, or its old value when the keyword is missing, whatever
    the other keywords are. *)
Theorem keywords_set_their_fields :
  forall (split : string -> list string) (stod : string -> option float)
         (input : CQInputFile) (ss ss' : SingleSlaterBase)
         (pert pert' : EMPerturbation),
    containsSection input "SCF" = true ->
    CQSCFOptions split stod input ss pert = Returns (ss', pert') ->
    let c := scfControls ss in
    let c' := scfControls ss' in
    eneConvTol c' = from_input (getData_double input "SCF.ENETOL")
                      (eneConvTol c) /\
    denConvTol c' = from_input (getData_double input "SCF.DENTOL")
                      (denConvTol c) /\
    maxSCFIter c' = from_input (getData_size_t input "SCF.MAXITER")
                      (maxSCFIter c) /\
    doIncFock c' = from_input (getData_bool input "SCF.INCFOCK")
                     (doIncFock c) /\
    nIncFock c' = from_input (getData_size_t input "SCF.NINCFOCK")
                    (nIncFock c) /\
    nKeep c' = from_input (getData_size_t input "SCF.NKEEP") (nKeep c) /\
    dampStartParam c' = from_input (getData_double input "SCF.DAMPPARAM")
                          (dampStartParam c) /\
    dampError c' = from_input (getData_double input "SCF.DAMPERROR")
                     (dampError c).
Proof.
  intros split stod input ss ss' pert pert' Hs E c c'.
  destruct (CQSCFOptions_returns _ _ _ _ _ Hs E) as (Ec & _).
  unfold c'. rewrite Ec. apply parsed_plain_fields.
Qed.

(** X13. The guess keyword: [CORE], [SAD] and [RANDOM] select the guess
    of that name; any other string, like a missing keyword, leaves the
    guess as it was and is no error. *)
Theorem guess_keyword :
  forall (split : string -> list string) (stod : string -> option float)
         (input : CQInputFile) (ss ss' : SingleSlaterBase)
         (pert pert' : EMPerturbation),
    containsSection input "SCF" = true ->
    CQSCFOptions split stod input ss pert = Returns (ss', pert') ->
    let old := guess (scfControls ss) in
    let new := guess (scfControls ss') in
    (getData_string input "SCF.GUESS" = Some "CORE"%string -> new = CORE) /\
    (getData_string input "SCF.GUESS" = Some "SAD"%string -> new = SAD) /\
    (getData_string input "SCF.GUESS" = Some "RANDOM"%string ->
     new = RANDOM) /\
    (forall g, getData_string input "SCF.GUESS" = Some g ->
       g <> "CORE"%string -> g <> "SAD"%string -> g <> "RANDOM"%string ->
       new = old) /\
    (getData_string input "SCF.GUESS" = None -> new = old).
Proof.
  intros split stod input ss ss' pert pert' Hs E old new.
  destruct (CQSCFOptions_returns _ _ _ _ _ Hs E) as (Ec & _).
  unfold new. rewrite Ec, parsed_guess.
  repeat split.
  - intros ->. reflexivity.
  - intros ->. reflexivity.
  - intros ->. reflexivity.
  - intros g -> H1 H2 H3. unfold assign_guess.
    apply String.eqb_neq in H1, H2, H3. now rewrite H1, H2, H3.
  - intros ->. reflexivity.
Qed.

(** X14. The DIIS keyword can only switch DIIS off: [SCF.DIIS = false]
    sets [diisAlg] to [NONE]; [true], or no keyword, leaves [diisAlg] as
    it was, so controls that come in with [NONE] go out with [NONE]. *)
Theorem DIIS_keyword :
  forall (split : string -> list string) (stod : string -> option float)
         (input : CQInputFile) (ss ss' : SingleSlaterBase)
         (pert pert' : EMPerturbation),
    containsSection input "SCF" = true ->
    CQSCFOptions split stod input ss pert = Returns (ss', pert') ->
    let old := diisAlg (scfControls ss) in
    let new := diisAlg (scfControls ss') in
    (getData_bool input "SCF.DIIS" = Some false -> new = NONE) /\
    (getData_bool input "SCF.DIIS" <> Some false -> new = old) /\
    (old = NONE -> new = NONE).
Proof.
  intros split stod input ss ss' pert pert' Hs E old new.
  destruct (CQSCFOptions_returns _ _ _ _ _ Hs E) as (Ec & _).
  unfold new. rewrite Ec, parsed_diisAlg. fold old.
  destruct (getData_bool input "SCF.DIIS") as [[|]|]; repeat split;
    auto; congruence.
Qed.

(** X15. The two flags: after a call that returns on an input with an
    [SCF] section, [doDamp] is on exactly when it was asked for (or was
    on and not mentioned) and the damping parameter is not zero, and
    [doExtrap] is on exactly when it was asked for (or was on and not
    mentioned) and damping or DIIS is still on.  The equivalences never
    switch a flag on. *)
Theorem damping_and_extrapolation_flags :
  forall (split : string -> list string) (stod : string -> option float)
         (input : CQInputFile) (ss ss' : SingleSlaterBase)
         (pert pert' : EMPerturbation),
    containsSection input "SCF" = true ->
    CQSCFOptions split stod input ss pert = Returns (ss', pert') ->
    let c := scfControls ss in
    let c' := scfControls ss' in
    doDamp c' =
      from_input (getData_bool input "SCF.DAMP") (doDamp c) &&
      negb (PrimFloat.eqb (dampStartParam c') 0%float) /\
    doExtrap c' =
      from_input (getData_bool input "SCF.EXTRAP") (doExtrap c) &&
      (doDamp c' || negb (DIIS_ALG_eqb (diisAlg c') NONE)) /\
    (doDamp c' = true ->
     from_input (getData_bool input "SCF.DAMP") (doDamp c) = true) /\
    (doExtrap c' = true ->
     from_input (getData_bool input "SCF.EXTRAP") (doExtrap c) = true).
Proof.
  intros split stod input ss ss' pert pert' Hs E c c'.
  destruct (CQSCFOptions_returns _ _ _ _ _ Hs E) as (Ec & _).
  destruct (flags_closed_form input c) as (Fd & Fe).
  unfold c'. rewrite Ec. fold c.
  split; [exact Fd|]. split; [exact Fe|]. split.
  - rewrite Fd. intros H. now apply andb_true_iff in H.
  - rewrite Fe. intros H. now apply andb_true_iff in H.
Qed.

(** ** Parsing twice *)

Lemma SCFControls_ext (a b : SCFControls) :
  eneConvTol a = eneConvTol b -> denConvTol a = denConvTol b ->
  maxSCFIter a = maxSCFIter b -> doIncFock a = doIncFock b ->
  nIncFock a = nIncFock b -> guess a = guess b ->
  doExtrap a = doExtrap b -> diisAlg a = diisAlg b ->
  nKeep a = nKeep b -> doDamp a = doDamp b ->
  dampStartParam a = dampStartParam b -> dampError a = dampError b ->
  a = b.
Proof.
  destruct a, b; simpl; intros; subst; reflexivity.
Qed.

Lemma from_input_twice {A : Type} (r : option A) (old : A) :
  from_input r (from_input r old) = from_input r old.
Proof. destruct r; reflexivity. Qed.

Lemma assign_guess_stable (g : string) (x y : SCFControls) :
  guess y = guess (assign_guess g x) -> guess (assign_guess g y) = guess y.
Proof.
  unfold assign_guess.
  repeat match goal with
         | |- context [if ?b then _ else _] => destruct b
         end; simpl; auto.
Qed.

(** The keywords and the equivalences, applied to their own result. *)
Lemma parse_stable (input : CQInputFile) (c : SCFControls) :
  let c' := equivalences (parse_keywords input c) in
  equivalences (parse_keywords input c') = c'.
Proof.
  cbv zeta. set (c' := equivalences (parse_keywords input c)).
  destruct (parsed_plain_fields input c)
    as (P1 & P2 & P3 & P4 & P5 & P6 & P7 & P8).
  destruct (parsed_plain_fields input c')
    as (Q1 & Q2 & Q3 & Q4 & Q5 & Q6 & Q7 & Q8).
  fold c' in P1, P2, P3, P4, P5, P6, P7, P8.
  assert (Ea : diisAlg (equivalences (parse_keywords input c'))
               = diisAlg c').
  { rewrite (parsed_diisAlg input c'). unfold c' at 1.
    rewrite (parsed_diisAlg input c). unfold c'.
    rewrite (parsed_diisAlg input c).
    destruct (getData_bool input "SCF.DIIS") as [[|]|]; reflexivity. }
  assert (Ed : doDamp (equivalences (parse_keywords input c'))
               = doDamp c').
  { destruct (flags_closed_form input c') as (-> & _).
    destruct (flags_closed_form input c) as (Fd & _). fold c' in Fd.
    rewrite Q7, P7, from_input_twice. rewrite <- P7. rewrite Fd.
    destruct (getData_bool input "SCF.DAMP") as [b|]; simpl;
      [reflexivity|].
    now rewrite <- andb_assoc, andb_diag. }
  apply SCFControls_ext.
  - now rewrite Q1, P1, from_input_twice.
  - now rewrite Q2, P2, from_input_twice.
  - now rewrite Q3, P3, from_input_twice.
  - now rewrite Q4, P4, from_input_twice.
  - now rewrite Q5, P5, from_input_twice.
  - rewrite (parsed_guess input c').
    pose proof (parsed_guess input c) as Pg. fold c' in Pg.
    destruct (getData_string input "SCF.GUESS") as [g|]; [|reflexivity].
    now apply (@assign_guess_stable g c c').
  - destruct (flags_closed_form input c') as (_ & ->).
    destruct (flags_closed_form input c) as (_ & Fe). fold c' in Fe.
    rewrite Ed, Ea. rewrite Fe.
    destruct (getData_bool input "SCF.EXTRAP") as [b|]; simpl;
      [reflexivity|].
    now rewrite <- andb_assoc, andb_diag.
  - exact Ea.
  - now rewrite Q6, P6, from_input_twice.
  - exact Ed.
  - now rewrite Q7, P7, from_input_twice.
  - now rewrite Q8, P8, from_input_twice.
Qed.

(** When [handleField] returns, it returns for every perturbation. *)
Lemma handleField_returns_always (split : string -> list string)
    (stod : string -> option float) (input : CQInputFile)
    (pert pert' pert2 : EMPerturbation) :
  handleField split stod input pert = Returns pert' ->
  exists pert2', handleField split stod input pert2 = Returns pert2'.
Proof.
  unfold handleField.
  repeat match goal with
         | |- context [if ?b then _ else _] => destruct b
         | |- context [match stod ?t with _ => _ end] => destruct (stod t)
         end; intros E; try discriminate; eexists; reflexivity.
Qed.

(** X16. Parsing the same input again changes no control: if a call
    returns controls [ss'], a second call on [ss'] with the same input
    returns, and returns [ss'] again. *)
Theorem CQSCFOptions_idempotent :
  forall (split : string -> list string) (stod : string -> option float)
         (input : CQInputFile) (ss ss' : SingleSlaterBase)
         (pert pert' : EMPerturbation),
    CQSCFOptions split stod input ss pert = Returns (ss', pert') ->
    exists pert'',
      CQSCFOptions split stod input ss' pert' = Returns (ss', pert'').
Proof.
  intros split stod input ss ss' pert pert' E.
  destruct (containsSection input "SCF") eqn:Hs.
  - destruct (CQSCFOptions_returns _ _ _ _ _ Hs E) as (Ec & Ef).
    destruct (handleField_returns_always _ _ _ _ pert' Ef) as (p2 & Ef2).
    exists p2. unfold CQSCFOptions. rewrite Hs, Ef2. simpl.
    rewrite Ec, parse_stable. rewrite <- Ec.
    destruct ss'. reflexivity.
  - exists pert'. unfold CQSCFOptions. now rewrite Hs.
Qed.

(** ** The field keyword *)

(** What [handleField] has seen when it returns. *)
Lemma handleField_returns (split : string -> list string)
    (stod : string -> option float) (input : CQInputFile)
    (pert pert' : EMPerturbation) :
  handleField split stod input pert = Returns pert' ->
  (from_input (getData_string input "SCF.FIELD") EmptyString = EmptyString
   /\ pert' = pert) \/
  (exists f t1 t2 t3 x y z,
     getData_string input "SCF.FIELD" = Some f /\
     f <> EmptyString /\
     split f = ["ELECTRIC"%string; t1; t2; t3] /\
     stod t1 = Some x /\ stod t2 = Some y /\ stod t3 = Some z /\
     pert' = pert ++ [(Electric, (x, y, z))]).
Proof.
  unfold handleField.
  destruct (getData_string input "SCF.FIELD") as [f|]; simpl.
  - destruct (String.eqb f EmptyString) eqn:Ef.
    + intros E. injection E as <-. left. split; auto.
      now apply String.eqb_eq.
    + apply String.eqb_neq in Ef.
      destruct (split f) as [|t0 [|t1 [|t2 [|t3 [|t4 l]]]]] eqn:Et;
        simpl; try discriminate.
      * destruct (String.eqb t0 "ELECTRIC") eqn:E0.
        -- apply String.eqb_eq in E0. subst t0.
           destruct (stod t1) as [x|] eqn:E1; try discriminate.
           destruct (stod t2) as [y|] eqn:E2; try discriminate.
           destruct (stod t3) as [z|] eqn:E3; try discriminate.
           intros E. injection E as <-. right.
           exists f, t1, t2, t3, x, y, z. repeat split; auto.
        -- destruct (String.eqb t0 "MAGNETIC"); discriminate.
      * destruct (String.eqb t0 "ELECTRIC");
          [discriminate|].
        destruct (String.eqb t0 "MAGNETIC"); discriminate.
  - intros E. injection E as <-. left. split; auto.
Qed.

(** X17. Only the field keyword can stop the call: on an input with an
    [SCF] section and no [SCF.FIELD] keyword (or an empty one), the call
    returns, whatever the other keywords hold, and adds no field. *)
Theorem CQSCFOptions_without_field_returns :
  forall (split : string -> list string) (stod : string -> option float)
         (input : CQInputFile) (ss : SingleSlaterBase)
         (pert : EMPerturbation),
    from_input (getData_string input "SCF.FIELD") EmptyString
    = EmptyString ->
    exists ss', CQSCFOptions split stod input ss pert = Returns (ss', pert).
Proof.
  intros split stod input ss pert Hf. unfold CQSCFOptions.
  destruct (containsSection input "SCF"); simpl.
  - unfold handleField.
    destruct (getData_string input "SCF.FIELD") as [f|]; simpl in *.
    + subst f. simpl. eexists. reflexivity.
    + eexists. reflexivity.
  - eexists. reflexivity.
Qed.

(** X18. When a non-empty field keyword lets the call return, it had
    exactly four tokens, the first one [ELECTRIC], the other three read
    as doubles, and exactly that electric field was added at the end of
    the perturbation. *)
Theorem CQSCFOptions_field_added :
  forall (split : string -> list string) (stod : string -> option float)
         (input : CQInputFile) (ss ss' : SingleSlaterBase)
         (pert pert' : EMPerturbation) (f : string),
    containsSection input "SCF" = true ->
    getData_string input "SCF.FIELD" = Some f ->
    f <> EmptyString ->
    CQSCFOptions split stod input ss pert = Returns (ss', pert') ->
    exists t1 t2 t3 x y z,
      split f = ["ELECTRIC"%string; t1; t2; t3] /\
      stod t1 = Some x /\ stod t2 = Some y /\ stod t3 = Some z /\
      pert' = pert ++ [(Electric, (x, y, z))].
Proof.
  intros split stod input ss ss' pert pert' f Hs Hf Hne E.
  destruct (CQSCFOptions_returns _ _ _ _ _ Hs E) as (_ & Eh).
  apply handleField_returns in Eh.
  destruct Eh as [(He & _)|(f' & t1 & t2 & t3 & x & y & z & Hf' & _ & R)].
  - rewrite Hf in He. simpl in He. contradiction.
  - rewrite Hf in Hf'. injection Hf' as <-.
    exists t1, t2, t3, x, y, z. exact R.
Qed.

(** X19. A call that returns never drops or changes a field it was
    given: the new perturbation is the old one followed by at most one
    field, and that field is electric. *)
Theorem CQSCFOptions_keeps_fields :
  forall (split : string -> list string) (stod : string -> option float)
         (input : CQInputFile) (ss ss' : SingleSlaterBase)
         (pert pert' : EMPerturbation),
    CQSCFOptions split stod input ss pert = Returns (ss', pert') ->
    exists added,
      pert' = pert ++ added /\
      length added <= 1 /\
      forall e, In e added -> fst e = Electric.
Proof.
  intros split stod input ss ss' pert pert' E.
  destruct (containsSection input "SCF") eqn:Hs.
  - destruct (CQSCFOptions_returns _ _ _ _ _ Hs E) as (_ & Eh).
    apply handleField_returns in Eh.
    destruct Eh as [(_ & ->)|(f & t1 & t2 & t3 & x & y & z & R)].
    + exists []. rewrite app_nil_r. repeat split; simpl; auto.
      intros e [].
    + destruct R as (_ & _ & _ & _ & _ & _ & ->).
      exists [(Electric, (x, y, z))]. repeat split; simpl; auto.
      intros e [<-|[]]. reflexivity.
  - unfold CQSCFOptions in E. rewrite Hs in E. simpl in E.
    injection E as <- <-.
    exists []. rewrite app_nil_r. repeat split; simpl; auto.
    intros e [].
Qed.

(** X20. The errors of the field keyword, on an input with an [SCF]
    section and a non-empty field string [f] of tokens [split f]: fewer
    than four tokens, a first token that is not [ELECTRIC], or more than
    four tokens end the program with the message of the source; four
    tokens with a component that does not read as a double let the
    exception of [stod] escape. *)
Theorem CQSCFOptions_field_errors :
  forall (split : string -> list string) (stod : string -> option float)
         (input : CQInputFile) (ss : SingleSlaterBase)
         (pert : EMPerturbation) (f : string),
    containsSection input "SCF" = true ->
    getData_string input "SCF.FIELD" = Some f ->
    f <> EmptyString ->
    let tokens := split f in
    let t0 := nth 0 tokens EmptyString in
    let run := CQSCFOptions split stod input ss pert in
    (length tokens < 4 ->
     run = Terminates (f ++ "is not a valid SCF Field specification")) /\
    (4 <= length tokens -> t0 = "MAGNETIC"%string ->
     run = Terminates "Magnetic Fields NYI") /\
    (4 <= length tokens -> t0 <> "ELECTRIC"%string ->
     t0 <> "MAGNETIC"%string ->
     run = Terminates (t0 ++ "not a valid Field type")) /\
    (4 < length tokens -> t0 = "ELECTRIC"%string ->
     run = Terminates "Non Dipole fields NYI") /\
    (length tokens = 4 -> t0 = "ELECTRIC"%string ->
     (stod (nth 1 tokens EmptyString) = None \/
      stod (nth 2 tokens EmptyString) = None \/
      stod (nth 3 tokens EmptyString) = None) ->
     run = Throws).
Proof.
  intros split stod input ss pert f Hs Hf Hne tokens t0 run.
  assert (Ef : String.eqb f EmptyString = false)
    by (now apply String.eqb_neq).
  unfold run, CQSCFOptions, handleField. rewrite Hs, Hf. simpl.
  rewrite Ef. fold tokens. fold t0.
  repeat split.
  - intros Hl. apply Nat.ltb_lt in Hl. now rewrite Hl.
  - intros Hl ->. apply Nat.ltb_ge in Hl. now rewrite Hl.
  - intros Hl H1 H2. apply Nat.ltb_ge in Hl.
    apply String.eqb_neq in H1, H2. now rewrite Hl, H1, H2.
  - intros Hl ->. assert (Hl' : 4 <= length tokens) by lia.
    apply Nat.ltb_ge in Hl'. rewrite Hl'. simpl.
    assert (Hn : (length tokens =? 4) = false)
      by (apply Nat.eqb_neq; lia).
    now rewrite Hn.
  - intros Hl -> Hp. rewrite Hl. simpl.
    destruct Hp as [-> | [Hp | Hp]]; auto.
    + destruct (stod (nth 1 tokens EmptyString)); auto.
      now rewrite Hp.
    + destruct (stod (nth 1 tokens EmptyString)); auto.
      destruct (stod (nth 2 tokens EmptyString)); auto.
      now rewrite Hp.
Qed.

(** ** The further properties on concrete inputs *)

Lemma contrary_run :
  CQSCFOptions four_tokens read_digit contrary_input usual_controls []
  = Returns (contrary_result, []).
Proof. reflexivity. Qed.

Lemma field_run :
  CQSCFOptions four_tokens read_digit field_input usual_controls []
  = Returns (field_result, [(Electric, (0%float, 0%float, 1%float))]).
Proof. reflexivity. Qed.

Lemma keywords_set_their_fields_witness :
  dampStartParam (scfControls contrary_result) = 0%float /\
  nKeep (scfControls contrary_result) = nKeep (scfControls usual_controls).
Proof.
  pose proof (keywords_set_their_fields four_tokens read_digit
                contrary_input usual_controls [] eq_refl contrary_run) as P.
  cbv zeta in P.
  destruct P as (_ & _ & _ & _ & _ & Pk & Pd & _).
  split; [exact Pd | exact Pk].
Defined.

Lemma guess_keyword_witness :
  guess (scfControls contrary_result) = guess (scfControls usual_controls).
Proof.
  pose proof (guess_keyword four_tokens read_digit
                contrary_input usual_controls [] eq_refl contrary_run) as P.
  cbv zeta in P. destruct P as (_ & _ & _ & _ & P).
  exact (P eq_refl).
Defined.

Lemma DIIS_keyword_witness :
  diisAlg (scfControls contrary_result) = NONE.
Proof.
  pose proof (DIIS_keyword four_tokens read_digit
                contrary_input usual_controls [] eq_refl contrary_run) as P.
  cbv zeta in P. destruct P as (P & _).
  exact (P eq_refl).
Defined.

Lemma damping_and_extrapolation_flags_witness :
  doDamp (scfControls contrary_result) =
  true && negb (PrimFloat.eqb
                  (dampStartParam (scfControls contrary_result)) 0%float).
Proof.
  pose proof (damping_and_extrapolation_flags four_tokens read_digit
                contrary_input usual_controls [] eq_refl contrary_run) as P.
  cbv zeta in P. destruct P as (P & _).
  exact P.
Defined.

Lemma CQSCFOptions_idempotent_witness :
  exists pert'',
    CQSCFOptions four_tokens read_digit field_input field_result
      [(Electric, (0%float, 0%float, 1%float))]
    = Returns (field_result, pert'').
Proof.
  exact (CQSCFOptions_idempotent four_tokens read_digit field_input
           usual_controls [] field_run).
Defined.

Lemma CQSCFOptions_without_field_returns_witness :
  exists ss',
    CQSCFOptions four_tokens read_digit contrary_input usual_controls []
    = Returns (ss', []).
Proof.
  exact (CQSCFOptions_without_field_returns four_tokens read_digit
           contrary_input usual_controls [] eq_refl).
Defined.

Lemma nonempty_field : "ELECTRIC 0 0 1"%string <> EmptyString.
Proof. discriminate. Qed.

Lemma CQSCFOptions_field_added_witness :
  exists t1 t2 t3 x y z,
    four_tokens "ELECTRIC 0 0 1" = ["ELECTRIC"%string; t1; t2; t3] /\
    read_digit t1 = Some x /\ read_digit t2 = Some y /\
    read_digit t3 = Some z /\
    [(Electric, (0%float, 0%float, 1%float))] = [] ++ [(Electric, (x, y, z))].
Proof.
  exact (CQSCFOptions_field_added four_tokens read_digit field_input
           usual_controls [] eq_refl eq_refl nonempty_field field_run).
Defined.

Lemma CQSCFOptions_keeps_fields_witness :
  exists added,
    [(Electric, (0%float, 0%float, 1%float))] = [] ++ added /\
    length added <= 1 /\
    forall e : EMFieldTyp * cart_t, In e added -> fst e = Electric.
Proof.
  exact (CQSCFOptions_keeps_fields four_tokens read_digit field_input
           usual_controls [] field_run).
Defined.

Lemma CQSCFOptions_field_errors_witness :
  CQSCFOptions magnetic_tokens read_digit field_input usual_controls []
  = Terminates "Magnetic Fields NYI".
Proof.
  pose proof (CQSCFOptions_field_errors magnetic_tokens read_digit
                field_input usual_controls [] eq_refl eq_refl
                nonempty_field) as P.
  cbv zeta in P. destruct P as (_ & P & _).
  apply P; [simpl; lia | reflexivity].
Defined.
